(** * Shared Memory MCP server: storage engine and query functions

  A shallow embedding of [shared_memory_mcp.py] and [utils/file_lock.py].

  Conventions of the embedding.
  - A Python [str] is a [string]; each [ascii] stands for the code point of
    the same number (the Latin-1 range).
  - A memory entry is the dictionary the server keeps in its list.  Its
    keys are those of [MemoryEntry]; a key may be absent (entries written by
    the version-1 server have neither id, tags nor priority), and a value
    that is present has the type [MemoryEntry] declares for it.
  - The file system is a finite map from paths to file contents.  The
    content of a file is its text.  A file whose bytes are not text in the
    encoding of the platform, on which [f.read()] raises
    [UnicodeDecodeError], is outside the embedding.
  - [json.loads] returns a value or raises [JSONDecodeError].  A text on
    which it raises another error ([RecursionError] for a text nested too
    deeply, [ValueError] for an integer of too many digits) is outside the
    embedding, and so is a file whose JSON value is not of the types that
    [StorageFormat] and [MemoryEntry] declare (a dictionary whose [entries]
    are not a list, a list whose elements are not dictionaries).
  - Functions that log, read the clock or touch files run in the monad [M]
    over the [World]; what the operating system decides (whether the lock
    is free, whether a write fails) is read from an [Env].  The directories
    are there: [mkdir] with [exist_ok=True] does not fail. *)

From Stdlib Require Import ZArith Ascii String DecimalString.
From stdpp Require Import base option list sorting gmap strings.

Set Warnings "-register-all,-abstract-large-number".

(** ** Python built-ins used by the server *)

Module Py.

Definition code (c : ascii) : N := Ascii.N_of_ascii c.

(** [str.isspace] on one character: the characters [str.split] and
    [str.strip] treat as white space. *)
Definition isspace (c : ascii) : bool :=
  let n := code c in
  ((9 <=? n) && (n <=? 13) || (28 <=? n) && (n <=? 32)
   || (n =? 133) || (n =? 160))%N.

(** The white space pydantic removes under [str_strip_whitespace]: the
    Unicode [White_Space] property, which leaves out the separators
    U+001C to U+001F. *)
Definition is_white_space (c : ascii) : bool :=
  let n := code c in
  ((9 <=? n) && (n <=? 13) || (n =? 32) || (n =? 133) || (n =? 160))%N.

Definition starts_word (s : string) : bool :=
  match s with
  | EmptyString => false
  | String c _ => negb (isspace c)
  end.

(** [s.split()]: the maximal runs of characters that are not white space. *)
Fixpoint split (s : string) : list string :=
  match s with
  | EmptyString => []
  | String c s' =>
      if isspace c then split s'
      else if starts_word s' then
        match split s' with
        | w :: ws => String c w :: ws
        | [] => [String c EmptyString]
        end
      else String c EmptyString :: split s'
  end.

Fixpoint lstrip_with (sp : ascii -> bool) (s : string) : string :=
  match s with
  | EmptyString => EmptyString
  | String c s' => if sp c then lstrip_with sp s' else s
  end.

Fixpoint rstrip_with (sp : ascii -> bool) (s : string) : string :=
  match s with
  | EmptyString => EmptyString
  | String c s' =>
      match rstrip_with sp s' with
      | EmptyString => if sp c then EmptyString else String c EmptyString
      | r => String c r
      end
  end.

Definition strip_with (sp : ascii -> bool) (s : string) : string :=
  rstrip_with sp (lstrip_with sp s).

(** [s.strip()] *)
Definition strip : string -> string := strip_with isspace.

Definition lower_char (c : ascii) : ascii :=
  let n := code c in
  if ((65 <=? n) && (n <=? 90)
      || (192 <=? n) && (n <=? 222) && negb (n =? 215))%N
  then Ascii.ascii_of_N (n + 32) else c.

(** [s.lower()] *)
Fixpoint lower (s : string) : string :=
  match s with
  | EmptyString => EmptyString
  | String c s' => String (lower_char c) (lower s')
  end.

(** [p in s] for two strings *)
Fixpoint contains (p s : string) : bool :=
  String.prefix p s ||
  match s with
  | EmptyString => false
  | String _ s' => contains p s'
  end.

(** [s.endswith(suffix)] *)
Fixpoint endswith (suffix s : string) : bool :=
  String.eqb s suffix ||
  match s with
  | EmptyString => false
  | String _ s' => endswith suffix s'
  end.

(** [s[:k]] *)
Definition str_prefix (k : nat) (s : string) : string := String.substring 0 k s.

(** [len(s)] *)
Definition len (s : string) : nat := String.length s.

(** The line feed, written [\n] in the source. *)
Definition nl : string := String (Ascii.ascii_of_nat 10) EmptyString.

(** [str(n)] for an integer *)
Definition str_nat (n : nat) : string := NilZero.string_of_uint (Nat.to_uint n).
Definition str_int (z : Z) : string := NilZero.string_of_int (Z.to_int z).

(** [sep.join(l)] *)
Fixpoint join (sep : string) (l : list string) : string :=
  match l with
  | [] => EmptyString
  | [x] => x
  | x :: l' => x +:+ sep +:+ join sep l'
  end.

(** [l[-k:]] for [k >= 0].  [-0] is [0], so [l[-0:]] is the whole list. *)
Definition last_slice {A} (k : nat) (l : list A) : list A :=
  match k with
  | 0 => l
  | _ => drop (length l - k) l
  end.

(** [l[:k]] for [k >= 0] *)
Definition first_slice {A} (k : nat) (l : list A) : list A := take k l.

(** [l[:-k]] for [k >= 0].  [-0] is [0], so [l[:-0]] is the empty list. *)
Definition all_but_last {A} (k : nat) (l : list A) : list A :=
  match k with
  | 0 => []
  | _ => take (length l - k) l
  end.

Section Sorted.
Context {A : Type} (le : A -> A -> bool).

Fixpoint insert_sorted (x : A) (l : list A) : list A :=
  match l with
  | [] => [x]
  | y :: l' => if le x y then x :: y :: l' else y :: insert_sorted x l'
  end.

(** [sorted(l)] under the order [le]: Python's sort is stable, and a stable
    sort has one result, the one insertion from the right computes. *)
Definition sorted (l : list A) : list A := foldr insert_sorted [] l.

End Sorted.

(** [sorted(l, key=key)] for an integer key *)
Definition sorted_by_key {A} (key : A -> nat) : list A -> list A :=
  sorted (fun x y => (key x <=? key y)%nat).

(** An arbitrary value ([Any]) as the json module produces it. *)
Inductive value :=
| VNone
| VBool (b : bool)
| VInt (z : Z)
| VStr (s : string)
| VList (l : list value)
| VDict (d : list (string * value)).

End Py.


(** ** Constants *)

Definition CHARACTER_LIMIT : nat := 25000.
Definition MAX_WORDS_PER_ENTRY : Z := 200.
Definition MAX_ENTRIES : nat := 1000.
Definition STORAGE_VERSION : string := "2.0".

(** A path is a directory and a file name in it ([parent] and [name]). *)
Abbreviation Path := (string * string)%type.

Definition STORAGE_DIR : string := "~/.shared_memory_mcp".
Definition MEMORY_FILE : Path := (STORAGE_DIR, "memory.json").
Definition BACKUP_DIR : string := "~/.shared_memory_mcp/backups".

(** ** Data model *)

Inductive ResponseFormat := MARKDOWN | JSON.

Inductive Priority := LOW | MEDIUM | HIGH.

Definition Priority_value (p : Priority) : string :=
  match p with LOW => "low" | MEDIUM => "medium" | HIGH => "high" end.

Inductive SortOrder := CHRONOLOGICAL | REVERSE | PRIORITY.

(** The dictionary of one entry.  [None] is an absent key; [updated_at] is
    absent, present and [None], or present with a time. *)
Record Entry := mkEntry {
  entry_id : option string;
  timestamp : option string;
  agent_name : option string;
  content : option string;
  word_count : option Z;
  tags : option (list string);
  priority : option string;
  metadata : option (list (string * Py.value));
  updated_at : option (option string)
}.

(** [storage_data], the dictionary [save_memories] serialises. *)
Record Storage := mkStorage {
  storage_version : string;
  storage_entries : list Entry;
  storage_created_at : Py.value;
  storage_updated_at : string
}.

(** What [json.loads] returns, by the tests the server makes on it: a list
    (the version-1 file), a dictionary, with or without the keys the server
    reads, or a value of another type.  The elements of the list, and the
    [entries] of the dictionary when the key is there, are entries, as
    [StorageFormat] declares: a dictionary that holds a value of another
    type under [entries], which [load_memories] would return as it is, has
    no [Document]. *)
Inductive Document :=
| DocList (l : list Entry)
| DocDict (doc_entries : option (list Entry)) (doc_created_at : option Py.value)
| DocOther (type_name : string).

(** The modules the server imports.  [json_loads] is [None] where
    [json.loads] raises [JSONDecodeError], the one error it raises on the
    texts of the embedding; [uuid_parses] tells whether [uuid.UUID(s)]
    returns. *)
Class Library := {
  json_loads : string -> option Document;
  json_dumps_storage : Storage -> string;
  json_dumps_listing : list Entry -> string;
  uuid_parses : string -> bool
}.

(** The document [json_dumps_storage] is expected to read back as. *)
Definition Storage_document (sd : Storage) : Document :=
  DocDict (Some (storage_entries sd)) (Some (storage_created_at sd)).

(** ** The world: files and the log *)

Inductive Level := DEBUG | INFO | WARNING | ERROR.

Record LogRecord := mkLog { level : Level; message : string }.

Record World := mkWorld {
  fs : gmap Path string;
  log : list LogRecord
}.

Inductive Exn :=
| FileLockTimeout
| FileLockError
| OSError
| JSONDecodeError.

Inductive Result (A : Type) :=
| Ok (a : A)
| Raise (e : Exn).
Arguments Ok {A} a.
Arguments Raise {A} e.

Definition M (A : Type) : Type := World -> Result A * World.

#[global] Instance M_ret : MRet M := fun A a w => (Ok a, w).

#[global] Instance M_bind : MBind M := fun A B f m w =>
  match m w with
  | (Ok a, w') => f a w'
  | (Raise e, w') => (Raise e, w')
  end.

Definition raise {A} (e : Exn) : M A := fun w => (Raise e, w).

(** [try: body except ...: handler] *)
Definition try_except {A} (body : M A) (handler : Exn -> M A) : M A := fun w =>
  match body w with
  | (Ok a, w') => (Ok a, w')
  | (Raise e, w') => handler e w'
  end.

Definition logger (lv : Level) (msg : string) : M unit := fun w =>
  (Ok (), mkWorld (fs w) (log w ++ [mkLog lv msg])).

Definition get_fs : M (gmap Path string) := fun w => (Ok (fs w), w).

Definition put_fs (f : gmap Path string) : M unit := fun w =>
  (Ok (), mkWorld f (log w)).

(** What the operating system and the clock decide during one call.  The
    retry loop of [file_lock] ends with the lock, with [FileLockTimeout], or
    with another error. *)
Inductive LockOutcome := Acquired | TimedOut | LockFailed.

(** The statement of [atomic_write] that raises, with the number of
    characters that reached the temporary file when it is the write. *)
Inductive WriteFault :=
| FailOpen
| FailWrite (written : nat)
| FailFsync
| FailReplace.

(** [load_lock] and [save_lock] are what the [file_lock] of
    [load_memories] and the one of [save_memories] meet; [init_fault] and
    [write_fault] are the faults of the [atomic_write] of
    [ensure_storage_structure] and of the one of [save_memories];
    [backup_fault] tells whether the copy of [create_backup] fails.  [now k]
    is the time read at the place number [k] of the source that reads the
    clock (0 and 1 in [ensure_storage_structure], 2 and 3 in
    [save_memories], 4 in [add_memory], 5 in [update_memory], 6 in
    [delete_memory]), [strftime] the stamp of [create_backup] and [uuid4]
    the id [generate_entry_id] draws. *)
Record Env := mkEnv {
  load_lock : LockOutcome;
  save_lock : LockOutcome;
  init_fault : option WriteFault;
  write_fault : option WriteFault;
  backup_fault : bool;
  now : nat -> string;
  strftime : string;
  uuid4 : string
}.

(** ** utils/file_lock.py *)

(** [f.read()] on the file at [p], whose content is text. *)
Definition read_text (p : Path) : M string := fun w =>
  match fs w !! p with
  | Some c => (Ok c, w)
  | None => (Raise OSError, w)
  end.

(** [file_path.touch()] when the file does not exist *)
Definition touch (p : Path) : M unit :=
  f ← get_fs;
  if decide (f !! p = None) then put_fs (<[p := EmptyString]> f) else mret ().

(** [with file_lock(file_path, timeout=...) as f: body].  The retry loop
    ends in one of three ways, which the environment decides; an exception
    of the body passes through the context manager, which turns whatever is
    not a time-out into [FileLockError]. *)
Definition file_lock {A} (outcome : LockOutcome) (file_path : Path)
    (body : M A) : M A :=
  match outcome with
  | LockFailed => raise FileLockError
  | TimedOut => touch file_path;; raise FileLockTimeout
  | Acquired =>
      touch file_path;;
      try_except body (fun e =>
        match e with
        | FileLockTimeout => raise FileLockTimeout
        | _ => raise FileLockError
        end)
  end.

(** [file_path.parent / f".{file_path.name}.tmp"] *)
Definition temp_path (file_path : Path) : Path :=
  (file_path.1, "." +:+ file_path.2 +:+ ".tmp").

(** The [except] clause of [atomic_write]: the states it adds. *)
Definition clean_up (temp : Path) (f : gmap Path string) : list (gmap Path string) :=
  if decide (f !! temp = None) then [] else [delete temp f].

(** [atomic_write] as the list of file-system states it goes through, one
    for each statement that changes a file, and its outcome.  [fault] names
    the statement that raises, if one does. *)
Definition atomic_write_run (fault : option WriteFault) (file_path : Path)
    (content : string) (f0 : gmap Path string)
    : list (gmap Path string) * Result unit :=
  let temp := temp_path file_path in
  match fault with
  | Some FailOpen => (clean_up temp f0, Raise OSError)
  | Some (FailWrite written) =>
      let f1 := <[temp := EmptyString]> f0 in
      let f2 := <[temp := Py.str_prefix written content]> f1 in
      ([f1; f2] ++ clean_up temp f2, Raise OSError)
  | Some FailFsync | Some FailReplace =>
      let f1 := <[temp := EmptyString]> f0 in
      let f2 := <[temp := content]> f1 in
      ([f1; f2] ++ clean_up temp f2, Raise OSError)
  | None =>
      let f1 := <[temp := EmptyString]> f0 in
      let f2 := <[temp := content]> f1 in
      ([f1; f2; <[file_path := content]> (delete temp f2)], Ok ())
  end.

Definition atomic_write (fault : option WriteFault) (file_path : Path)
    (content : string) : M unit := fun w =>
  let '(states, r) := atomic_write_run fault file_path content (fs w) in
  (r, mkWorld (List.last states (fs w)) (log w)).

(** ** Storage management *)

Section Storage.
Context `{Library}.

Definition ensure_storage_structure (env : Env) : M unit :=
  f ← get_fs;
  if decide (f !! MEMORY_FILE = None) then
    atomic_write (init_fault env) MEMORY_FILE
      (json_dumps_storage
         (mkStorage STORAGE_VERSION [] (Py.VStr (now env 0)) (now env 1)));;
    logger INFO "Initialized new memory storage"
  else mret ().

(** [fnmatch(name, "memory_backup_*.json")] *)
Definition fnmatch_backup (name : string) : bool :=
  String.prefix "memory_backup_" name && Py.endswith ".json" name.

Definition path_le (p q : Path) : bool :=
  if String.eqb p.1 q.1 then String.leb p.2 q.2 else String.leb p.1 q.1.

(** [sorted(BACKUP_DIR.glob("memory_backup_*.json"))] *)
Definition sorted_backups (f : gmap Path string) : list Path :=
  Py.sorted path_le
    (filter (fun p : Path => p.1 = BACKUP_DIR ∧ fnmatch_backup p.2)
       (map_to_list f).*1).

Definition unlink (p : Path) : M unit :=
  f ← get_fs; put_fs (delete p f).

Fixpoint unlink_each (l : list Path) : M unit :=
  match l with
  | [] => mret ()
  | p :: l' => unlink p;; logger DEBUG "Removed old backup";; unlink_each l'
  end.

Definition cleanup_old_backups (keep : nat) : M unit :=
  try_except
    (f ← get_fs;
     let backups := sorted_backups f in
     if (keep <? length backups)%nat
     then unlink_each (Py.all_but_last keep backups)
     else mret ())
    (fun _ => logger WARNING "Failed to cleanup old backups").

Definition create_backup (env : Env) : M unit :=
  f ← get_fs;
  match f !! MEMORY_FILE with
  | None => mret ()
  | Some c =>
      if (Py.len c =? 0)%nat then mret ()
      else
        try_except
          (let backup_file :=
             (BACKUP_DIR, "memory_backup_" +:+ strftime env +:+ ".json") in
           content ← read_text MEMORY_FILE;
           (if backup_fault env then raise OSError
            else put_fs (<[backup_file := content]> f));;
           logger DEBUG "Backup created";;
           cleanup_old_backups 10)
          (fun _ => logger WARNING "Failed to create backup")
  end.

(** The loop of [recover_from_backup] over [reversed(backups)] *)
Fixpoint recover_scan (backups : list Path) : M (option (list Entry)) :=
  match backups with
  | [] => logger ERROR "All backup recovery attempts failed";; mret None
  | backup_file :: rest =>
      r ← try_except
            (c ← read_text backup_file;
             match json_loads c with
             | None => raise JSONDecodeError
             | Some data => mret (Some data)
             end)
            (fun _ =>
               logger WARNING "Failed to recover from backup";; mret None);
      match r with
      | Some (DocList l) =>
          logger INFO "Recovered from backup (v1)";; mret (Some l)
      | Some (DocDict (Some es) _) =>
          logger INFO "Recovered from backup (v2)";; mret (Some es)
      | _ => recover_scan rest
      end
  end.

Definition recover_from_backup : M (option (list Entry)) :=
  try_except
    (f ← get_fs;
     let backups := sorted_backups f in
     match backups with
     | [] => logger WARNING "No backup files found for recovery";; mret None
     | _ => recover_scan (reverse backups)
     end)
    (fun _ => logger ERROR "Error during backup recovery";; mret None).

Definition load_memories (env : Env) : M (list Entry) :=
  ensure_storage_structure env;;
  try_except
    (file_lock (load_lock env) MEMORY_FILE
       (logger DEBUG "File lock acquired";;
        content ← read_text MEMORY_FILE;
        if decide (Py.strip content = EmptyString) then
          logger WARNING "Empty memory file detected, initializing";;
          mret []
        else
          match json_loads content with
          | Some (DocList data) =>
              logger INFO "Detected v1 format, auto-migrating to v2";;
              mret data
          | Some (DocDict data_entries _) => mret (default [] data_entries)
          | Some (DocOther _) =>
              logger ERROR "Invalid storage format detected";; mret []
          | None =>
              logger ERROR "Storage corruption detected";;
              backup_entries ← recover_from_backup;
              match backup_entries with
              | Some es => logger INFO "Storage recovered";; mret es
              | None =>
                  logger ERROR "Unable to recover from backup, returning empty";;
                  mret []
              end
          end))
    (fun e =>
       match e with
       | FileLockTimeout =>
           logger ERROR "File lock timeout";; raise FileLockTimeout
       | _ => logger ERROR "Unexpected error loading memories";; mret []
       end).

(** The [created_at] of the existing file, [VNone] when it has none. *)
Definition existing_created_at (content : string) : M Py.value :=
  if decide (Py.strip content = EmptyString) then mret Py.VNone
  else
    match json_loads content with
    | None => raise JSONDecodeError
    | Some (DocDict _ (Some c)) => mret c
    | Some _ => mret Py.VNone
    end.

Definition save_memories (env : Env) (memories : list Entry) : M unit :=
  ensure_storage_structure env;;
  try_except
    (memories ←
       (if (MAX_ENTRIES <? length memories)%nat then
          let rotated_count := length memories - MAX_ENTRIES in
          logger WARNING
            ("Rotating memory: removing " +:+ Py.str_nat rotated_count
             +:+ " oldest entries");;
          mret (Py.last_slice MAX_ENTRIES memories)
        else mret memories);
     let updated := now env 2 in
     created ←
       try_except
         (file_lock (save_lock env) MEMORY_FILE
            (content ← read_text MEMORY_FILE; existing_created_at content))
         (fun _ => mret Py.VNone);
     let created :=
       match created with
       | Py.VNone => Py.VStr (now env 3)
       | c => c
       end in
     create_backup env;;
     atomic_write (write_fault env) MEMORY_FILE
       (json_dumps_storage (mkStorage STORAGE_VERSION memories created updated));;
     logger DEBUG "Memories saved successfully")
    (fun e =>
       match e with
       | FileLockTimeout => logger ERROR "File lock timeout";; raise e
       | _ => logger ERROR "Failed to save memories";; raise e
       end).

(** ** Utility functions *)

Definition count_words (text : string) : Z := Z.of_nat (length (Py.split text)).

Definition validate_entry_id (eid : string) : bool := uuid_parses eid.

Fixpoint find_entry_by_id (memories : list Entry) (eid : string) : option Entry :=
  match memories with
  | [] => None
  | entry :: rest =>
      if decide (entry_id entry = Some eid) then Some entry
      else find_entry_by_id rest eid
  end.

(** [find_entry_by_id] returns the dictionary that sits in the list, so an
    assignment to one of its keys changes that element of the list. *)
Fixpoint assign_found (memories : list Entry) (eid : string)
    (f : Entry -> Entry) : list Entry :=
  match memories with
  | [] => []
  | entry :: rest =>
      if decide (entry_id entry = Some eid) then f entry :: rest
      else entry :: assign_found rest eid f
  end.

(** [if x:] for an optional string and an optional list *)
Definition truthy_str (x : option string) : option string :=
  match x with
  | Some EmptyString => None
  | _ => x
  end.

Definition truthy_list {A} (x : option (list A)) : option (list A) :=
  match x with
  | Some [] => None
  | _ => x
  end.

Definition filter_memories (memories : list Entry)
    (agent_filter : option string) (tags_filter : option (list string))
    (priority_filter : option Priority)
    (date_from date_to : option string) : list Entry :=
  let filtered := memories in
  let filtered :=
    match truthy_str agent_filter with
    | Some a => filter (fun m => agent_name m = Some a) filtered
    | None => filtered
    end in
  let filtered :=
    match truthy_list tags_filter with
    | Some ts =>
        filter (fun m => Forall (fun tag => tag ∈ default [] (tags m)) ts) filtered
    | None => filtered
    end in
  let filtered :=
    match priority_filter with
    | Some p => filter (fun m => priority m = Some (Priority_value p)) filtered
    | None => filtered
    end in
  let filtered :=
    match truthy_str date_from with
    | Some d =>
        filter (fun m => String.leb d (default EmptyString (timestamp m))) filtered
    | None => filtered
    end in
  let filtered :=
    match truthy_str date_to with
    | Some d =>
        filter (fun m => String.leb (default EmptyString (timestamp m)) d) filtered
    | None => filtered
    end in
  filtered.

Definition priority_order : gmap string nat :=
  {[ "high" := 0; "medium" := 1; "low" := 2 ]}.

(** The sort key: [priority_order.get(m.get("priority", "medium"), 1)] *)
Definition priority_key (m : Entry) : nat :=
  default 1 (priority_order !! default "medium" (priority m)).

Definition sort_memories (memories : list Entry) (sort_order : SortOrder)
    : list Entry :=
  match sort_order with
  | REVERSE => reverse memories
  | PRIORITY => Py.sorted_by_key priority_key memories
  | CHRONOLOGICAL => memories
  end.

(** One turn of the loop of [search_memories]: the entry is appended to
    [results] by the first test that succeeds. *)
Definition search_step (search_pattern : string) (case_sensitive : bool)
    (results : list Entry) (entry : Entry) : list Entry :=
  let content := default EmptyString (content entry) in
  let content := if case_sensitive then content else Py.lower content in
  if Py.contains search_pattern content then results ++ [entry]
  else
    let agent_name := default EmptyString (agent_name entry) in
    let agent_name := if case_sensitive then agent_name else Py.lower agent_name in
    if Py.contains search_pattern agent_name then results ++ [entry]
    else
      let tags := default [] (tags entry) in
      let tags := if case_sensitive then tags else Py.lower <$> tags in
      if existsb (Py.contains search_pattern) tags then results ++ [entry]
      else results.

Definition search_memories (memories : list Entry) (query : string)
    (case_sensitive : bool) : list Entry :=
  if decide (query = EmptyString) then memories
  else
    let search_pattern := if case_sensitive then query else Py.lower query in
    foldl (search_step search_pattern case_sensitive) [] memories.

(** The lines [format_memories_as_markdown] appends for entry number [i]. *)
Definition markdown_entry (i : nat) (entry : Entry) : list string :=
  let eid := default "unknown" (entry_id entry) in
  let ts := default "unknown" (timestamp entry) in
  let agent := default "unknown" (agent_name entry) in
  let text := default EmptyString (content entry) in
  let words := default 0%Z (word_count entry) in
  let prio := default "medium" (priority entry) in
  let tgs := default [] (tags entry) in
  let upd := truthy_str (mjoin (updated_at entry)) in
  ["## Entry " +:+ Py.str_nat i +:+ ": " +:+ agent;
   "**ID**: `" +:+ eid +:+ "`";
   "**Time**: " +:+ ts]
  ++ match upd with
     | Some u => ["**Updated**: " +:+ u]
     | None => []
     end
  ++ ["**Words**: " +:+ Py.str_int words +:+ "/" +:+ Py.str_int MAX_WORDS_PER_ENTRY;
      "**Priority**: " +:+ prio]
  ++ match tgs with
     | [] => []
     | _ => ["**Tags**: " +:+ Py.join ", " tgs]
     end
  ++ [Py.nl +:+ text +:+ Py.nl;
      "---" +:+ Py.nl].

Definition format_memories_as_markdown (memories : list Entry) : string :=
  match memories with
  | [] => "No memory entries found."
  | _ =>
      Py.join Py.nl
        (["# Shared Memory" +:+ Py.nl;
          "Total entries: " +:+ Py.str_nat (length memories) +:+ Py.nl]
         ++ mjoin (imap (fun i entry => markdown_entry (S i) entry) memories))
  end.

Definition format_memories_as_json (memories : list Entry) : string :=
  json_dumps_listing memories.

Definition format_memories (response_format : ResponseFormat)
    (memories : list Entry) : string :=
  match response_format with
  | MARKDOWN => format_memories_as_markdown memories
  | JSON => format_memories_as_json memories
  end.

(** ** Tool inputs *)

Inductive FieldError :=
| StringTooShort (field : string)
| StringTooLong (field : string)
| TooManyItems (field : string)
| WordCountExceeded (count : Z)
| NotAPriority (given : string).

(** The arguments of [add_memory] as the caller sends them. *)
Record AddMemoryArguments := mkAddArguments {
  arg_agent_name : string;
  arg_content : string;
  arg_tags : list string;
  arg_priority : option string;
  arg_metadata : list (string * Py.value)
}.

(** A validated [AddMemoryInput]. *)
Record AddMemoryInput := mkAddInput {
  add_agent_name : string;
  add_content : string;
  add_tags : list string;
  add_priority : Priority;
  add_metadata : list (string * Py.value)
}.

(** [str_strip_whitespace=True] *)
Definition str_strip_whitespace : string -> string :=
  Py.strip_with Py.is_white_space.

Definition validate_word_count (v : string) : list FieldError :=
  let wc := count_words v in
  if (MAX_WORDS_PER_ENTRY <? wc)%Z then [WordCountExceeded wc] else [].

(** [[tag.strip().lower() for tag in v if tag.strip()]] *)
Definition normalize_tags (v : list string) : list string :=
  (fun tag => Py.lower (Py.strip tag)) <$>
  filter (fun tag => Py.strip tag ≠ EmptyString) v.

Definition Priority_parse (s : string) : option Priority :=
  if String.eqb s "low" then Some LOW
  else if String.eqb s "medium" then Some MEDIUM
  else if String.eqb s "high" then Some HIGH
  else None.

(** Validation of [AddMemoryInput]: the constraints of each [Field], then
    the field validators of the fields that passed them. *)
Definition AddMemoryInput_validate (a : AddMemoryArguments)
    : list FieldError + AddMemoryInput :=
  let agent := str_strip_whitespace (arg_agent_name a) in
  let text := str_strip_whitespace (arg_content a) in
  let tgs := str_strip_whitespace <$> arg_tags a in
  let agent_errors :=
    if (Py.len agent <? 1)%nat then [StringTooShort "agent_name"]
    else if (100 <? Py.len agent)%nat then [StringTooLong "agent_name"]
    else [] in
  let content_errors :=
    if (Py.len text <? 1)%nat then [StringTooShort "content"]
    else validate_word_count text in
  let tags_errors :=
    if (10 <? length tgs)%nat then [TooManyItems "tags"] else [] in
  let prio :=
    match arg_priority a with
    | None => Some MEDIUM
    | Some s => Priority_parse s
    end in
  let priority_errors :=
    match prio, arg_priority a with
    | None, Some s => [NotAPriority s]
    | _, _ => []
    end in
  match agent_errors ++ content_errors ++ tags_errors ++ priority_errors, prio with
  | [], Some p => inr (mkAddInput agent text (normalize_tags tgs) p (arg_metadata a))
  | errors, _ => inl errors
  end.

Record ReadMemoryInput := mkReadInput {
  read_response_format : ResponseFormat;
  read_limit : option nat;
  read_agent_filter : option string;
  read_tags : option (list string);
  read_priority : option Priority;
  read_sort_order : SortOrder
}.

Record UpdateMemoryInput := mkUpdateInput {
  upd_entry_id : string;
  upd_content : option string;
  upd_tags : option (list string);
  upd_priority : option Priority;
  upd_metadata : option (list (string * Py.value))
}.

(** What a tool returns: the dictionary it serialises, or the text of a
    formatted listing. *)
Inductive Response :=
| Added (eid : string) (entry_number : nat) (ts agent : string) (wc : Z)
    (tgs : list string) (prio : string)
| Text (result : string)
| Updated (eid : string) (updated_fields : list string) (at_time : string)
| Deleted (eid : string) (agent : option string) (deleted_at : string)
    (remaining_entries : nat)
| Found (entry : Entry)
| InvalidEntryId (eid : string)
| EntryNotFound (eid : string)
| Failed (what : string) (e : Exn).

(** The outcome of a tool call: the arguments are validated against the
    input model before the tool's body runs. *)
Inductive ToolResult :=
| Rejected (errors : list FieldError)
| Returned (r : Response).

(** ** Tools *)

Definition add_memory (env : Env) (params : AddMemoryInput) : M Response :=
  try_except
    (memories ← load_memories env;
     let ts := now env 4 in
     let eid := uuid4 env in
     let wc := count_words (add_content params) in
     let entry :=
       mkEntry (Some eid) (Some ts) (Some (add_agent_name params))
         (Some (add_content params)) (Some wc) (Some (add_tags params))
         (Some (Priority_value (add_priority params)))
         (Some (add_metadata params)) (Some None) in
     let memories := memories ++ [entry] in
     save_memories env memories;;
     logger INFO "Memory entry added";;
     mret (Added eid (length memories) ts (add_agent_name params) wc
             (add_tags params) (Priority_value (add_priority params))))
    (fun e =>
       logger ERROR "Failed to add memory entry";;
       mret (Failed "add memory" e)).

(** The [add_memory] tool as a caller reaches it. *)
Definition call_add_memory (env : Env) (a : AddMemoryArguments) : M ToolResult :=
  match AddMemoryInput_validate a with
  | inl errors => mret (Rejected errors)
  | inr params => r ← add_memory env params; mret (Returned r)
  end.

(** The two code points of the warning sign, as their UTF-8 bytes. *)
Definition warning_sign : string :=
  string_of_list_ascii
    (Ascii.ascii_of_nat <$> [226; 154; 160; 239; 184; 143]).

Definition truncation_notice (truncated_count total_count : nat) : string :=
  Py.nl +:+ Py.nl +:+ warning_sign +:+ " **Response Truncated**: Showing "
  +:+ Py.str_nat truncated_count +:+ " of " +:+ Py.str_nat total_count
  +:+ " entries. Use 'limit' parameter to control results.".

(** The body of [read_memory] once the entries are loaded: the response,
    the entries it shows and the [truncated] flag. *)
Definition read_loaded (params : ReadMemoryInput) (memories : list Entry)
    : string * list Entry * bool :=
  let total_count := length memories in
  let memories :=
    filter_memories memories (read_agent_filter params) (read_tags params)
      (read_priority params) None None in
  let memories := sort_memories memories (read_sort_order params) in
  let memories :=
    match read_limit params with
    | Some limit =>
        if negb (limit =? 0)%nat && (limit <? length memories)%nat then
          match read_sort_order params with
          | CHRONOLOGICAL => Py.last_slice limit memories
          | _ => Py.first_slice limit memories
          end
        else memories
    | None => memories
    end in
  let result := format_memories (read_response_format params) memories in
  if (CHARACTER_LIMIT <? Py.len result)%nat then
    let truncated_count := length memories / 2 in
    let memories := Py.last_slice truncated_count memories in
    let result := format_memories (read_response_format params) memories in
    (result +:+ truncation_notice truncated_count total_count, memories, true)
  else (result, memories, false).

Definition read_memory (env : Env) (params : ReadMemoryInput) : M Response :=
  try_except
    (memories ← load_memories env;
     let '(result, _, truncated) := read_loaded params memories in
     (if truncated : bool then logger WARNING "Memory read truncated"
      else logger INFO "Memory read");;
     mret (Text result))
    (fun e =>
       logger ERROR "Failed to read memory";;
       mret (Failed "read memory" e)).

Definition set_content (v : string) (e : Entry) : Entry :=
  mkEntry (entry_id e) (timestamp e) (agent_name e) (Some v)
    (Some (count_words v)) (tags e) (priority e) (metadata e) (updated_at e).

Definition set_tags (v : list string) (e : Entry) : Entry :=
  mkEntry (entry_id e) (timestamp e) (agent_name e) (content e)
    (word_count e) (Some v) (priority e) (metadata e) (updated_at e).

Definition set_priority (v : string) (e : Entry) : Entry :=
  mkEntry (entry_id e) (timestamp e) (agent_name e) (content e)
    (word_count e) (tags e) (Some v) (metadata e) (updated_at e).

Definition set_metadata (v : list (string * Py.value)) (e : Entry) : Entry :=
  mkEntry (entry_id e) (timestamp e) (agent_name e) (content e)
    (word_count e) (tags e) (priority e) (Some v) (updated_at e).

Definition set_updated_at (v : string) (e : Entry) : Entry :=
  mkEntry (entry_id e) (timestamp e) (agent_name e) (content e)
    (word_count e) (tags e) (priority e) (metadata e) (Some (Some v)).

(** [if v is not None: assign; updated_fields.append(name)] *)
Definition assign_if {A} (v : option A) (assign : A -> Entry -> Entry)
    (name : string) (st : Entry * list string) : Entry * list string :=
  match v with
  | Some x => (assign x st.1, st.2 ++ [name])
  | None => st
  end.

(** The assignments of [update_memory] to the entry it found. *)
Definition apply_update (env : Env) (params : UpdateMemoryInput) (entry : Entry)
    : Entry * list string :=
  let st := (entry, []) in
  let st := assign_if (upd_content params) set_content "content" st in
  let st := assign_if (normalize_tags <$> upd_tags params) set_tags "tags" st in
  let st :=
    assign_if (Priority_value <$> upd_priority params) set_priority "priority" st in
  let st := assign_if (upd_metadata params) set_metadata "metadata" st in
  (set_updated_at (now env 5) st.1, st.2).

Definition update_memory (env : Env) (params : UpdateMemoryInput) : M Response :=
  try_except
    (if negb (validate_entry_id (upd_entry_id params)) then
       mret (InvalidEntryId (upd_entry_id params))
     else
       memories ← load_memories env;
       match find_entry_by_id memories (upd_entry_id params) with
       | None => mret (EntryNotFound (upd_entry_id params))
       | Some entry =>
           let '(entry', updated_fields) := apply_update env params entry in
           let memories :=
             assign_found memories (upd_entry_id params) (fun _ => entry') in
           save_memories env memories;;
           logger INFO "Memory entry updated";;
           mret (Updated (upd_entry_id params) updated_fields (now env 5))
       end)
    (fun e =>
       logger ERROR "Failed to update memory entry";;
       mret (Failed "update memory" e)).

Definition delete_memory (env : Env) (eid : string) : M Response :=
  try_except
    (if negb (validate_entry_id eid) then mret (InvalidEntryId eid)
     else
       memories ← load_memories env;
       match find_entry_by_id memories eid with
       | None => mret (EntryNotFound eid)
       | Some entry =>
           let memories := filter (fun m => entry_id m ≠ Some eid) memories in
           save_memories env memories;;
           logger INFO "Memory entry deleted";;
           mret (Deleted eid (agent_name entry) (now env 6) (length memories))
       end)
    (fun e =>
       logger ERROR "Failed to delete memory entry";;
       mret (Failed "delete memory" e)).

Definition get_memory (env : Env) (eid : string)
    (response_format : ResponseFormat) : M Response :=
  try_except
    (if negb (validate_entry_id eid) then mret (InvalidEntryId eid)
     else
       memories ← load_memories env;
       match find_entry_by_id memories eid with
       | None => mret (EntryNotFound eid)
       | Some entry =>
           let r :=
             match response_format with
             | MARKDOWN => Text (format_memories_as_markdown [entry])
             | JSON => Found entry
             end in
           logger DEBUG "Retrieved single memory entry";;
           mret r
       end)
    (fun e =>
       logger ERROR "Failed to get memory entry";;
       mret (Failed "get memory" e)).

End Storage.

(** ** Vocabulary of the properties *)

Definition with_priority (eid p : string) : Entry :=
  mkEntry (Some eid) None None None None None (Some p) None None.

(** [p] occurs in [s]. *)
Definition substring_of (p s : string) : Prop := ∃ a b, s = a +:+ p +:+ b.

(** Case folding as the search applies it. *)
Definition folded (case_sensitive : bool) (s : string) : string :=
  if case_sensitive then s else Py.lower s.

(** Written from the specification: an entry matches when the query, folded
    unless the search is case-sensitive, occurs in its content, or in its
    author, or in one of its tags. *)
Definition spec_matches (query : string) (case_sensitive : bool) (entry : Entry)
    : bool :=
  let pat := folded case_sensitive query in
  Py.contains pat (folded case_sensitive (default EmptyString (content entry)))
  || Py.contains pat (folded case_sensitive (default EmptyString (agent_name entry)))
  || existsb (fun tag => Py.contains pat (folded case_sensitive tag))
       (default [] (tags entry)).

Definition sample_message : Entry :=
  mkEntry (Some "1") None (Some "AlphaBot") (Some "This is a TEST message")
    None (Some ["important"; "analysis"]) None None None.

Definition sample_followup : Entry :=
  mkEntry (Some "3") None (Some "AlphaBot") (Some "Follow-up message")
    None (Some ["testing"; "analysis"]) None None None.

Definition sample_other : Entry :=
  mkEntry (Some "2") None (Some "BetaBot") (Some "Another message here")
    None (Some ["routine"]) None None None.

(** [m] returns, whatever the world: it does not raise. *)
Definition returns {A} (m : M A) : Prop := ∀ w, ∃ a w', m w = (Ok a, w').

(** The entries [save_memories] keeps of the list it is given. *)
Definition kept (memories : list Entry) : list Entry :=
  if (MAX_ENTRIES <? length memories)%nat
  then Py.last_slice MAX_ENTRIES memories else memories.


(** The invariant of the store: no two entries carry the same id. *)
Definition unique_ids (memories : list Entry) : Prop :=
  NoDup (omap entry_id memories).

Section Vocabulary.
Context `{Library}.

(** The entries [recover_from_backup] takes from the snapshot at [p]: the
    snapshot must parse to a list, or to a dictionary with an [entries]
    key. *)
Definition snapshot_entries (f : gmap Path string) (p : Path)
    : option (list Entry) :=
  match f !! p with
  | Some c =>
      match json_loads c with
      | Some (DocList l) => Some l
      | Some (DocDict (Some es) _) => Some es
      | _ => None
      end
  | None => None
  end.

(** The first snapshot of a list that yields entries. *)
Fixpoint first_usable (f : gmap Path string) (l : list Path)
    : option (list Entry) :=
  match l with
  | [] => None
  | p :: rest =>
      match snapshot_entries f p with
      | Some es => Some es
      | None => first_usable f rest
      end
  end.

(** The snapshots, newest first. *)
Definition newest_first (f : gmap Path string) : list Path :=
  reverse (sorted_backups f).

(** What [load_memories] returns for the content of the primary file, once
    it holds the lock. *)
Definition loaded (f : gmap Path string) (content : string) : list Entry :=
  if decide (Py.strip content = EmptyString) then []
  else
    match json_loads content with
    | Some (DocList l) => l
    | Some (DocDict es _) => default [] es
    | Some (DocOther _) => []
    | None => default [] (first_usable f (newest_first f))
    end.

(** Written from the specification: the entries of a parsed document, and
    the entries of the newest snapshot that parses. *)
Definition spec_document_entries (d : Document) : list Entry :=
  match d with
  | DocList l => l
  | DocDict es _ => default [] es
  | DocOther _ => []
  end.

Fixpoint spec_newest_parsing (f : gmap Path string) (l : list Path)
    : option (list Entry) :=
  match l with
  | [] => None
  | p :: rest =>
      match f !! p ≫= json_loads with
      | Some d => Some (spec_document_entries d)
      | None => spec_newest_parsing f rest
      end
  end.

(** The [created_at] that [save_memories] writes over a file of the given
    content: the one of the file when it reads one there, the time of the
    call otherwise. *)
Definition preserved_created_at (env : Env) (content : string) : Py.value :=
  let existing :=
    match save_lock env with
    | Acquired =>
        if decide (Py.strip content = EmptyString) then Py.VNone
        else
          match json_loads content with
          | Some (DocDict _ (Some c)) => c
          | _ => Py.VNone
          end
    | _ => Py.VNone
    end in
  match existing with
  | Py.VNone => Py.VStr (now env 3)
  | c => c
  end.

(** The json module reads the container back that it wrote. *)
Definition reads_back (sd : Storage) : Prop :=
  Py.strip (json_dumps_storage sd) ≠ EmptyString
  ∧ json_loads (json_dumps_storage sd) = Some (Storage_document sd).



End Vocabulary.

(** ** A json and uuid library to run the server on

    The properties below hold for every [Library].  To run the server on
    files, [Sample] writes and reads JSON text the way the json module does
    for the values of the data model: [dumps] is [json.dumps(v, indent=2)],
    [loads] is [json.loads] on documents whose numbers are integers, followed
    by the reading of the entries' keys at their declared types. *)

Module Sample.

(** The double quote. *)
Definition dq : ascii := "034"%char.

Definition hex_digit (n : N) : ascii :=
  Ascii.ascii_of_N (if (n <? 10)%N then 48 + n else 87 + n).

(** One character inside a JSON string, as [ensure_ascii=True] writes it. *)
Definition escape_char (c : ascii) : string :=
  let n := Py.code c in
  if (n =? 34)%N then "\" +:+ String dq EmptyString
  else if (n =? 92)%N then "\\"
  else if (n =? 10)%N then "\n"
  else if (n =? 13)%N then "\r"
  else if (n =? 9)%N then "\t"
  else if (n =? 8)%N then "\b"
  else if (n =? 12)%N then "\f"
  else if ((n <? 32) || (126 <? n))%N then
    "\u00" +:+ String (hex_digit (n / 16)) (String (hex_digit (n mod 16)) EmptyString)
  else String c EmptyString.

Fixpoint escape (s : string) : string :=
  match s with
  | EmptyString => EmptyString
  | String c s' => escape_char c +:+ escape s'
  end.

Definition quote (s : string) : string :=
  String dq (escape s +:+ String dq EmptyString).

Fixpoint spaces (n : nat) : string :=
  match n with
  | 0 => EmptyString
  | S n' => String " " (spaces n')
  end.

(** [json.dumps(v, indent=2)] at nesting depth [lvl] *)
Fixpoint dumps (lvl : nat) (v : Py.value) : string :=
  let inner := Py.nl +:+ spaces (2 * S lvl) in
  let outer := Py.nl +:+ spaces (2 * lvl) in
  match v with
  | Py.VNone => "null"
  | Py.VBool true => "true"
  | Py.VBool false => "false"
  | Py.VInt z => Py.str_int z
  | Py.VStr s => quote s
  | Py.VList [] => "[]"
  | Py.VList l =>
      "[" +:+ inner +:+ Py.join ("," +:+ inner) (map (dumps (S lvl)) l)
      +:+ outer +:+ "]"
  | Py.VDict [] => "{}"
  | Py.VDict d =>
      "{" +:+ inner
      +:+ Py.join ("," +:+ inner)
            (map (fun kv => quote (fst kv) +:+ ": " +:+ dumps (S lvl) (snd kv)) d)
      +:+ outer +:+ "}"
  end.

Definition field {A} (k : string) (f : A -> Py.value) (x : option A)
    : list (string * Py.value) :=
  match x with
  | Some a => [(k, f a)]
  | None => []
  end.

Definition opt_str (x : option string) : Py.value :=
  match x with
  | Some s => Py.VStr s
  | None => Py.VNone
  end.

(** The dictionary of an entry, its keys in the order [add_memory] sets them. *)
Definition Entry_value (e : Entry) : Py.value :=
  Py.VDict
    (field "entry_id" Py.VStr (entry_id e)
     ++ field "timestamp" Py.VStr (timestamp e)
     ++ field "agent_name" Py.VStr (agent_name e)
     ++ field "content" Py.VStr (content e)
     ++ field "word_count" Py.VInt (word_count e)
     ++ field "tags" (fun l => Py.VList (Py.VStr <$> l)) (tags e)
     ++ field "priority" Py.VStr (priority e)
     ++ field "metadata" Py.VDict (metadata e)
     ++ field "updated_at" opt_str (updated_at e)).

Definition Storage_value (sd : Storage) : Py.value :=
  Py.VDict
    [("version", Py.VStr (storage_version sd));
     ("entries", Py.VList (Entry_value <$> storage_entries sd));
     ("created_at", storage_created_at sd);
     ("updated_at", Py.VStr (storage_updated_at sd))].

Definition listing_value (memories : list Entry) : Py.value :=
  Py.VDict
    [("total_entries", Py.VInt (Z.of_nat (length memories)));
     ("entries", Py.VList (Entry_value <$> memories))].

(** *** Reading *)

Definition is_json_space (c : ascii) : bool :=
  let n := Py.code c in ((n =? 32) || (n =? 9) || (n =? 10) || (n =? 13))%N.

Fixpoint skip_space (s : string) : string :=
  match s with
  | String c s' => if is_json_space c then skip_space s' else s
  | EmptyString => s
  end.

Definition hex_value (c : ascii) : option N :=
  let n := Py.code c in
  if ((48 <=? n) && (n <=? 57))%N then Some (n - 48)%N
  else if ((97 <=? n) && (n <=? 102))%N then Some (n - 87)%N
  else if ((65 <=? n) && (n <=? 70))%N then Some (n - 55)%N
  else None.

(** The character a [\uXXXX] escape stands for, below U+0100. *)
Definition unicode_escape (a b c d : ascii) : option ascii :=
  h3 ← hex_value a; h2 ← hex_value b; h1 ← hex_value c; h0 ← hex_value d;
  if ((h3 =? 0) && (h2 =? 0))%N then Some (Ascii.ascii_of_N (16 * h1 + h0))
  else None.

Definition simple_escape (c : ascii) : option ascii :=
  let n := Py.code c in
  if (n =? 34)%N then Some dq
  else if (n =? 92)%N then Some "\"%char
  else if (n =? 47)%N then Some "/"%char
  else if (n =? 110)%N then Some "010"%char
  else if (n =? 114)%N then Some "013"%char
  else if (n =? 116)%N then Some "009"%char
  else if (n =? 98)%N then Some "008"%char
  else if (n =? 102)%N then Some "012"%char
  else None.

(** The characters of a string up to its closing quote, and what follows. *)
Fixpoint read_chars (s : string) : option (string * string) :=
  match s with
  | EmptyString => None
  | String c rest =>
      if Ascii.eqb c dq then Some (EmptyString, rest)
      else if Ascii.eqb c "\"%char then
        match rest with
        | String "u" (String h3 (String h2 (String h1 (String h0 rest')))) =>
            x ← unicode_escape h3 h2 h1 h0;
            '(t, r) ← read_chars rest';
            Some (String x t, r)
        | String e rest' =>
            x ← simple_escape e;
            '(t, r) ← read_chars rest';
            Some (String x t, r)
        | EmptyString => None
        end
      else if (Py.code c <? 32)%N then None
      else '(t, r) ← read_chars rest; Some (String c t, r)
  end.

Definition is_digit (c : ascii) : bool :=
  ((48 <=? Py.code c) && (Py.code c <=? 57))%N.

Fixpoint read_digits (acc : Z) (s : string) : Z * string :=
  match s with
  | String c s' =>
      if is_digit c then read_digits (10 * acc + Z.of_N (Py.code c - 48)) s'
      else (acc, s)
  | EmptyString => (acc, s)
  end.

(** An integer; no digit follows a leading zero.  A number with a fraction
    or an exponent is not read: the values of the embedding hold no
    floating-point number, and the files of the examples hold none. *)
Definition read_int (s : string) : option (Z * string) :=
  let '(neg, s1) :=
    match s with
    | String "-" s' => (true, s')
    | _ => (false, s)
    end in
  match s1 with
  | String c s2 =>
      if is_digit c then
        let '(z, r) :=
          if Ascii.eqb c "0" then (0%Z, s2) else read_digits 0 s1 in
        match r with
        | String "." _ | String "e" _ | String "E" _ => None
        | _ => Some (if neg then (- z)%Z else z, r)
        end
      else None
  | EmptyString => None
  end.

Definition read_word (word : string) (v : Py.value) (s : string)
    : option (Py.value * string) :=
  if String.prefix word s
  then Some (v, String.substring (String.length word)
                  (String.length s - String.length word) s)
  else None.

(** [d[k] = v]: the value of a key that is there is replaced in its
    place. *)
Fixpoint dict_set (k : string) (v : Py.value) (d : list (string * Py.value))
    : list (string * Py.value) :=
  match d with
  | [] => [(k, v)]
  | (k', v') :: d' =>
      if String.eqb k' k then (k', v) :: d' else (k', v') :: dict_set k v d'
  end.

(** The dictionary of the members read: of two members with one key the
    later gives the value. *)
Definition dict_of (members : list (string * Py.value))
    : list (string * Py.value) :=
  foldl (fun d kv => dict_set kv.1 kv.2 d) [] members.

(** A value, the elements of a list after its bracket, the members of a
    dictionary after its brace.  [n] bounds the number of nested calls. *)
Fixpoint read_value (n : nat) (s : string) : option (Py.value * string) :=
  match n with
  | 0 => None
  | S n =>
      match skip_space s with
      | String "[" rest =>
          match skip_space rest with
          | String "]" r => Some (Py.VList [], r)
          | _ => '(l, r) ← read_elements n rest; Some (Py.VList l, r)
          end
      | String "{" rest =>
          match skip_space rest with
          | String "}" r => Some (Py.VDict [], r)
          | _ =>
              '(d, r) ← read_members n rest; Some (Py.VDict (dict_of d), r)
          end
      | String "n" _ as t => read_word "null" Py.VNone t
      | String "t" _ as t => read_word "true" (Py.VBool true) t
      | String "f" _ as t => read_word "false" (Py.VBool false) t
      | String c rest as t =>
          if Ascii.eqb c dq then
            '(str, r) ← read_chars rest; Some (Py.VStr str, r)
          else '(z, r) ← read_int t; Some (Py.VInt z, r)
      | EmptyString => None
      end
  end
with read_elements (n : nat) (s : string) : option (list Py.value * string) :=
  match n with
  | 0 => None
  | S n =>
      '(v, r) ← read_value n s;
      match skip_space r with
      | String "," r' => '(l, r'') ← read_elements n r'; Some (v :: l, r'')
      | String "]" r' => Some ([v], r')
      | _ => None
      end
  end
with read_members (n : nat) (s : string)
    : option (list (string * Py.value) * string) :=
  match n with
  | 0 => None
  | S n =>
      match skip_space s with
      | String c rest =>
          if Ascii.eqb c dq then
            '(k, r) ← read_chars rest;
            match skip_space r with
            | String ":" r1 =>
                '(v, r2) ← read_value n r1;
                match skip_space r2 with
                | String "," r3 =>
                    '(d, r4) ← read_members n r3; Some ((k, v) :: d, r4)
                | String "}" r3 => Some ([(k, v)], r3)
                | _ => None
                end
            | _ => None
            end
          else None
      | EmptyString => None
      end
  end.

(** [json.loads(s)] as a value: one value and nothing but space after it. *)
Definition loads_value (s : string) : option Py.value :=
  '(v, r) ← read_value (S (String.length s)) s;
  match skip_space r with
  | EmptyString => Some v
  | _ => None
  end.

(** *** The entries of a document *)

(** [d.get(k)]; of two members with one key the json module keeps the
    later. *)
Fixpoint dict_get (k : string) (d : list (string * Py.value)) : option Py.value :=
  match d with
  | [] => None
  | (k', v) :: d' =>
      match dict_get k d' with
      | Some v' => Some v'
      | None => if String.eqb k k' then Some v else None
      end
  end.

Definition as_str (v : Py.value) : option string :=
  match v with Py.VStr s => Some s | _ => None end.

Definition as_int (v : Py.value) : option Z :=
  match v with Py.VInt z => Some z | _ => None end.

Definition as_strs (v : Py.value) : option (list string) :=
  match v with Py.VList l => mapM as_str l | _ => None end.

Definition as_dict (v : Py.value) : option (list (string * Py.value)) :=
  match v with Py.VDict d => Some d | _ => None end.

Definition as_opt_str (v : Py.value) : option (option string) :=
  match v with
  | Py.VNone => Some None
  | Py.VStr s => Some (Some s)
  | _ => None
  end.

(** The entry a dictionary is: each key of [MemoryEntry] read at the type
    declared for it. *)
Definition Entry_of_value (v : Py.value) : Entry :=
  let d := default [] (as_dict v) in
  mkEntry (dict_get "entry_id" d ≫= as_str)
    (dict_get "timestamp" d ≫= as_str)
    (dict_get "agent_name" d ≫= as_str)
    (dict_get "content" d ≫= as_str)
    (dict_get "word_count" d ≫= as_int)
    (dict_get "tags" d ≫= as_strs)
    (dict_get "priority" d ≫= as_str)
    (dict_get "metadata" d ≫= as_dict)
    (dict_get "updated_at" d ≫= as_opt_str).

Definition type_name (v : Py.value) : string :=
  match v with
  | Py.VNone => "NoneType"
  | Py.VBool _ => "bool"
  | Py.VInt _ => "int"
  | Py.VStr _ => "str"
  | Py.VList _ => "list"
  | Py.VDict _ => "dict"
  end.

(** The document a value of the storage schema is.  A dictionary whose
    [entries] are not a list has no [Document]; it is read here as a
    dictionary with no entry. *)
Definition Document_of_value (v : Py.value) : Document :=
  match v with
  | Py.VList l => DocList (Entry_of_value <$> l)
  | Py.VDict d =>
      DocDict
        (match dict_get "entries" d with
         | Some (Py.VList l) => Some (Entry_of_value <$> l)
         | Some _ => Some []
         | None => None
         end)
        (dict_get "created_at" d)
  | _ => DocOther (type_name v)
  end.

Definition is_hex (c : ascii) : bool :=
  match hex_value c with Some _ => true | None => false end.

Fixpoint without_hyphens (s : string) : string :=
  match s with
  | EmptyString => EmptyString
  | String c s' =>
      if Ascii.eqb c "-" then without_hyphens s' else String c (without_hyphens s')
  end.

(** [s.replace(pat, "")] for a pattern that is not empty; [n] bounds the
    number of steps. *)
Fixpoint remove_all (n : nat) (pat s : string) : string :=
  match n with
  | 0 => s
  | S n =>
      if String.prefix pat s
      then remove_all n pat
             (String.substring (String.length pat)
                (String.length s - String.length pat) s)
      else
        match s with
        | EmptyString => EmptyString
        | String c s' => String c (remove_all n pat s')
        end
  end.

(** The white space [int] skips at both ends of a string. *)
Definition int_space (c : ascii) : bool :=
  let n := Py.code c in
  ((9 <=? n) && (n <=? 13) || (n =? 32) || (n =? 133) || (n =? 160))%N.

(** The digits of [int(s, 16)]: hexadecimal digits, with single
    underscores between them. *)
Fixpoint hex_digits (s : string) : bool :=
  match s with
  | EmptyString => false
  | String c s' =>
      is_hex c
      && match s' with
         | EmptyString => true
         | String "_" s'' => hex_digits s''
         | _ => hex_digits s'
         end
  end.

(** [int(s, 16)] returns: white space at both ends, a sign, the prefix [0x]
    with one underscore after it, and the digits. *)
Definition int16_parses (s : string) : bool :=
  let s := Py.strip_with int_space s in
  let s :=
    match s with
    | String "+" r | String "-" r => r
    | _ => s
    end in
  let s :=
    match s with
    | String "0" (String x r) =>
        if Ascii.eqb x "x" || Ascii.eqb x "X"
        then match r with String "_" r' => r' | _ => r end
        else s
    | _ => s
    end in
  hex_digits s.

(** [uuid.UUID(s)] returns: [urn:] and [uuid:] are removed, braces are
    stripped at both ends, the hyphens are removed, and what is left has 32
    characters that [int] reads in base 16. *)
Definition parses_uuid (s : string) : bool :=
  let h := remove_all (S (String.length s)) "urn:" s in
  let h := remove_all (S (String.length h)) "uuid:" h in
  let h := Py.strip_with (fun c => Ascii.eqb c "{" || Ascii.eqb c "}") h in
  let h := without_hyphens h in
  (String.length h =? 32)%nat && int16_parses h.

#[export] Instance library : Library := {|
  json_loads s := Document_of_value <$> loads_value s;
  json_dumps_storage sd := dumps 0 (Storage_value sd);
  json_dumps_listing memories := dumps 0 (listing_value memories);
  uuid_parses := parses_uuid
|}.

(** A call during which the lock is free and no write fails. *)
Definition env : Env :=
  mkEnv Acquired Acquired None None false
    (fun k => "2025-01-01T00:00:0" +:+ Py.str_nat k +:+ ".000000+00:00")
    "20250101_000000" "123e4567-e89b-12d3-a456-426614174000".

Definition world (files : list (Path * string)) : World :=
  mkWorld (list_to_map files) [].

(** The entries [load_memories] returns from a world. *)
Definition stored (w : World) : list Entry :=
  match (load_memories env w).1 with
  | Ok memories => memories
  | Raise _ => []
  end.

Definition snapshot (stamp : string) : Path :=
  (BACKUP_DIR, "memory_backup_" +:+ stamp +:+ ".json").

(** A primary file that does not parse, an older snapshot with one entry
    and a newer one that holds an empty dictionary. *)
Definition corrupt_world : World :=
  world
    [(MEMORY_FILE, "{broken");
     (snapshot "20250101_000000",
      json_dumps_storage
        (mkStorage STORAGE_VERSION [sample_message] (Py.VStr "2025-01-01")
           "2025-01-01"));
     (snapshot "20250102_000000", "{}")].

(** An entry with nothing but an id. *)
Definition with_id (eid : string) : Entry :=
  mkEntry (Some eid) None None None None None None None None.

(** The id number [k], [k] below 10000. *)
Definition numbered_id (k : nat) : string :=
  "00000000-0000-4000-8000-00000000"
  +:+ (if (k <? 1000)%nat then "0" else EmptyString)
  +:+ (if (k <? 100)%nat then "0" else EmptyString)
  +:+ (if (k <? 10)%nat then "0" else EmptyString)
  +:+ Py.str_nat k.

(** The number in the last group of an id. *)
Definition id_number (eid : string) : Z :=
  (read_digits 0 (String.substring 24 12 eid)).1.

(** A store of [n] entries, the ids number 0 to [n - 1]. *)
Definition numbered (n : nat) : list Entry :=
  (fun k => with_id (numbered_id k)) <$> seq 0 n.

(** The primary file of a store with the given entries. *)
Definition file_of (memories : list Entry) : string :=
  json_dumps_storage
    (mkStorage STORAGE_VERSION memories (Py.VStr "2025-01-01") "2025-01-01").

Definition store_of (memories : list Entry) : World :=
  world [(MEMORY_FILE, file_of memories)].

(** An entry whose content is one word of [n] letters. *)
Definition note (n k : nat) (agent : string) : Entry :=
  mkEntry (Some (numbered_id k)) (Some "2025-01-01T00:00:00+00:00") (Some agent)
    (Some (string_of_list_ascii (replicate n "x"%char))) (Some 1%Z) (Some [])
    (Some "medium") (Some []) (Some None).



Definition read_all : ReadMemoryInput :=
  mkReadInput MARKDOWN None None None None CHRONOLOGICAL.

Definition text_of (r : Result Response) : string :=
  match r with
  | Ok (Text s) => s
  | _ => EmptyString
  end.

(** A content of [n] words. *)
Definition words (n : nat) : string := Py.join " " (replicate n "word").

End Sample.
(** * The rest of the server

  The convenience context managers of [utils/file_lock.py], the validation
  of the inputs of [update_memory] and [search_memory], and the tools
  [search_memory], [get_memory_stats], [clear_memory] and [health_check]. *)

(** ** utils/file_lock.py: locked_read and locked_write *)

(** [with locked_read(file_path) as content: body] *)
Definition locked_read {A} (outcome : LockOutcome) (file_path : Path)
    (body : string -> M A) : M A :=
  file_lock outcome file_path (content ← read_text file_path; body content).

(** [with locked_write(file_path) as write: body].  [write] is [write_fn];
    [fault] is what its call of [atomic_write] meets. *)
Definition locked_write {A} (outcome : LockOutcome) (fault : option WriteFault)
    (file_path : Path) (body : (string -> M unit) -> M A) : M A :=
  let write_fn := fun content => atomic_write fault file_path content in
  file_lock outcome file_path (body write_fn).

(** ** Inputs *)



(** The arguments of [search_memory] as the caller sends them. *)
Record SearchMemoryArguments := mkSearchArguments {
  sarg_query : string;
  sarg_case_sensitive : bool;
  sarg_response_format : ResponseFormat;
  sarg_limit : option Z
}.

(** A validated [SearchMemoryInput]. *)
Record SearchMemoryInput := mkSearchInput {
  search_query : string;
  search_case_sensitive : bool;
  search_response_format : ResponseFormat;
  search_limit : option nat
}.

Inductive LimitError :=
| QueryTooShort
| QueryTooLong
| LimitTooSmall (given : Z)
| LimitTooLarge (given : Z).

(** Validation of [SearchMemoryInput]: the query, stripped, has 1 to 200
    characters, and the limit lies between 1 and 1000. *)
Definition SearchMemoryInput_validate (a : SearchMemoryArguments)
    : list LimitError + SearchMemoryInput :=
  let query := str_strip_whitespace (sarg_query a) in
  let query_errors :=
    if (Py.len query <? 1)%nat then [QueryTooShort]
    else if (200 <? Py.len query)%nat then [QueryTooLong]
    else [] in
  let limit_errors :=
    match sarg_limit a with
    | Some z =>
        if (z <? 1)%Z then [LimitTooSmall z]
        else if (1000 <? z)%Z then [LimitTooLarge z]
        else []
    | None => []
    end in
  match query_errors ++ limit_errors with
  | [] =>
      inr (mkSearchInput query (sarg_case_sensitive a) (sarg_response_format a)
             (Z.to_nat <$> sarg_limit a))
  | errors => inl errors
  end.

(** ** Responses *)

Inductive SearchResponse :=
| SearchText (result : string)
| SearchResults (query : string) (total_results : nat) (entries : list Entry)
| SearchFailed (e : Exn).

Inductive SearchResult :=
| SearchRejected (errors : list LimitError)
| SearchReturned (r : SearchResponse).

Inductive ClearResponse :=
| ConfirmationRequired
| Cleared (entries_cleared : nat) (cleared_at : string)
| ClearFailed (e : Exn).

(** The statistics [get_memory_stats] computes.  A dictionary that is built
    key by key is the list of its items in the order of their insertion.
    Left out are the three numbers that are floating-point numbers or sizes
    in bytes: the average, and the storage size in bytes and in kilobytes. *)
Record MemoryStats := mkStats {
  total_entries : nat;
  total_words : Z;
  agent_activity : list (string * nat);
  top_agents : list (string * nat);
  tag_usage : list (string * nat);
  top_tags : list (string * nat);
  priority_distribution : list (string * nat);
  date_range : option string * option string;
  max_entries : nat;
  entries_until_rotation : nat
}.

Inductive StatsResponse :=
| NoEntries
| Stats (stats : MemoryStats)
| StatsFailed (e : Exn).

(** The status of one check of [health_check]: [Ok] with what the check
    reports, or [Raise] with the error it caught. *)
Record HealthStatus := mkHealth {
  health_success : bool;
  health_timestamp : string;
  check_storage_file : Result bool;
  check_file_locking : Result unit;
  check_json_parsing : Result nat;
  check_backup_system : nat;
  health_message : string
}.

Inductive HealthResponse :=
| Health (status : HealthStatus)
| HealthFailed (e : Exn).

(** ** Statistics *)

(** [counts[key] = counts.get(key, 0) + 1] *)
Fixpoint increment (key : string) (counts : list (string * nat))
    : list (string * nat) :=
  match counts with
  | [] => [(key, 1)]
  | (k, n) :: rest =>
      if String.eqb k key then (k, S n) :: rest
      else (k, n) :: increment key rest
  end.

Definition agent_counts (memories : list Entry) : list (string * nat) :=
  foldl (fun counts m => increment (default "unknown" (agent_name m)) counts)
    [] memories.

Definition tag_counts (memories : list Entry) : list (string * nat) :=
  foldl (fun counts m =>
           foldl (fun counts tag => increment tag counts) counts
             (default [] (tags m)))
    [] memories.

Definition priority_counts (memories : list Entry) : list (string * nat) :=
  foldl (fun counts m => increment (default "medium" (priority m)) counts)
    [("low", 0); ("medium", 0); ("high", 0)] memories.

(** [[m.get("timestamp") for m in memories if m.get("timestamp")]] *)
Definition timestamps (memories : list Entry) : list string :=
  omap (fun m => truthy_str (timestamp m)) memories.

(** [min(l) if l else None] and [max(l) if l else None] for strings *)
Definition min_or_none (l : list string) : option string :=
  match l with
  | [] => None
  | x :: l' => Some (foldl (fun a b => if String.ltb b a then b else a) x l')
  end.

Definition max_or_none (l : list string) : option string :=
  match l with
  | [] => None
  | x :: l' => Some (foldl (fun a b => if String.ltb a b then b else a) x l')
  end.

(** [sorted(counts.items(), key=lambda x: x[1], reverse=True)[:k]] *)
Definition top (k : nat) (counts : list (string * nat)) : list (string * nat) :=
  Py.first_slice k (Py.sorted (fun x y => (y.2 <=? x.2)%nat) counts).

(** [sum(m.get("word_count", 0) for m in memories)] *)
Definition sum_word_counts (memories : list Entry) : Z :=
  foldl (fun acc m => (acc + default 0 (word_count m))%Z) 0%Z memories.

(** The dictionary [stats] of [get_memory_stats]. *)
Definition statistics (memories : list Entry) : MemoryStats :=
  let total_entries := length memories in
  let agent_counts := agent_counts memories in
  let tag_counts := tag_counts memories in
  {| total_entries := total_entries;
     total_words := sum_word_counts memories;
     agent_activity := agent_counts;
     top_agents := top 5 agent_counts;
     tag_usage := tag_counts;
     top_tags := top 10 tag_counts;
     priority_distribution := priority_counts memories;
     date_range :=
       (min_or_none (timestamps memories), max_or_none (timestamps memories));
     max_entries := MAX_ENTRIES;
     entries_until_rotation :=
       if (total_entries <? MAX_ENTRIES)%nat then MAX_ENTRIES - total_entries
       else 0 |}.

(** ** Vocabulary of the further properties *)

(** A path that [BACKUP_DIR.glob("memory_backup_*.json")] yields. *)
Definition is_backup (p : Path) : Prop :=
  p.1 = BACKUP_DIR ∧ fnmatch_backup p.2.

(** The file [create_backup] writes. *)
Definition backup_file (env : Env) : Path :=
  (BACKUP_DIR, "memory_backup_" +:+ strftime env +:+ ".json").

(** The files after the given ones are unlinked. *)
Definition unlinked (l : list Path) (f : gmap Path string) : gmap Path string :=
  foldl (fun f p => delete p f) f l.

(** The number of entries whose key, read by [key], is [k]. *)
Definition occurrences {A} (key : A -> string) (k : string) (l : list A) : nat :=
  length (filter (fun x => key x = k) l).

(** [counts.get(key, 0)] *)
Fixpoint get_count (key : string) (counts : list (string * nat)) : nat :=
  match counts with
  | [] => 0
  | (k, n) :: rest => if String.eqb k key then n else get_count key rest
  end.

(** The sum of the counts of a dictionary of counts. *)
Definition sum_counts (counts : list (string * nat)) : nat :=
  foldr (fun kv acc => kv.2 + acc) 0 counts.

(** [tops] are the [k] leading items of [counts] by their counts: there
    are [k] of them, or all the items when there are fewer; their counts
    descend; the items of one count stand among them as they stand in
    [counts], from the first on; and no item left out has a count above the
    count of an item listed. *)
Definition leading (k : nat) (counts tops : list (string * nat)) : Prop :=
  length tops = Nat.min k (length counts)
  ∧ StronglySorted (fun x y => y.2 ≤ x.2) tops
  ∧ (∀ n, filter (fun y => y.2 = n) tops
          `prefix_of` filter (fun y => y.2 = n) counts)
  ∧ ∃ rest,
      counts ≡ₚ tops ++ rest
      ∧ ∀ x y, x ∈ tops → y ∈ rest → y.2 ≤ x.2.

(** The double quote. *)
Definition quotation_mark : string := String "034"%char EmptyString.

(** ** Tools *)

Section Tools.
Context `{Library}.


Definition search_memory (env : Env) (params : SearchMemoryInput)
    : M SearchResponse :=
  try_except
    (memories ← load_memories env;
     let results :=
       search_memories memories (search_query params)
         (search_case_sensitive params) in
     let results :=
       match search_limit params with
       | Some limit =>
           if negb (limit =? 0)%nat && (limit <? length results)%nat
           then Py.first_slice limit results
           else results
       | None => results
       end in
     let r :=
       match search_response_format params with
       | MARKDOWN =>
           let result := format_memories_as_markdown results in
           match results with
           | [] => SearchText result
           | _ =>
               SearchText
                 ("# Search Results for: " +:+ quotation_mark
                  +:+ search_query params +:+ quotation_mark
                  +:+ Py.nl +:+ Py.nl +:+ result)
           end
       | JSON => SearchResults (search_query params) (length results) results
       end in
     logger INFO "Memory search completed";;
     mret r)
    (fun e =>
       logger ERROR "Failed to search memory";;
       mret (SearchFailed e)).

(** The [search_memory] tool as a caller reaches it. *)
Definition call_search_memory (env : Env) (a : SearchMemoryArguments)
    : M SearchResult :=
  match SearchMemoryInput_validate a with
  | inl errors => mret (SearchRejected errors)
  | inr params => r ← search_memory env params; mret (SearchReturned r)
  end.

(** [get_memory_stats] with the response format [JSON], its default; the
    markdown rendering prints the floating-point numbers. *)
Definition get_memory_stats (env : Env) : M StatsResponse :=
  try_except
    (memories ← load_memories env;
     match memories with
     | [] => mret NoEntries
     | _ =>
         let stats := statistics memories in
         logger INFO "Retrieved memory statistics";;
         mret (Stats stats)
     end)
    (fun e =>
       logger ERROR "Failed to get memory statistics";;
       mret (StatsFailed e)).

(** [clear_memory].  The tool calls [create_backup] itself before
    [save_memories] does: [backup_env] gives the stamp and the fault of that
    first call.  The time of [cleared_at] is [now env 7]. *)
Definition clear_memory (env backup_env : Env) (confirm : bool)
    : M ClearResponse :=
  try_except
    (if negb confirm then mret ConfirmationRequired
     else
       memories ← load_memories env;
       let count := length memories in
       create_backup backup_env;;
       save_memories env [];;
       logger INFO "Memory cleared";;
       mret (Cleared count (now env 7)))
    (fun e =>
       logger ERROR "Failed to clear memory";;
       mret (ClearFailed e)).

(** [try: a = m except Exception as e: ...] where both branches record
    their outcome. *)
Definition attempt {A} (m : M A) : M (Result A) :=
  try_except (a ← m; mret (Ok a)) (fun e => mret (Raise e)).

Definition succeeded {A} (r : Result A) : bool :=
  match r with
  | Ok _ => true
  | Raise _ => false
  end.

(** [health_check].  [health_lock] is what the [file_lock] of the second
    check meets; the time of the report is [now env 8].  The size of the
    file in bytes is left out of the first check. *)
Definition health_check (env : Env) (health_lock : LockOutcome)
    : M HealthResponse :=
  try_except
    (let ts := now env 8 in
     storage_file ←
       attempt
         (ensure_storage_structure env;;
          f ← get_fs;
          mret (bool_decide (f !! MEMORY_FILE ≠ None)));
     file_locking ← attempt (file_lock health_lock MEMORY_FILE (mret ()));
     json_parsing ←
       attempt (memories ← load_memories env; mret (length memories));
     f ← get_fs;
     let backups :=
       filter (fun p : Path => p.1 = BACKUP_DIR ∧ fnmatch_backup p.2)
         (map_to_list f).*1 in
     let success :=
       succeeded storage_file && succeeded file_locking
       && succeeded json_parsing in
     let msg :=
       if success then "All systems operational"
       else "Some checks failed - see details" in
     logger INFO "Health check completed";;
     mret (Health
             (mkHealth success ts storage_file file_locking json_parsing
                (length backups) msg)))
    (fun e =>
       logger ERROR "Health check failed";;
       mret (HealthFailed e)).

End Tools.


(** ** Calls that meet a fault *)

Module Faulty.
Import Sample.

(** Calls during which the lock times out, or fails in another way. *)
Definition timed_out : Env :=
  mkEnv TimedOut TimedOut None None false (now env) (strftime env) (uuid4 env).

Definition lock_failed : Env :=
  mkEnv LockFailed LockFailed None None false (now env) (strftime env)
    (uuid4 env).

(** A call during which the write that creates the memory file fails. *)
Definition init_failing : Env :=
  mkEnv Acquired Acquired (Some FailFsync) None false (now env) (strftime env)
    (uuid4 env).

(** A call during which the write of [save_memories] fails after three
    characters. *)
Definition write_failing : Env :=
  mkEnv Acquired Acquired None (Some (FailWrite 3)) false (now env)
    (strftime env) (uuid4 env).

(** A call one second later. *)
Definition later : Env :=
  mkEnv Acquired Acquired None None false (now env) "20250101_000001"
    (uuid4 env).

(** An entry as [add_memory] writes it. *)
Definition written (k : nat) (agent text : string) (tgs : list string)
    (prio : string) : Entry :=
  mkEntry (Some (numbered_id k)) (Some "2025-01-01T00:00:00+00:00") (Some agent)
    (Some text) (Some (count_words text)) (Some tgs) (Some prio) (Some [])
    (Some None).

(** Three entries of two agents. *)
Definition talk : list Entry :=
  [written 0 "AlphaBot" "This is a TEST message" ["important"] "high";
   written 1 "BetaBot" "Another message" [] "low";
   written 2 "AlphaBot" "test again" [] "medium"].

End Faulty.
(** * Properties *)

(** ** The built-ins on small inputs *)

Example split_words : Py.split "hello world" = ["hello"; "world"].
Proof. reflexivity. Qed.

Example split_runs : Py.split "  hello    world " = ["hello"; "world"].
Proof. reflexivity. Qed.

Example split_lines :
  Py.split ("hello" +:+ Py.nl +:+ "world" +:+ Py.nl +:+ "test")
  = ["hello"; "world"; "test"].
Proof. reflexivity. Qed.

Example split_empty : Py.split EmptyString = [].
Proof. reflexivity. Qed.

Example count_words_two : count_words "hello world" = 2%Z.
Proof. reflexivity. Qed.

Example strip_both : Py.strip "  a b  " = "a b".
Proof. reflexivity. Qed.

Example lower_mixed : Py.lower "This is a TEST" = "this is a test".
Proof. reflexivity. Qed.

Example last_slice_some : Py.last_slice 2 [1; 2; 3] = [2; 3].
Proof. reflexivity. Qed.

Example last_slice_zero : Py.last_slice 0 [1; 2; 3] = [1; 2; 3].
Proof. reflexivity. Qed.

Example all_but_last_some : Py.all_but_last 2 [1; 2; 3] = [1].
Proof. reflexivity. Qed.

Example all_but_last_zero : Py.all_but_last 0 [1; 2; 3] = [].
Proof. reflexivity. Qed.

Example sorted_is_stable :
  Py.sorted_by_key fst [(1, "a"); (0, "b"); (1, "c"); (0, "d")]
  = [(0, "b"); (0, "d"); (1, "a"); (1, "c")].
Proof. reflexivity. Qed.

(** ** Python's stable sort *)

Section SortedFacts.
Context {A : Type} (key : A -> nat).

Lemma insert_sorted_perm (x : A) (l : list A) :
  Py.insert_sorted (fun a b => (key a <=? key b)%nat) x l ≡ₚ x :: l.
Proof.
  induction l as [|y l IH]; simpl; [done|].
  destruct (key x <=? key y)%nat; [done|].
  rewrite IH. apply Permutation_swap.
Qed.

Lemma insert_sorted_filter (r : nat) (x : A) (l : list A) :
  filter (fun a => key a = r) (Py.insert_sorted (fun a b => (key a <=? key b)%nat) x l)
  = filter (fun a => key a = r) (x :: l).
Proof.
  induction l as [|y l IH]; simpl; [done|].
  destruct (key x <=? key y)%nat eqn:Hle; [done|].
  apply Nat.leb_gt in Hle.
  rewrite !filter_cons in *.
  destruct (decide (key y = r)) as [Hy|Hy].
  - destruct (decide (key x = r)) as [Hx|Hx]; [lia|].
    by rewrite IH.
  - by rewrite IH.
Qed.

Lemma insert_sorted_strongly (x : A) (l : list A) :
  StronglySorted (fun a b => key a ≤ key b) l ->
  StronglySorted (fun a b => key a ≤ key b)
    (Py.insert_sorted (fun a b => (key a <=? key b)%nat) x l).
Proof.
  induction 1 as [|y l Hs IH Hall]; simpl.
  - repeat constructor.
  - destruct (key x <=? key y)%nat eqn:Hle.
    + apply Nat.leb_le in Hle. constructor; [by constructor|].
      constructor; [done|].
      eapply Forall_impl; [exact Hall|]. simpl. intros; lia.
    + apply Nat.leb_gt in Hle. constructor; [done|].
      rewrite insert_sorted_perm. constructor; [lia|done].
Qed.

Lemma sorted_by_key_perm (l : list A) : Py.sorted_by_key key l ≡ₚ l.
Proof.
  induction l as [|x l IH]; [done|].
  unfold Py.sorted_by_key, Py.sorted in *. simpl.
  by rewrite insert_sorted_perm, IH.
Qed.

Lemma sorted_by_key_strongly (l : list A) :
  StronglySorted (fun a b => key a ≤ key b) (Py.sorted_by_key key l).
Proof.
  induction l as [|x l IH]; [constructor|].
  by apply insert_sorted_strongly.
Qed.

(** Stability: the elements of each key keep the order they came in. *)
Lemma sorted_by_key_stable (r : nat) (l : list A) :
  filter (fun a => key a = r) (Py.sorted_by_key key l)
  = filter (fun a => key a = r) l.
Proof.
  induction l as [|x l IH]; [done|].
  unfold Py.sorted_by_key, Py.sorted in *. simpl.
  rewrite insert_sorted_filter, !filter_cons.
  by rewrite IH.
Qed.

Lemma filter_key_below (r : nat) (l : list A) :
  Forall (fun a => r < key a) l -> filter (fun a => key a = r) l = [].
Proof.
  induction 1 as [|y l Hy _ IH]; [done|].
  rewrite filter_cons. destruct (decide (key y = r)); [lia|done].
Qed.

(** A list sorted on a key below 3 is its three groups one after another. *)
Lemma strongly_sorted_groups (l : list A) :
  Forall (fun a => key a < 3) l ->
  StronglySorted (fun a b => key a ≤ key b) l ->
  l = filter (fun a => key a = 0) l ++ filter (fun a => key a = 1) l
      ++ filter (fun a => key a = 2) l.
Proof.
  intros Hb Hs. induction Hs as [|y l Hs IH Hall]; [done|].
  inversion_clear Hb as [|? ? Hy Hl].
  specialize (IH Hl). rewrite !filter_cons.
  destruct (decide (key y = 0)) as [H0|H0].
  - destruct (decide (key y = 1)); [lia|].
    destruct (decide (key y = 2)); [lia|].
    simpl. by rewrite <- IH.
  - assert (filter (fun a => key a = 0) l = []) as E0.
    { apply filter_key_below. eapply Forall_impl; [exact Hall|].
      simpl. intros; lia. }
    destruct (decide (key y = 1)) as [H1|H1].
    + destruct (decide (key y = 2)); [lia|].
      rewrite E0 in *. simpl in *. by rewrite <- IH.
    + assert (filter (fun a => key a = 1) l = []) as E1.
      { apply filter_key_below. eapply Forall_impl; [exact Hall|].
        simpl. intros; lia. }
      destruct (decide (key y = 2)); [|lia].
      rewrite E0, E1 in *. simpl in *. by rewrite <- IH.
Qed.

End SortedFacts.

(** ** sort_memories *)

Lemma priority_order_lookup (k : string) :
  priority_order !! k =
  if decide (k = "high") then Some 0
  else if decide (k = "medium") then Some 1
  else if decide (k = "low") then Some 2
  else None.
Proof.
  unfold priority_order.
  repeat (rewrite lookup_insert; case_decide; subst;
          [repeat case_decide; congruence|]).
  rewrite lookup_singleton. repeat case_decide; congruence.
Qed.

Lemma priority_key_bound (m : Entry) : priority_key m < 3.
Proof.
  unfold priority_key. rewrite priority_order_lookup.
  repeat case_decide; simpl; lia.
Qed.

(** The priority order is the high entries, then the medium ones, then the
    low ones, each group in the order it was stored. *)
Lemma sort_priority_groups (memories : list Entry) :
  sort_memories memories PRIORITY
  = filter (fun m => priority_key m = 0) memories
    ++ filter (fun m => priority_key m = 1) memories
    ++ filter (fun m => priority_key m = 2) memories.
Proof.
  simpl.
  rewrite <- !(sorted_by_key_stable priority_key _ memories).
  apply strongly_sorted_groups.
  - apply Forall_forall. intros; apply priority_key_bound.
  - apply sorted_by_key_strongly.
Qed.

(** C6: chronological order returns the list as it is, reverse order returns
    its reversal, and priority order is a stable sort on the rank high 0,
    medium 1, low 2: a permutation of the list, ascending in rank, in which
    the entries of each rank keep their relative order. *)
Theorem sort_memories_orders (memories : list Entry) :
  sort_memories memories CHRONOLOGICAL = memories
  ∧ sort_memories memories REVERSE = List.rev memories
  ∧ sort_memories memories PRIORITY ≡ₚ memories
  ∧ StronglySorted (fun a b => priority_key a ≤ priority_key b)
      (sort_memories memories PRIORITY)
  ∧ (∀ r, filter (fun m => priority_key m = r) (sort_memories memories PRIORITY)
          = filter (fun m => priority_key m = r) memories)
  ∧ (∀ m, priority_key (set_priority "high" m) = 0
          ∧ priority_key (set_priority "medium" m) = 1
          ∧ priority_key (set_priority "low" m) = 2).
Proof.
  split; [done|]. split; [simpl; unfold reverse; symmetry; apply rev_alt|].
  split; [apply sorted_by_key_perm|].
  split; [apply sorted_by_key_strongly|].
  split; [intros r; apply sorted_by_key_stable|].
  intros m. by vm_compute.
Qed.

(** The test of the specification: priorities low, high, medium. *)
Example sort_priority_example :
  sort_memories
    [with_priority "1" "low"; with_priority "2" "high";
     with_priority "3" "medium"] PRIORITY
  = [with_priority "2" "high"; with_priority "3" "medium";
     with_priority "1" "low"].
Proof. vm_compute. reflexivity. Qed.

Example sort_reverse_example :
  sort_memories
    [with_priority "1" "low"; with_priority "2" "high";
     with_priority "3" "medium"] REVERSE
  = [with_priority "3" "medium"; with_priority "2" "high";
     with_priority "1" "low"].
Proof. reflexivity. Qed.

(** C10: an entry whose priority is absent, or is none of low, medium and
    high, has the medium rank 1; in priority order it stands in the medium
    group, after every high entry and before every low one, in its stored
    order among the entries of rank 1. *)
Theorem unknown_priority_sorts_as_medium (m : Entry) (memories : list Entry) :
  (priority m = None
   ∨ ∃ s, priority m = Some s ∧ s ≠ "low" ∧ s ≠ "medium" ∧ s ≠ "high") →
  priority_key m = 1
  ∧ (m ∈ memories →
     m ∈ filter (fun e => priority_key e = 1) memories
     ∧ sort_memories memories PRIORITY
       = filter (fun e => priority_key e = 0) memories
         ++ filter (fun e => priority_key e = 1) memories
         ++ filter (fun e => priority_key e = 2) memories).
Proof.
  intros Hp.
  assert (priority_key m = 1) as Hk.
  { unfold priority_key. rewrite priority_order_lookup.
    destruct Hp as [->|(s & -> & Hl & Hm & Hh)]; simpl; [done|].
    repeat case_decide; simpl; congruence. }
  split; [done|]. intros Hin. split.
  - by apply list_elem_of_filter.
  - apply sort_priority_groups.
Qed.

Lemma unknown_priority_sorts_as_medium_witness :
  sort_memories
    [with_priority "1" "low"; with_priority "2" "urgent";
     with_priority "3" "medium"; with_priority "4" "high"] PRIORITY
  = [with_priority "4" "high"; with_priority "2" "urgent";
     with_priority "3" "medium"; with_priority "1" "low"].
Proof.
  pose proof (unknown_priority_sorts_as_medium (with_priority "2" "urgent")
    [with_priority "1" "low"; with_priority "2" "urgent";
     with_priority "3" "medium"; with_priority "4" "high"]) as H.
  destruct H as [_ H].
  - right. exists "urgent". repeat split; discriminate.
  - destruct H as [_ ->].
    + set_solver.
    + vm_compute. reflexivity.
Defined.

(** ** search_memories *)

Lemma append_cons (c : ascii) (p b : string) :
  String c p +:+ b = String c (p +:+ b).
Proof. reflexivity. Qed.

Lemma append_nil (b : string) : EmptyString +:+ b = b.
Proof. reflexivity. Qed.

Lemma prefix_spec (p s : string) :
  String.prefix p s = true ↔ ∃ b, s = p +:+ b.
Proof.
  revert s. induction p as [|c p IH]; intros s; simpl.
  - split; [|by destruct s]. intros _. by exists s.
  - destruct s as [|d s]; simpl.
    + split; [done|]. intros [b E]. by rewrite append_cons in E.
    + destruct (Ascii.ascii_dec c d) as [->|Hne].
      * rewrite IH.
        split; intros [b E]; exists b; rewrite append_cons in *; congruence.
      * split; [done|]. intros [b E]. rewrite append_cons in E. congruence.
Qed.

Lemma contains_nil (p : string) :
  Py.contains p EmptyString = String.prefix p EmptyString.
Proof. simpl. apply orb_false_r. Qed.

Lemma contains_cons (p : string) (d : ascii) (s : string) :
  Py.contains p (String d s) = String.prefix p (String d s) || Py.contains p s.
Proof. reflexivity. Qed.

Lemma contains_spec (p s : string) :
  Py.contains p s = true ↔ substring_of p s.
Proof.
  induction s as [|d s IH].
  - rewrite contains_nil, prefix_spec. split.
    + intros [b E]. by exists EmptyString, b.
    + intros ([|??] & b & E).
      * rewrite append_nil in E. by exists b.
      * by rewrite append_cons in E.
  - rewrite contains_cons, orb_true_iff, prefix_spec, IH. split.
    + intros [[b E]|(a & b & E)].
      * by exists EmptyString, b.
      * exists (String d a), b. rewrite append_cons. by rewrite E.
    + intros ([|c a] & b & E).
      * left. rewrite append_nil in E. by exists b.
      * right. rewrite append_cons in E. exists a, b. congruence.
Qed.

Lemma spec_matches_substring (query : string) (cs : bool) (entry : Entry) :
  spec_matches query cs entry = true ↔
  substring_of (folded cs query) (folded cs (default EmptyString (content entry)))
  ∨ substring_of (folded cs query) (folded cs (default EmptyString (agent_name entry)))
  ∨ ∃ tag, tag ∈ default [] (tags entry)
           ∧ substring_of (folded cs query) (folded cs tag).
Proof.
  unfold spec_matches. rewrite !orb_true_iff, !contains_spec, existsb_exists.
  setoid_rewrite contains_spec. setoid_rewrite list_elem_of_In. tauto.
Qed.

Lemma existsb_fmap {A B} (f : B -> bool) (g : A -> B) (l : list A) :
  existsb f (g <$> l) = existsb (fun x => f (g x)) l.
Proof. induction l as [|x l IH]; csimpl; [done|]. by rewrite IH. Qed.

Lemma search_step_matches (query : string) (cs : bool)
    (results : list Entry) (entry : Entry) :
  search_step (folded cs query) cs results entry
  = results ++ (if spec_matches query cs entry then [entry] else []).
Proof.
  unfold search_step, spec_matches, folded.
  destruct cs; simpl.
  - repeat (match goal with |- context [Py.contains ?p ?s] =>
              destruct (Py.contains p s); simpl; [done|] end).
    destruct (existsb _ _); simpl; [done|]. by rewrite app_nil_r.
  - repeat (match goal with |- context [Py.contains ?p ?s] =>
              destruct (Py.contains p s); simpl; [done|] end).
    rewrite existsb_fmap.
    destruct (existsb _ _); simpl; [done|]. by rewrite app_nil_r.
Qed.

Lemma search_loop_filter (query : string) (cs : bool)
    (results memories : list Entry) :
  foldl (search_step (folded cs query) cs) results memories
  = results ++ filter (fun e => spec_matches query cs e) memories.
Proof.
  revert results. induction memories as [|e l IH]; intros results; simpl.
  - by rewrite app_nil_r.
  - rewrite IH, search_step_matches, filter_cons.
    destruct (spec_matches query cs e); simpl.
    + by rewrite <- app_assoc.
    + by rewrite app_nil_r.
Qed.

(** C7: the empty query returns the entries as they are; any other query
    returns, in their stored order and once each, the entries in which the
    query, folded to lower case unless the search is case-sensitive, occurs
    in the content, in the author or in a tag. *)
Theorem search_memories_matching (memories : list Entry) (query : string)
    (case_sensitive : bool) :
  (query = EmptyString →
   search_memories memories query case_sensitive = memories)
  ∧ (query ≠ EmptyString →
     search_memories memories query case_sensitive
     = filter (fun e => spec_matches query case_sensitive e) memories
     ∧ sublist (search_memories memories query case_sensitive) memories)
  ∧ (∀ entry,
       spec_matches query case_sensitive entry = true ↔
       substring_of (folded case_sensitive query)
         (folded case_sensitive (default EmptyString (content entry)))
       ∨ substring_of (folded case_sensitive query)
           (folded case_sensitive (default EmptyString (agent_name entry)))
       ∨ ∃ tag, tag ∈ default [] (tags entry)
                ∧ substring_of (folded case_sensitive query)
                    (folded case_sensitive tag)).
Proof.
  split; [|split].
  - intros ->. reflexivity.
  - intros Hq. unfold search_memories. rewrite decide_False by done.
    pose proof (search_loop_filter query case_sensitive [] memories) as E.
    unfold folded in E at 1. rewrite E. simpl.
    split; [done|]. apply sublist_filter.
  - intros entry. apply spec_matches_substring.
Qed.

Lemma search_memories_matching_witness :
  search_memories [sample_message; sample_other; sample_followup] EmptyString false
  = [sample_message; sample_other; sample_followup]
  ∧ search_memories [sample_message; sample_other; sample_followup] "test" false
    = [sample_message; sample_followup].
Proof.
  pose proof (search_memories_matching
    [sample_message; sample_other; sample_followup]) as H.
  split.
  - destruct (H EmptyString false) as (H1 & _). apply H1. reflexivity.
  - destruct (H "test" false) as (_ & H2 & _).
    destruct H2 as [-> _]; [discriminate|].
    vm_compute. reflexivity.
Defined.

(** The searches of the specification's test list. *)
Example search_case_insensitive :
  search_memories [sample_message] "test" false = [sample_message].
Proof. vm_compute. reflexivity. Qed.

Example search_case_sensitive_lower :
  search_memories [sample_message] "test" true = [].
Proof. vm_compute. reflexivity. Qed.

Example search_case_sensitive_upper :
  search_memories [sample_message] "TEST" true = [sample_message].
Proof. vm_compute. reflexivity. Qed.

Example search_in_tags :
  search_memories [sample_message; sample_other; sample_followup] "analysis" false
  = [sample_message; sample_followup].
Proof. vm_compute. reflexivity. Qed.

(** ** atomic_write *)

Lemma length_append (a b : string) :
  String.length (a +:+ b) = String.length a + String.length b.
Proof.
  induction a as [|c a IH]; [done|].
  rewrite append_cons. simpl. by rewrite IH.
Qed.

Lemma temp_path_fresh (file_path : Path) : temp_path file_path ≠ file_path.
Proof.
  destruct file_path as [d n]. unfold temp_path. simpl. intros E.
  injection E as E. apply (f_equal String.length) in E.
  rewrite !length_append in E. simpl in E. lia.
Qed.

(** Unfolds the [except] clause and settles the lookups at the target and
    at the temporary path. *)
Ltac settle_clean_up :=
  unfold clean_up; repeat case_decide; simpl;
  repeat match goal with
  | H : <[?k := _]> _ !! ?k = None |- _ =>
      rewrite lookup_insert_eq in H; discriminate H
  end;
  rewrite ?lookup_delete_eq, ?lookup_insert_eq;
  repeat first
    [ rewrite lookup_delete_ne by done
    | rewrite lookup_insert_ne by done ].

Lemma atomic_write_succeeds (file_path : Path) (content : string) (w : World) :
  ∃ w', atomic_write None file_path content w = (Ok (), w')
        ∧ fs w' !! file_path = Some content
        ∧ fs w' !! temp_path file_path = None.
Proof.
  pose proof (temp_path_fresh file_path) as Hne.
  unfold atomic_write. simpl. eexists. split; [done|]. simpl.
  split; [apply lookup_insert_eq|].
  rewrite lookup_insert_ne by (by apply not_eq_sym). apply lookup_delete_eq.
Qed.

(** C9: when [atomic_write] fails before the rename, whichever statement
    raises, the temporary file is gone at the end and the target holds what
    it held before; and in no state the call goes through, failing or not,
    does the target hold anything but its old content or the whole new
    content. *)
Theorem atomic_write_all_or_nothing (file_path : Path) (content : string)
    (w : World) :
  (∀ fault : WriteFault,
     ∃ w', atomic_write (Some fault) file_path content w = (Raise OSError, w')
           ∧ fs w' !! temp_path file_path = None
           ∧ fs w' !! file_path = fs w !! file_path
           ∧ Forall (fun f => f !! file_path = fs w !! file_path)
               (atomic_write_run (Some fault) file_path content (fs w)).1)
  ∧ (∀ fault : option WriteFault,
       Forall (fun f => f !! file_path = fs w !! file_path
                        ∨ f !! file_path = Some content)
         (atomic_write_run fault file_path content (fs w)).1)
  ∧ (∃ w', atomic_write None file_path content w = (Ok (), w')
           ∧ fs w' !! file_path = Some content
           ∧ fs w' !! temp_path file_path = None).
Proof.
  pose proof (temp_path_fresh file_path) as Hne.
  assert (file_path ≠ temp_path file_path) as Hne' by (by apply not_eq_sym).
  split; [|split].
  - intros fault. unfold atomic_write.
    destruct fault; simpl; eexists; (split; [reflexivity|]); simpl.
    all: settle_clean_up; repeat split; try done.
    all: repeat (apply Forall_cons; split); try apply Forall_nil_2.
    all: settle_clean_up; done.
  - intros [fault|]; [destruct fault|]; simpl.
    all: settle_clean_up.
    all: repeat (apply Forall_cons; split); try apply Forall_nil_2.
    all: settle_clean_up; auto.
  - apply atomic_write_succeeds.
Qed.

(** ** count_words and the stripping of white space *)

Lemma is_white_space_isspace (c : ascii) :
  Py.is_white_space c = true → Py.isspace c = true.
Proof.
  unfold Py.is_white_space, Py.isspace. generalize (Py.code c). intros n.
  rewrite !orb_true_iff, !andb_true_iff, !N.leb_le, !N.eqb_eq. lia.
Qed.

Lemma split_cons (c : ascii) (s : string) :
  Py.split (String c s)
  = if Py.isspace c then Py.split s
    else if Py.starts_word s then
      match Py.split s with
      | w :: ws => String c w :: ws
      | [] => [String c EmptyString]
      end
    else String c EmptyString :: Py.split s.
Proof. reflexivity. Qed.

Section Strip.
Context (sp : ascii -> bool) (Hsp : ∀ c, sp c = true → Py.isspace c = true).

Lemma split_lstrip (s : string) : Py.split (Py.lstrip_with sp s) = Py.split s.
Proof.
  induction s as [|c s IH]; [done|]. simpl Py.lstrip_with.
  destruct (sp c) eqn:E; [|done].
  rewrite IH, split_cons. by rewrite (Hsp c E).
Qed.

Lemma rstrip_head (s : string) :
  Py.rstrip_with sp s = EmptyString
  ∨ ∃ d s' r, s = String d s' ∧ Py.rstrip_with sp s = String d r.
Proof.
  destruct s as [|d s]; [by left|]. simpl.
  destruct (Py.rstrip_with sp s) as [|e r] eqn:E.
  - destruct (sp d); [by left|right; by eexists _, _, _].
  - right. by eexists _, _, _.
Qed.

Lemma split_rstrip (s : string) : Py.split (Py.rstrip_with sp s) = Py.split s.
Proof.
  induction s as [|c s IH]; [done|]. simpl Py.rstrip_with.
  destruct (rstrip_head s) as [E|(d & s' & r & -> & E)].
  - rewrite E in *. simpl in IH.
    destruct (sp c) eqn:Ec.
    + rewrite split_cons, (Hsp c Ec). done.
    + rewrite !split_cons. rewrite <- IH. simpl.
      destruct (Py.isspace c); [done|]. by destruct (Py.starts_word _).
  - rewrite E in *. rewrite (split_cons c (String d r)), (split_cons c (String d s')).
    by rewrite IH.
Qed.

Lemma split_strip (s : string) : Py.split (Py.strip_with sp s) = Py.split s.
Proof. unfold Py.strip_with. by rewrite split_rstrip, split_lstrip. Qed.

End Strip.

Lemma count_words_strip_whitespace (s : string) :
  count_words (str_strip_whitespace s) = count_words s.
Proof.
  unfold count_words, str_strip_whitespace.
  by rewrite (split_strip _ is_white_space_isspace).
Qed.

(** ** Reasoning about [M] *)

Lemma bind_ok {A B} (m : M A) (f : A -> M B) (w w1 : World) (a : A) :
  m w = (Ok a, w1) → (m ≫= f) w = f a w1.
Proof. intros E. unfold mbind, M_bind. by rewrite E. Qed.

Lemma bind_raise {A B} (m : M A) (f : A -> M B) (w w1 : World) (e : Exn) :
  m w = (Raise e, w1) → (m ≫= f) w = (Raise e, w1).
Proof. intros E. unfold mbind, M_bind. by rewrite E. Qed.

Lemma try_ok {A} (m : M A) (h : Exn -> M A) (w w1 : World) (a : A) :
  m w = (Ok a, w1) → try_except m h w = (Ok a, w1).
Proof. intros E. unfold try_except. by rewrite E. Qed.

Lemma try_raise {A} (m : M A) (h : Exn -> M A) (w w1 : World) (e : Exn) :
  m w = (Raise e, w1) → try_except m h w = h e w1.
Proof. intros E. unfold try_except. by rewrite E. Qed.

Lemma returns_ret {A} (a : A) : returns (mret a : M A).
Proof. intros w. by exists a, w. Qed.

Lemma returns_bind {A B} (m : M A) (f : A -> M B) :
  returns m → (∀ a, returns (f a)) → returns (m ≫= f).
Proof.
  intros Hm Hf w. destruct (Hm w) as (a & w1 & E).
  rewrite (bind_ok _ _ _ _ _ E). apply Hf.
Qed.

Lemma returns_try {A} (m : M A) (h : Exn -> M A) :
  (∀ e, returns (h e)) → returns (try_except m h).
Proof.
  intros Hh w. unfold try_except.
  destruct (m w) as [[a|e] w1]; [by exists a, w1|apply Hh].
Qed.

Lemma returns_logger (lv : Level) (msg : string) : returns (logger lv msg).
Proof. intros w. by eexists _, _. Qed.

Lemma returns_get_fs : returns get_fs.
Proof. intros w. by eexists _, _. Qed.

Lemma returns_put_fs (f : gmap Path string) : returns (put_fs f).
Proof. intros w. by eexists _, _. Qed.

(** Unfolds the combinators of [M] and reduces. *)
Ltac run :=
  cbv beta iota zeta delta
    [mbind M_bind mret M_ret try_except raise logger get_fs put_fs read_text
     touch unlink];
  cbn [fs log].

Ltac prove_returns :=
  repeat first
    [ apply returns_ret | apply returns_logger | apply returns_get_fs
    | apply returns_put_fs
    | apply returns_try; intros ?
    | apply returns_bind; [|intros ?]
    | progress (simpl; case_match) ].

Section StorageFacts.
Context `{Library}.

Lemma returns_create_backup (env : Env) : returns (create_backup env).
Proof.
  unfold create_backup. apply returns_bind; [apply returns_get_fs|].
  intros f. repeat case_match; prove_returns.
Qed.

Lemma ensure_existing (env : Env) (w : World) :
  fs w !! MEMORY_FILE ≠ None → ensure_storage_structure env w = (Ok (), w).
Proof.
  intros E. unfold ensure_storage_structure.
  rewrite (bind_ok _ _ w w (fs w)) by done.
  by rewrite decide_False.
Qed.

(** Without a fault [ensure_storage_structure] returns and the file is
    there afterwards. *)
Lemma ensure_ok (env : Env) (w : World) :
  init_fault env = None →
  ∃ w', ensure_storage_structure env w = (Ok (), w')
        ∧ fs w' !! MEMORY_FILE ≠ None.
Proof.
  intros Hf. destruct (decide (fs w !! MEMORY_FILE = None)) as [E|E].
  - unfold ensure_storage_structure.
    rewrite (bind_ok _ _ w w (fs w)) by done.
    rewrite decide_True by done. rewrite Hf.
    destruct (atomic_write_succeeds MEMORY_FILE
      (json_dumps_storage
         (mkStorage STORAGE_VERSION [] (Py.VStr (now env 0)) (now env 1))) w)
      as (w1 & E1 & E2 & _).
    rewrite (bind_ok _ _ _ _ _ E1).
    eexists. split; [reflexivity|]. simpl. by rewrite E2.
  - exists w. split; [by apply ensure_existing|done].
Qed.

(** What [save_memories] writes when no write fails. *)
Lemma save_memories_writes (env : Env) (memories : list Entry) (w : World) :
  init_fault env = None → write_fault env = None →
  ∃ w' created,
    save_memories env memories w = (Ok (), w')
    ∧ fs w' !! MEMORY_FILE
      = Some (json_dumps_storage
                (mkStorage STORAGE_VERSION (kept memories) created (now env 2))).
Proof.
  intros Hi Hw. unfold save_memories.
  destruct (ensure_ok env w Hi) as (w1 & E1 & _).
  rewrite (bind_ok _ _ _ _ _ E1).
  match goal with |- context [try_except (?r ≫= ?k) _] =>
    assert (∃ w2, r w1 = (Ok (kept memories), w2)) as (w2 & E2)
  end.
  { unfold kept. destruct (MAX_ENTRIES <? length memories)%nat; by eexists. }
  match goal with |- context [try_except (?r ≫= ?k) ?h] =>
    cut (∃ w' created, (r ≫= k) w1 = (Ok (), w')
           ∧ fs w' !! MEMORY_FILE
             = Some (json_dumps_storage
                 (mkStorage STORAGE_VERSION (kept memories) created (now env 2))));
    [intros (w' & created & E & Hfs); exists w', created;
     split; [by apply try_ok|done]|]
  end.
  rewrite (bind_ok _ _ _ _ _ E2).
  match goal with |- context [(?c ≫= ?k) w2] =>
    assert (returns c) as Hc by prove_returns;
    destruct (Hc w2) as (created & w3 & E3)
  end.
  rewrite (bind_ok _ _ _ _ _ E3).
  destruct (returns_create_backup env w3) as ([] & w4 & E4).
  rewrite (bind_ok _ _ _ _ _ E4). rewrite Hw.
  match goal with |- context [atomic_write None MEMORY_FILE ?c] =>
    destruct (atomic_write_succeeds MEMORY_FILE c w4) as (w5 & E5 & Hfs & _)
  end.
  rewrite (bind_ok _ _ _ _ _ E5).
  eexists _, _. split; [reflexivity|]. exact Hfs.
Qed.

(** What [save_memories] writes over an existing file. *)
Lemma save_memories_overwrites (env : Env) (memories : list Entry) (w : World)
    (content : string) :
  fs w !! MEMORY_FILE = Some content → write_fault env = None →
  ∃ w',
    save_memories env memories w = (Ok (), w')
    ∧ fs w' !! MEMORY_FILE
      = Some (json_dumps_storage
                (mkStorage STORAGE_VERSION (kept memories)
                   (preserved_created_at env content) (now env 2))).
Proof.
  intros Hc Hw. unfold save_memories.
  rewrite (bind_ok _ _ w w ()) by (apply ensure_existing; congruence).
  match goal with |- context [try_except (?r ≫= ?k) _] =>
    assert (∃ w2, r w = (Ok (kept memories), w2) ∧ fs w2 = fs w) as (w2 & E2 & F2)
  end.
  { unfold kept. destruct (MAX_ENTRIES <? length memories)%nat; by eexists. }
  match goal with |- context [try_except (?r ≫= ?k) ?h] =>
    cut (∃ w', (r ≫= k) w = (Ok (), w')
           ∧ fs w' !! MEMORY_FILE
             = Some (json_dumps_storage
                 (mkStorage STORAGE_VERSION (kept memories)
                    (preserved_created_at env content) (now env 2))));
    [intros (w' & E & Hfs); exists w'; split; [by apply try_ok|done]|]
  end.
  rewrite (bind_ok _ _ _ _ _ E2).
  rewrite <- F2 in Hc.
  match goal with |- context [(?m0 ≫= ?k) w2] =>
    assert (∃ w3 existing, m0 w2 = (Ok existing, w3)
            ∧ match existing with
              | Py.VNone => Py.VStr (now env 3)
              | other => other
              end = preserved_created_at env content) as (w3 & existing & E3 & Ec)
  end.
  { unfold preserved_created_at, file_lock, existing_created_at.
    destruct (save_lock env); run; rewrite ?Hc; run.
    2,3: by eexists _, _.
    rewrite decide_False by done. run. rewrite Hc. run.
    case_decide; run; [by eexists _, _|].
    destruct (json_loads content) as [[?|? [c|]|?]|]; run; by eexists _, _. }
  rewrite (bind_ok _ _ _ _ _ E3). rewrite Ec.
  destruct (returns_create_backup env w3) as ([] & w4 & E4).
  rewrite (bind_ok _ _ _ _ _ E4). rewrite Hw.
  match goal with |- context [atomic_write None MEMORY_FILE ?c] =>
    destruct (atomic_write_succeeds MEMORY_FILE c w4) as (w5 & E5 & Hfs & _)
  end.
  rewrite (bind_ok _ _ _ _ _ E5).
  eexists. split; [reflexivity|]. exact Hfs.
Qed.

Lemma last_slice_pos {A} (k : nat) (l : list A) :
  k ≠ 0 → Py.last_slice k l = drop (length l - k) l.
Proof. by destruct k. Qed.

Lemma kept_over (memories : list Entry) :
  MAX_ENTRIES < length memories →
  kept memories = drop (length memories - MAX_ENTRIES) memories.
Proof.
  intros Hn. unfold kept.
  destruct (Nat.ltb_spec MAX_ENTRIES (length memories)); [|lia].
  by apply last_slice_pos.
Qed.

Lemma kept_within (memories : list Entry) :
  length memories ≤ MAX_ENTRIES → kept memories = memories.
Proof.
  intros Hn. unfold kept.
  destruct (Nat.ltb_spec MAX_ENTRIES (length memories)); [lia|done].
Qed.

(** C2: [save_memories], when its writes succeed, persists a container
    whose entries are the list it was given if that has at most
    [MAX_ENTRIES] entries, and otherwise its last [MAX_ENTRIES] entries in
    their order, the oldest ones dropped. *)
Theorem save_memories_rotation (env : Env) (memories : list Entry) (w : World) :
  init_fault env = None → write_fault env = None →
  ∃ w' persisted created,
    save_memories env memories w = (Ok (), w')
    ∧ fs w' !! MEMORY_FILE
      = Some (json_dumps_storage
                (mkStorage STORAGE_VERSION persisted created (now env 2)))
    ∧ (MAX_ENTRIES < length memories →
       length persisted = MAX_ENTRIES
       ∧ persisted = drop (length memories - MAX_ENTRIES) memories
       ∧ memories
         = take (length memories - MAX_ENTRIES) memories ++ persisted)
    ∧ (length memories ≤ MAX_ENTRIES → persisted = memories).
Proof.
  intros Hi Hw.
  destruct (save_memories_writes env memories w Hi Hw) as (w' & created & E & Hfs).
  exists w', (kept memories), created. split; [done|]. split; [done|]. split.
  - intros Hn. rewrite (kept_over _ Hn).
    split; [rewrite length_drop; lia|]. split; [done|].
    by rewrite take_drop.
  - apply kept_within.
Qed.

(** ** load_memories *)

Lemma touch_existing (p : Path) (w : World) :
  fs w !! p ≠ None → touch p w = (Ok (), w).
Proof.
  intros E. unfold touch. rewrite (bind_ok _ _ w w (fs w)) by done.
  by rewrite decide_False.
Qed.

Lemma recover_scan_first_usable (l : list Path) (w : World) :
  ∃ w' extra,
    recover_scan l w = (Ok (first_usable (fs w) l), w')
    ∧ fs w' = fs w ∧ log w' = log w ++ extra.
Proof.
  revert w. induction l as [|p l IH]; intros w.
  - by eexists _, _.
  - simpl. unfold snapshot_entries. run.
    destruct (fs w !! p) as [c|] eqn:Ec; run.
    + destruct (json_loads c) as [[data|[es|] ?|ty]|] eqn:Ej; run.
      all: try (by eexists _, _).
      all: try apply IH.
      match goal with |- context [recover_scan l ?w0] =>
        destruct (IH w0) as (w' & extra & E & Hfs & Hlog) end.
      exists w'. eexists. split; [done|]. split; [done|].
      rewrite Hlog. simpl. by rewrite <- app_assoc.
    + match goal with |- context [recover_scan l ?w0] =>
        destruct (IH w0) as (w' & extra & E & Hfs & Hlog) end.
      exists w'. eexists. split; [done|]. split; [done|].
      rewrite Hlog. simpl. by rewrite <- app_assoc.
Qed.

Lemma recover_from_backup_first_usable (w : World) :
  ∃ w' extra,
    recover_from_backup w
    = (Ok (first_usable (fs w) (newest_first (fs w))), w')
    ∧ fs w' = fs w ∧ log w' = log w ++ extra.
Proof.
  unfold recover_from_backup, newest_first. run.
  destruct (sorted_backups (fs w)) as [|p l] eqn:E; run; [by eexists _, _|].
  destruct (recover_scan_first_usable (reverse (p :: l)) w)
    as (w' & extra & E' & Hfs & Hlog).
  rewrite E'. by exists w', extra.
Qed.

(** With the lock and an existing file, [load_memories] returns [loaded]
    and leaves the files as they are; it logs a warning for a blank file and
    an error for one that does not parse. *)
Lemma load_memories_acquired (env : Env) (w : World) (content : string) :
  load_lock env = Acquired → fs w !! MEMORY_FILE = Some content →
  ∃ w' extra,
    load_memories env w = (Ok (loaded (fs w) content), w')
    ∧ fs w' = fs w
    ∧ log w' = log w ++ mkLog DEBUG "File lock acquired" :: extra
    ∧ (Py.strip content = EmptyString →
       extra = [mkLog WARNING "Empty memory file detected, initializing"])
    ∧ (Py.strip content ≠ EmptyString → json_loads content = None →
       ∃ extra', extra = mkLog ERROR "Storage corruption detected" :: extra').
Proof.
  intros Hl Hc. unfold load_memories, ensure_storage_structure, file_lock.
  rewrite Hl. run. rewrite Hc. run.
  rewrite decide_False by done. run. rewrite Hc. run.
  rewrite decide_False by done. run. rewrite Hc. run.
  unfold loaded. case_decide; run.
  { eexists _, _. split; [reflexivity|]. split; [reflexivity|]. simpl.
    split; [rewrite <- app_assoc; reflexivity|]. by split. }
  destruct (json_loads content) as [[data|es ?|ty]|] eqn:Ej; run.
  1-3: eexists _, _; (split; [reflexivity|]); (split; [reflexivity|]); simpl.
  1-3: split; [rewrite <- ?app_assoc; simpl; first
         [ reflexivity | by rewrite app_nil_r ]|by split].
  match goal with |- context [recover_from_backup ?w0] =>
    destruct (recover_from_backup_first_usable w0)
      as (w' & extra & E' & Hfs & Hlog) end.
  rewrite E'. simpl in *.
  destruct (first_usable _ _); run.
  all: eexists _, _; (split; [done|]); simpl; (split; [done|]).
  all: rewrite Hlog, <- !app_assoc; simpl; (split; [done|]).
  all: split; [done|]; intros _ _; by eexists.
Qed.

Lemma first_usable_found (f : gmap Path string) (l : list Path)
    (es : list Entry) :
  first_usable f l = Some es →
  ∃ skipped p rest,
    l = skipped ++ p :: rest
    ∧ Forall (fun q => snapshot_entries f q = None) skipped
    ∧ snapshot_entries f p = Some es.
Proof.
  induction l as [|q l IH]; simpl; [done|].
  destruct (snapshot_entries f q) as [es'|] eqn:E.
  - intros [= ->]. by exists [], q, l.
  - intros (skipped & p & rest & -> & Hs & Hp)%IH.
    exists (q :: skipped), p, rest. split; [done|]. split; [|done].
    by constructor.
Qed.

Lemma first_usable_none (f : gmap Path string) (l : list Path) :
  first_usable f l = None →
  Forall (fun q => snapshot_entries f q = None) l.
Proof.
  induction l as [|q l IH]; simpl; [constructor|].
  destruct (snapshot_entries f q) eqn:E; [done|].
  intros Hn. constructor; [done|by apply IH].
Qed.

(** C1, as amended: over a primary file whose content is text, which
    [json.loads] parses to a value of the storage schema or rejects with
    [JSONDecodeError], [load_memories] with the lock held returns without
    raising and changes no file, and what it returns is decided by the
    content: nothing, with a warning and no error logged, when the content
    is blank; the list when it parses to a list; the [entries] when it
    parses to a dictionary that has them; nothing when it parses to a
    dictionary without [entries] or to a value that is neither a list nor a
    dictionary; and when [json.loads] raises [JSONDecodeError], after an
    error is logged, the entries of the newest snapshot that parses to a
    list or to a dictionary with [entries], snapshots of any other kind
    being passed over, or nothing when no snapshot is of that kind.  Files
    whose bytes are not text and texts on which [json.loads] raises another
    error are outside the embedding, and the theorem says nothing of
    them. *)
Theorem load_memories_by_content (env : Env) (w : World) (content : string) :
  load_lock env = Acquired → fs w !! MEMORY_FILE = Some content →
  ∃ w' result extra,
    load_memories env w = (Ok result, w')
    ∧ fs w' = fs w
    ∧ log w' = log w ++ mkLog DEBUG "File lock acquired" :: extra
    ∧ (Py.strip content = EmptyString →
       result = []
       ∧ extra = [mkLog WARNING "Empty memory file detected, initializing"])
    ∧ (Py.strip content ≠ EmptyString →
       (∀ l, json_loads content = Some (DocList l) → result = l)
       ∧ (∀ es c, json_loads content = Some (DocDict (Some es) c) →
          result = es)
       ∧ (∀ c, json_loads content = Some (DocDict None c) → result = [])
       ∧ (∀ t, json_loads content = Some (DocOther t) → result = [])
       ∧ (json_loads content = None →
          mkLog ERROR "Storage corruption detected" ∈ extra
          ∧ ((∃ skipped p rest,
                newest_first (fs w) = skipped ++ p :: rest
                ∧ Forall (fun q => snapshot_entries (fs w) q = None) skipped
                ∧ snapshot_entries (fs w) p = Some result)
             ∨ (Forall (fun q => snapshot_entries (fs w) q = None)
                  (newest_first (fs w))
                ∧ result = [])))).
Proof.
  intros Hl Hc.
  destruct (load_memories_acquired env w content Hl Hc)
    as (w' & extra & E & Hfs & Hlog & Hblank & Hbad).
  exists w', (loaded (fs w) content), extra.
  split; [done|]. split; [done|]. split; [done|]. split.
  - intros Hb. split; [|by apply Hblank].
    unfold loaded. by rewrite decide_True.
  - intros Hb. unfold loaded. rewrite decide_False by done.
    split; [by intros l ->|]. split; [by intros es c ->|].
    split; [by intros c ->|]. split; [by intros t ->|].
    intros Hj. rewrite Hj. split.
    + destruct (Hbad Hb Hj) as [extra' E']. rewrite E'. apply list_elem_of_here.
    + destruct (first_usable (fs w) (newest_first (fs w))) as [es|] eqn:Ef.
      * left. by apply first_usable_found.
      * right. split; [by apply first_usable_none|done].
Qed.

(** ** add_memory *)

Lemma kept_snoc (memories : list Entry) (entry : Entry) :
  ∃ earlier, kept (memories ++ [entry]) = earlier ++ [entry].
Proof.
  destruct (decide (MAX_ENTRIES < length (memories ++ [entry]))) as [Hn|Hn].
  - rewrite (kept_over _ Hn). rewrite length_app in *. simpl in *.
    exists (drop (length memories + 1 - MAX_ENTRIES) memories).
    apply drop_app_le. unfold MAX_ENTRIES in *. lia.
  - rewrite kept_within by lia. by exists memories.
Qed.

Lemma validate_rejects_long (a : AddMemoryArguments) :
  (MAX_WORDS_PER_ENTRY < count_words (arg_content a))%Z →
  ∃ errors,
    AddMemoryInput_validate a = inl errors
    ∧ WordCountExceeded (count_words (arg_content a)) ∈ errors.
Proof.
  intros Hn. unfold AddMemoryInput_validate.
  set (text := str_strip_whitespace (arg_content a)).
  assert (count_words text = count_words (arg_content a)) as Hc
    by apply count_words_strip_whitespace.
  assert ((Py.len text <? 1) = false) as Hlen.
  { apply Nat.ltb_ge. rewrite <- Hc in Hn. destruct text; [|simpl; lia].
    by vm_compute in Hn. }
  rewrite Hlen. unfold validate_word_count. rewrite Hc.
  destruct (Z.ltb_spec MAX_WORDS_PER_ENTRY (count_words (arg_content a)));
    [|lia].
  match goal with |- context [?l1 ++ [?e] ++ ?l2] =>
    generalize l1 l2; intros l1' l2' end.
  assert (∀ (x : option Priority), ∃ errors,
    match l1' ++ [WordCountExceeded (count_words (arg_content a))] ++ l2', x with
    | [], Some p => inr (mkAddInput
        (str_strip_whitespace (arg_agent_name a)) text
        (normalize_tags (str_strip_whitespace <$> arg_tags a)) p (arg_metadata a))
    | errors, _ => inl errors
    end = inl errors
    ∧ WordCountExceeded (count_words (arg_content a)) ∈ errors) as Hx.
  { intros x.
    destruct (l1' ++ [WordCountExceeded (count_words (arg_content a))] ++ l2')
      as [|e l] eqn:E.
    - by destruct l1'.
    - exists (e :: l). split; [by destruct x|].
      rewrite <- E. set_solver. }
  apply Hx.
Qed.

Lemma validate_accepts (a : AddMemoryArguments) (p : Priority) :
  1 ≤ Py.len (str_strip_whitespace (arg_agent_name a)) ≤ 100 →
  str_strip_whitespace (arg_content a) ≠ EmptyString →
  (count_words (arg_content a) ≤ MAX_WORDS_PER_ENTRY)%Z →
  length (arg_tags a) ≤ 10 →
  match arg_priority a with
  | None => Some MEDIUM
  | Some s => Priority_parse s
  end = Some p →
  AddMemoryInput_validate a
  = inr (mkAddInput (str_strip_whitespace (arg_agent_name a))
           (str_strip_whitespace (arg_content a))
           (normalize_tags (str_strip_whitespace <$> arg_tags a)) p
           (arg_metadata a)).
Proof.
  intros [Ha1 Ha2] Hc Hw Ht Hp. unfold AddMemoryInput_validate.
  rewrite Hp.
  destruct (Nat.ltb_spec (Py.len (str_strip_whitespace (arg_agent_name a))) 1);
    [lia|].
  destruct (Nat.ltb_spec 100 (Py.len (str_strip_whitespace (arg_agent_name a))));
    [lia|].
  destruct (Nat.ltb_spec (Py.len (str_strip_whitespace (arg_content a))) 1)
    as [Hl|Hl].
  { destruct (str_strip_whitespace (arg_content a)); [done|simpl in Hl; lia]. }
  unfold validate_word_count. rewrite count_words_strip_whitespace.
  destruct (Z.ltb_spec MAX_WORDS_PER_ENTRY (count_words (arg_content a)));
    [lia|].
  rewrite length_fmap.
  destruct (Nat.ltb_spec 10 (length (arg_tags a))); [lia|].
  by destruct (arg_priority a).
Qed.

Lemma load_after_ensure (env : Env) (w w1 : World) :
  ensure_storage_structure env w = (Ok (), w1) →
  fs w1 !! MEMORY_FILE ≠ None →
  load_memories env w = load_memories env w1.
Proof.
  intros E Hex. unfold load_memories.
  rewrite (bind_ok _ _ _ _ _ E).
  by rewrite (bind_ok _ _ w1 w1 () (ensure_existing env w1 Hex)).
Qed.

Lemma load_memories_ok (env : Env) (w : World) :
  load_lock env = Acquired → init_fault env = None →
  ∃ memories w', load_memories env w = (Ok memories, w').
Proof.
  intros Hl Hi. destruct (ensure_ok env w Hi) as (w1 & E1 & Hex).
  rewrite (load_after_ensure env w w1 E1 Hex).
  destruct (fs w1 !! MEMORY_FILE) as [content|] eqn:Ec; [|done].
  destruct (load_memories_acquired env w1 content Hl Ec) as (w' & ? & E & _).
  by eexists _, _.
Qed.

(** C3, as amended: a content of more than 200 words is rejected by the
    validation and the world is left as it was; a content of at most 200
    words that is not blank, sent with a valid author, tags and priority, is
    added when the lock is free and the writes succeed, and the entry that
    is persisted, the last of the container, carries the word count of the
    content. *)
Theorem add_memory_word_limit (env : Env) (a : AddMemoryArguments) (w : World) :
  ((MAX_WORDS_PER_ENTRY < count_words (arg_content a))%Z →
   ∃ errors,
     call_add_memory env a w = (Ok (Rejected errors), w)
     ∧ WordCountExceeded (count_words (arg_content a)) ∈ errors)
  ∧ ((count_words (arg_content a) ≤ MAX_WORDS_PER_ENTRY)%Z →
     str_strip_whitespace (arg_content a) ≠ EmptyString →
     1 ≤ Py.len (str_strip_whitespace (arg_agent_name a)) ≤ 100 →
     length (arg_tags a) ≤ 10 →
     (∀ s, arg_priority a = Some s → Priority_parse s ≠ None) →
     load_lock env = Acquired → init_fault env = None →
     write_fault env = None →
     ∃ w' n tgs prio earlier entry created,
       call_add_memory env a w
       = (Ok (Returned
                (Added (uuid4 env) n (now env 4)
                   (str_strip_whitespace (arg_agent_name a))
                   (count_words (arg_content a)) tgs prio)), w')
       ∧ fs w' !! MEMORY_FILE
         = Some (json_dumps_storage
                   (mkStorage STORAGE_VERSION (earlier ++ [entry]) created
                      (now env 2)))
       ∧ entry_id entry = Some (uuid4 env)
       ∧ content entry = Some (str_strip_whitespace (arg_content a))
       ∧ word_count entry = Some (count_words (arg_content a))).
Proof.
  split.
  - intros Hn. destruct (validate_rejects_long a Hn) as (errors & E & Hin).
    exists errors. unfold call_add_memory. by rewrite E.
  - intros Hw Hc Ha Ht Hp Hl Hi Hf.
    assert (∃ p, match arg_priority a with
                 | None => Some MEDIUM
                 | Some s => Priority_parse s
                 end = Some p) as [p Ep].
    { destruct (arg_priority a) as [s|]; [|by eexists].
      specialize (Hp s eq_refl). destruct (Priority_parse s); [by eexists|done]. }
    unfold call_add_memory. rewrite (validate_accepts a p Ha Hc Hw Ht Ep).
    destruct (load_memories_ok env w Hl Hi) as (memories & w1 & E1).
    set (text := str_strip_whitespace (arg_content a)).
    set (agent := str_strip_whitespace (arg_agent_name a)).
    set (tgs := normalize_tags (str_strip_whitespace <$> arg_tags a)).
    pose (entry :=
      mkEntry (Some (uuid4 env)) (Some (now env 4)) (Some agent) (Some text)
        (Some (count_words text)) (Some tgs) (Some (Priority_value p))
        (Some (arg_metadata a)) (Some None)).
    destruct (save_memories_writes env (memories ++ [entry]) w1 Hi Hf)
      as (w2 & created & E2 & Hfs).
    destruct (kept_snoc memories entry) as [earlier Ek]. rewrite Ek in Hfs.
    eexists _, _, _, _, earlier, entry, created.
    split.
    + erewrite bind_ok; [reflexivity|].
      unfold add_memory. erewrite try_ok; [|].
      2: { rewrite (bind_ok _ _ _ _ _ E1).
           cbn [add_content add_agent_name add_tags add_priority add_metadata].
           fold entry. rewrite (bind_ok _ _ _ _ _ E2). reflexivity. }
      cbn [add_content add_agent_name add_tags add_priority add_metadata].
      unfold text. rewrite count_words_strip_whitespace. reflexivity.
    + split; [simpl; exact Hfs|]. simpl. unfold text.
      by rewrite count_words_strip_whitespace.
Qed.

(** ** read_memory *)



(** ** delete_memory, get_memory and update_memory *)

Lemma load_reads_back (env : Env) (w : World) (sd : Storage) :
  load_lock env = Acquired →
  fs w !! MEMORY_FILE = Some (json_dumps_storage sd) →
  reads_back sd →
  ∃ w', load_memories env w = (Ok (storage_entries sd), w') ∧ fs w' = fs w.
Proof.
  intros Hl Hc [Hb Hj].
  destruct (load_memories_acquired env w _ Hl Hc) as (w' & ? & E & Hfs & _).
  exists w'. split; [|done]. rewrite E. f_equal. f_equal.
  unfold loaded. rewrite decide_False by done. by rewrite Hj.
Qed.

Lemma find_entry_split (memories : list Entry) (eid : string) (entry : Entry) :
  find_entry_by_id memories eid = Some entry →
  ∃ before after,
    memories = before ++ entry :: after
    ∧ entry_id entry = Some eid
    ∧ Forall (fun m => entry_id m ≠ Some eid) before.
Proof.
  induction memories as [|m l IH]; simpl; [done|].
  case_decide as Hm.
  - intros [= ->]. by exists [], l.
  - intros (before & after & -> & He & Hb)%IH.
    exists (m :: before), after. split; [done|]. split; [done|].
    by constructor.
Qed.

Lemma find_entry_filtered (memories : list Entry) (eid : string) :
  find_entry_by_id (filter (fun m => entry_id m ≠ Some eid) memories) eid = None.
Proof.
  induction memories as [|m l IH]; [done|].
  rewrite filter_cons. case_decide as Hm; [|done].
  simpl. by rewrite decide_False.
Qed.

Lemma filter_all {A} (P : A -> Prop) `{∀ x, Decision (P x)} (l : list A) :
  Forall P l → filter P l = l.
Proof.
  induction 1 as [|x l Hx _ IH]; [done|].
  rewrite filter_cons, decide_True by done. by rewrite IH.
Qed.

(** Under the invariant the filter of [delete_memory] removes one entry. *)
Lemma filter_unique (before after : list Entry) (entry : Entry) (eid : string) :
  unique_ids (before ++ entry :: after) → entry_id entry = Some eid →
  filter (fun m => entry_id m ≠ Some eid) (before ++ entry :: after)
  = before ++ after.
Proof.
  intros Hu He. unfold unique_ids in Hu.
  rewrite omap_app in Hu. simpl in Hu. rewrite He in Hu. simpl in Hu.
  apply NoDup_app in Hu as (_ & Hb & Ha).
  apply NoDup_cons in Ha as [Ha _].
  rewrite filter_app, filter_cons, decide_False by (by intros []).
  f_equal; apply filter_all, Forall_forall; intros m Hm Em.
  - apply (Hb eid); [|left]. apply list_elem_of_omap. by exists m.
  - apply Ha. apply list_elem_of_omap. by exists m.
Qed.

(** C5, as amended: in a store of at most [MAX_ENTRIES + 1] entries with
    unique ids that holds an entry with the given valid id, [delete_memory]
    succeeds when the lock is free and the write does not fail; it persists
    the entries without that one, the others unchanged and in their order,
    so one entry fewer; and once the file is read back, the store has these
    entries and [get_memory] answers that the entry is not found. *)
Theorem delete_memory_removes_entry (env env' : Env) (eid : string)
    (fmt : ResponseFormat) (w : World) (content : string) :
  let memories := loaded (fs w) content in
  let remaining := filter (fun m => entry_id m ≠ Some eid) memories in
  let sd :=
    mkStorage STORAGE_VERSION remaining (preserved_created_at env content)
      (now env 2) in
  load_lock env = Acquired → fs w !! MEMORY_FILE = Some content →
  validate_entry_id eid = true →
  unique_ids memories →
  find_entry_by_id memories eid ≠ None →
  length memories ≤ MAX_ENTRIES + 1 →
  write_fault env = None →
  (∃ before entry after,
     memories = before ++ entry :: after
     ∧ entry_id entry = Some eid
     ∧ remaining = before ++ after)
  ∧ length remaining + 1 = length memories
  ∧ ∃ w1,
      delete_memory env eid w
      = (Ok (Deleted eid (find_entry_by_id memories eid ≫= agent_name)
               (now env 6) (length remaining)), w1)
      ∧ fs w1 !! MEMORY_FILE = Some (json_dumps_storage sd)
      ∧ (reads_back sd → load_lock env' = Acquired →
         (∃ w2, load_memories env' w1 = (Ok remaining, w2))
         ∧ (∃ w3, get_memory env' eid fmt w1 = (Ok (EntryNotFound eid), w3))).
Proof.
  intros memories remaining sd Hl Hc Hv Hu Hf Hn Hw.
  destruct (load_memories_acquired env w content Hl Hc)
    as (w0 & ? & El & Hfs0 & _). fold memories in El.
  destruct (find_entry_by_id memories eid) as [entry|] eqn:Ef; [|done].
  destruct (find_entry_split _ _ _ Ef) as (before & after & Hs & He & _).
  assert (remaining = before ++ after) as Hr.
  { unfold remaining. rewrite Hs. apply filter_unique; [by rewrite <- Hs|done]. }
  assert (length remaining + 1 = length memories) as Hlen.
  { rewrite Hr, Hs, !length_app. cbn [length]. lia. }
  rewrite <- Hfs0 in Hc.
  destruct (save_memories_overwrites env remaining w0 content Hc Hw)
    as (w1 & Es & Hfs).
  rewrite kept_within in Hfs by lia.
  split; [by exists before, entry, after|]. split; [done|].
  eexists. split; [|split].
  - unfold delete_memory. erewrite try_ok; [reflexivity|].
    rewrite Hv. cbn [negb].
    rewrite (bind_ok _ _ _ _ _ El). rewrite Ef. fold remaining.
    rewrite (bind_ok _ _ _ _ _ Es). reflexivity.
  - exact Hfs.
  - intros Hrb Hl'. simpl in Hfs.
    match type of Hfs with ?f !! _ = _ =>
      destruct (load_reads_back env' (mkWorld f
        (log w1 ++ [mkLog INFO "Memory entry deleted"])) _ Hl' Hfs Hrb)
        as (w2 & E2 & _) end.
    split; [by exists w2|].
    unfold get_memory. eexists. erewrite try_ok; [reflexivity|].
    rewrite Hv. cbn [negb].
    rewrite (bind_ok _ _ _ _ _ E2). cbn [storage_entries sd].
    unfold remaining. rewrite find_entry_filtered. reflexivity.
Qed.

Lemma assign_found_split (before after : list Entry) (entry entry' : Entry)
    (eid : string) :
  Forall (fun m => entry_id m ≠ Some eid) before → entry_id entry = Some eid →
  assign_found (before ++ entry :: after) eid (fun _ => entry')
  = before ++ entry' :: after.
Proof.
  intros Hb He. induction Hb as [|m l Hm _ IH]; simpl.
  - by rewrite decide_True.
  - rewrite decide_False by done. by rewrite IH.
Qed.

(** C8, as amended: in a store of at most [MAX_ENTRIES] entries, an update
    that gives no field succeeds when the lock is free and the write does
    not fail, and reports no updated field; the container it persists is
    the one that was loaded with, in the place of the entry found, an entry
    that differs from it in [updated_at] alone. *)
Theorem update_memory_without_fields (env : Env) (eid : string) (w : World)
    (text : string) :
  let memories := loaded (fs w) text in
  let stamp := set_updated_at (now env 5) in
  load_lock env = Acquired → fs w !! MEMORY_FILE = Some text →
  validate_entry_id eid = true →
  find_entry_by_id memories eid ≠ None →
  length memories ≤ MAX_ENTRIES →
  write_fault env = None →
  ∃ before entry after w1,
    memories = before ++ entry :: after
    ∧ find_entry_by_id memories eid = Some entry
    ∧ update_memory env (mkUpdateInput eid None None None None) w
      = (Ok (Updated eid [] (now env 5)), w1)
    ∧ fs w1 !! MEMORY_FILE
      = Some (json_dumps_storage
                (mkStorage STORAGE_VERSION (before ++ stamp entry :: after)
                   (preserved_created_at env text) (now env 2)))
    ∧ updated_at (stamp entry) = Some (Some (now env 5))
    ∧ entry_id (stamp entry) = entry_id entry
    ∧ timestamp (stamp entry) = timestamp entry
    ∧ agent_name (stamp entry) = agent_name entry
    ∧ content (stamp entry) = content entry
    ∧ word_count (stamp entry) = word_count entry
    ∧ tags (stamp entry) = tags entry
    ∧ priority (stamp entry) = priority entry
    ∧ metadata (stamp entry) = metadata entry.
Proof.
  intros memories stamp Hl Hc Hv Hf Hn Hw.
  destruct (load_memories_acquired env w text Hl Hc)
    as (w0 & ? & El & Hfs0 & _). fold memories in El.
  destruct (find_entry_by_id memories eid) as [entry|] eqn:Ef; [|done].
  destruct (find_entry_split _ _ _ Ef) as (before & after & Hs & He & Hb).
  rewrite <- Hfs0 in Hc.
  destruct (save_memories_overwrites env (before ++ stamp entry :: after) w0
              text Hc Hw) as (w1 & Es & Hfs).
  rewrite Hs, length_app in Hn. cbn [length] in Hn.
  rewrite kept_within in Hfs by (rewrite length_app; cbn [length]; lia).
  exists before, entry, after. eexists.
  split; [done|]. split; [done|]. split; [|split].
  - unfold update_memory. erewrite try_ok; [reflexivity|].
    cbn [upd_entry_id]. rewrite Hv. cbn [negb].
    rewrite (bind_ok _ _ _ _ _ El). rewrite Ef.
    unfold apply_update, assign_if. cbn [upd_content upd_tags upd_priority
      upd_metadata fmap option_fmap option_map fst snd].
    rewrite Hs. rewrite (assign_found_split _ _ _ _ _ Hb He).
    fold stamp. rewrite (bind_ok _ _ _ _ _ Es). reflexivity.
  - exact Hfs.
  - done.
Qed.

End StorageFacts.

(** * The server at work on files *)

Section Runs.
Import Sample.

(** The claim C1 as it is stated fails: the primary file does not parse and
    the newest snapshot does, to a dictionary without entries; the claim
    gives the entries of that snapshot, none, and [load_memories] returns
    those of the older snapshot. *)
Lemma load_memories_newest_parsing_counterexample :
  json_loads "{broken" = None
  ∧ newest_first (fs corrupt_world)
    = [snapshot "20250102_000000"; snapshot "20250101_000000"]
  ∧ json_loads "{}" = Some (DocDict None None)
  ∧ spec_newest_parsing (fs corrupt_world) (newest_first (fs corrupt_world))
    = Some []
  ∧ (load_memories env corrupt_world).1 = Ok [sample_message]
  ∧ (load_memories env corrupt_world).1
    ≠ Ok (default []
            (spec_newest_parsing (fs corrupt_world)
               (newest_first (fs corrupt_world)))).
Proof.
  do 5 (split; [vm_compute; reflexivity|]).
  intros E. vm_compute in E. discriminate E.
Qed.

Lemma load_memories_by_content_witness :
  load_lock env = Acquired
  ∧ fs corrupt_world !! MEMORY_FILE = Some "{broken"
  ∧ ∃ w', load_memories env corrupt_world = (Ok [sample_message], w')
          ∧ fs w' = fs corrupt_world.
Proof.
  split; [reflexivity|]. split; [vm_compute; reflexivity|].
  destruct (load_memories_by_content env corrupt_world "{broken")
    as (w' & result & extra & E & Hfs & _); [reflexivity|vm_compute; reflexivity|].
  exists w'. split; [|exact Hfs].
  rewrite E. f_equal. f_equal.
  apply (f_equal fst) in E. vm_compute in E. by injection E.
Defined.

Lemma save_memories_rotation_witness :
  init_fault env = None ∧ write_fault env = None
  ∧ ∃ w' created,
      save_memories env [sample_message; sample_other] (world []) = (Ok (), w')
      ∧ fs w' !! MEMORY_FILE
        = Some (json_dumps_storage
                  (mkStorage STORAGE_VERSION [sample_message; sample_other]
                     created (now env 2))).
Proof.
  split; [reflexivity|]. split; [reflexivity|].
  destruct (save_memories_rotation env [sample_message; sample_other] (world []))
    as (w' & persisted & created & E & Hfs & _ & Hsmall);
    [reflexivity|reflexivity|].
  rewrite Hsmall in Hfs by (cbn [length]; unfold MAX_ENTRIES; lia).
  exists w', created. split; [exact E|exact Hfs].
Defined.

(** Rotation at work: of 1003 entries the last 1000 are persisted. *)
Example save_memories_rotates :
  stored (save_memories env (numbered 1003) (world [])).2
  = drop 3 (numbered 1003).
Proof. vm_compute. reflexivity. Qed.

(** The claim C3 as it is stated fails: the empty content has no word, so
    at most 200, and the call is rejected, the minimum length of the content
    being one character. *)
Lemma add_memory_blank_content_counterexample :
  (count_words EmptyString ≤ MAX_WORDS_PER_ENTRY)%Z
  ∧ call_add_memory env (mkAddArguments "agent" EmptyString [] None []) (world [])
    = (Ok (Rejected [StringTooShort "content"]), world [])
  ∧ (count_words "   " ≤ MAX_WORDS_PER_ENTRY)%Z
  ∧ call_add_memory env (mkAddArguments "agent" "   " [] None []) (world [])
    = (Ok (Rejected [StringTooShort "content"]), world []).
Proof.
  split; [by vm_compute|]. split; [vm_compute; reflexivity|].
  split; [by vm_compute|]. vm_compute; reflexivity.
Qed.

Lemma add_memory_word_limit_witness :
  (∃ errors,
     call_add_memory env (mkAddArguments "agent" (words 201) [] None []) (world [])
     = (Ok (Rejected errors), world [])
     ∧ WordCountExceeded 201 ∈ errors)
  ∧ ∃ w' n tgs prio,
      call_add_memory env
        (mkAddArguments " agent " " hello  world " ["Note "; " "] (Some "high") [])
        (world [])
      = (Ok (Returned
               (Added (uuid4 env) n (now env 4) "agent" 2 tgs prio)), w').
Proof.
  split.
  - destruct (add_memory_word_limit env
      (mkAddArguments "agent" (words 201) [] None []) (world [])) as [H1 _].
    apply H1. by vm_compute.
  - destruct (add_memory_word_limit env
      (mkAddArguments " agent " " hello  world " ["Note "; " "] (Some "high") [])
      (world [])) as [_ H2].
    destruct H2 as (w' & n & tgs & prio & _ & _ & _ & E & _).
    + by vm_compute.
    + by vm_compute.
    + vm_compute. lia.
    + vm_compute. lia.
    + intros s [= <-]. by vm_compute.
    + reflexivity.
    + reflexivity.
    + reflexivity.
    + by exists w', n, tgs, prio.
Defined.



(** A single entry over the limit is not halved: [memories[-0:]] is the
    whole list, so the entry is shown, under a notice that counts none. *)
Example read_memory_single_entry :
  text_of (read_memory env read_all (store_of [note 26000 1 "alpha"])).1
  = format_memories_as_markdown [note 26000 1 "alpha"]
    +:+ truncation_notice 0 1.
Proof. apply String.eqb_eq. vm_compute. reflexivity. Qed.

Ltac by_computation :=
  first [ vm_compute; reflexivity | vm_compute; lia | vm_compute; discriminate ].

(** The ids of a numbered store differ: their numbers do. *)
Ltac numbered_ids_differ n :=
  unfold unique_ids; apply (NoDup_fmap_1 id_number);
  replace (id_number <$> omap entry_id _) with (Z.of_nat <$> seq 0 n)
    by by_computation;
  apply NoDup_fmap_2; [apply _|apply NoDup_seq].

(** The claim C5 as it is stated fails: a store of 1002 entries with
    unique ids holds the id number 5; the deletion reports 1001 remaining
    entries, and the store is left with 1000, the entry number 0 evicted
    with it by the rotation of [save_memories]. *)
Lemma delete_memory_over_capacity_counterexample :
  stored (store_of (numbered 1002)) = numbered 1002
  ∧ unique_ids (numbered 1002)
  ∧ (delete_memory env (numbered_id 5) (store_of (numbered 1002))).1
    = Ok (Deleted (numbered_id 5) None (now env 6) 1001)
  ∧ length (stored (delete_memory env (numbered_id 5)
                      (store_of (numbered 1002))).2) = 1000
  ∧ stored (delete_memory env (numbered_id 5) (store_of (numbered 1002))).2
    = (fun k => with_id (numbered_id k)) <$> (seq 1 4 ++ seq 6 996).
Proof.
  split; [by_computation|].
  split; [numbered_ids_differ 1002|].
  do 2 (split; [by_computation|]). by_computation.
Qed.

Lemma delete_memory_removes_entry_witness :
  load_lock env = Acquired
  ∧ fs (store_of (numbered 3)) !! MEMORY_FILE = Some (file_of (numbered 3))
  ∧ validate_entry_id (numbered_id 1) = true
  ∧ unique_ids (loaded (fs (store_of (numbered 3))) (file_of (numbered 3)))
  ∧ find_entry_by_id (loaded (fs (store_of (numbered 3))) (file_of (numbered 3)))
      (numbered_id 1) ≠ None
  ∧ length (loaded (fs (store_of (numbered 3))) (file_of (numbered 3)))
    ≤ MAX_ENTRIES + 1
  ∧ write_fault env = None
  ∧ ∃ w1,
      delete_memory env (numbered_id 1) (store_of (numbered 3))
      = (Ok (Deleted (numbered_id 1) None (now env 6) 2), w1)
      ∧ (∃ w2, load_memories env w1
               = (Ok [with_id (numbered_id 0); with_id (numbered_id 2)], w2))
      ∧ ∃ w3, get_memory env (numbered_id 1) JSON w1
              = (Ok (EntryNotFound (numbered_id 1)), w3).
Proof.
  assert (fs (store_of (numbered 3)) !! MEMORY_FILE = Some (file_of (numbered 3)))
    as Hc by by_computation.
  assert (validate_entry_id (numbered_id 1) = true) as Hv by by_computation.
  assert (unique_ids (loaded (fs (store_of (numbered 3))) (file_of (numbered 3))))
    as Hu by numbered_ids_differ 3.
  assert (find_entry_by_id
            (loaded (fs (store_of (numbered 3))) (file_of (numbered 3)))
            (numbered_id 1) ≠ None) as Hf by by_computation.
  assert (length (loaded (fs (store_of (numbered 3))) (file_of (numbered 3)))
          ≤ MAX_ENTRIES + 1) as Hn by by_computation.
  split; [reflexivity|]. do 5 (split; [assumption|]). split; [reflexivity|].
  destruct (delete_memory_removes_entry env env (numbered_id 1) JSON _ _
              eq_refl Hc Hv Hu Hf Hn eq_refl) as (_ & _ & w1 & E & _ & Hget).
  match type of E with _ = (Ok (Deleted _ ?a _ ?n), _) =>
    replace a with (@None string) in E by by_computation;
    replace n with 2 in E by by_computation
  end.
  exists w1. split; [exact E|].
  destruct Hget as [(w2 & E2) Hnf].
  - split; [intros Eb; vm_compute in Eb; discriminate Eb|by_computation].
  - reflexivity.
  - split; [|exact Hnf]. exists w2. rewrite E2. f_equal.
Defined.

(** The claim C8 as it is stated fails: in a store of 1001 entries an
    update of the entry number 5 that gives no field leaves 1000 entries:
    the entry number 0, another entry, is evicted by the rotation of
    [save_memories]. *)
Lemma update_memory_over_capacity_counterexample :
  stored (store_of (numbered 1001)) = numbered 1001
  ∧ (update_memory env (mkUpdateInput (numbered_id 5) None None None None)
       (store_of (numbered 1001))).1
    = Ok (Updated (numbered_id 5) [] (now env 5))
  ∧ stored (update_memory env (mkUpdateInput (numbered_id 5) None None None None)
              (store_of (numbered 1001))).2
    = ((fun k => with_id (numbered_id k)) <$> seq 1 4)
      ++ set_updated_at (now env 5) (with_id (numbered_id 5))
         :: ((fun k => with_id (numbered_id k)) <$> seq 6 995).
Proof. do 2 (split; [by_computation|]). by_computation. Qed.

Lemma update_memory_without_fields_witness :
  load_lock env = Acquired
  ∧ fs (store_of (numbered 3)) !! MEMORY_FILE = Some (file_of (numbered 3))
  ∧ validate_entry_id (numbered_id 1) = true
  ∧ find_entry_by_id (loaded (fs (store_of (numbered 3))) (file_of (numbered 3)))
      (numbered_id 1) ≠ None
  ∧ length (loaded (fs (store_of (numbered 3))) (file_of (numbered 3)))
    ≤ MAX_ENTRIES
  ∧ write_fault env = None
  ∧ ∃ w1,
      update_memory env (mkUpdateInput (numbered_id 1) None None None None)
        (store_of (numbered 3))
      = (Ok (Updated (numbered_id 1) [] (now env 5)), w1).
Proof.
  assert (fs (store_of (numbered 3)) !! MEMORY_FILE = Some (file_of (numbered 3)))
    as Hc by by_computation.
  assert (validate_entry_id (numbered_id 1) = true) as Hv by by_computation.
  assert (find_entry_by_id
            (loaded (fs (store_of (numbered 3))) (file_of (numbered 3)))
            (numbered_id 1) ≠ None) as Hf by by_computation.
  assert (length (loaded (fs (store_of (numbered 3))) (file_of (numbered 3)))
          ≤ MAX_ENTRIES) as Hn by by_computation.
  split; [reflexivity|]. do 4 (split; [assumption|]). split; [reflexivity|].
  destruct (update_memory_without_fields env (numbered_id 1) _ _
              eq_refl Hc Hv Hf Hn eq_refl)
    as (before & entry & after & w1 & _ & _ & E & _).
  by exists w1.
Defined.

(** An update without fields in a store within its capacity. *)
Example update_memory_stamps :
  stored (update_memory env (mkUpdateInput (numbered_id 1) None None None None)
            (store_of (numbered 3))).2
  = [with_id (numbered_id 0);
     set_updated_at (now env 5) (with_id (numbered_id 1));
     with_id (numbered_id 2)].
Proof. by_computation. Qed.

(** A write that fails after three characters reached the temporary file:
    the target is as it was all along, and the temporary file, which held
    nothing and then the three characters, is removed. *)
Example atomic_write_fails_midway :
  (atomic_write (Some (FailWrite 3)) MEMORY_FILE "new content"
     (store_of (numbered 1))).1 = Raise OSError
  ∧ (fun f : gmap Path string => (f !! MEMORY_FILE, f !! temp_path MEMORY_FILE))
    <$> (atomic_write_run (Some (FailWrite 3)) MEMORY_FILE "new content"
           (fs (store_of (numbered 1)))).1
    = [(Some (file_of (numbered 1)), Some EmptyString);
       (Some (file_of (numbered 1)), Some "new");
       (Some (file_of (numbered 1)), None)].
Proof. split; by_computation. Qed.

End Runs.
(** * Further properties of the server *)

(** ** Words and white space *)

Lemma starts_word_split (s : string) :
  Py.starts_word s = true → Py.split s ≠ [].
Proof.
  destruct s as [|c s]; [done|]. simpl. intros Hc.
  apply negb_true_iff in Hc. rewrite Hc.
  destruct (Py.starts_word s); [by destruct (Py.split s)|done].
Qed.

Lemma split_nil_lstrip (s : string) :
  Py.split s = [] ↔ Py.lstrip_with Py.isspace s = EmptyString.
Proof.
  induction s as [|c s IH]; [done|]. rewrite split_cons. simpl.
  destruct (Py.isspace c); [exact IH|].
  split; [|done].
  destruct (Py.starts_word s); [by destruct (Py.split s)|done].
Qed.

Lemma rstrip_keeps_head (sp : ascii -> bool) (c : ascii) (s : string) :
  sp c = false → ∃ r, Py.rstrip_with sp (String c s) = String c r.
Proof.
  intros Hc. simpl. destruct (Py.rstrip_with sp s); [|by eexists].
  rewrite Hc. by eexists.
Qed.

Lemma lstrip_head (sp : ascii -> bool) (s : string) :
  Py.lstrip_with sp s = EmptyString
  ∨ ∃ c r, Py.lstrip_with sp s = String c r ∧ sp c = false.
Proof.
  induction s as [|c s IH]; [by left|]. simpl.
  destruct (sp c) eqn:Hc; [exact IH|]. right. by exists c, s.
Qed.

Lemma strip_empty (sp : ascii -> bool) (s : string) :
  Py.strip_with sp s = EmptyString ↔ Py.lstrip_with sp s = EmptyString.
Proof.
  unfold Py.strip_with.
  destruct (lstrip_head sp s) as [->|(c & r & -> & Hc)]; [done|].
  destruct (rstrip_keeps_head sp c r Hc) as [r' ->]. done.
Qed.

Lemma split_nil_strip (s : string) :
  Py.split s = [] ↔ Py.strip s = EmptyString.
Proof. unfold Py.strip. by rewrite strip_empty, split_nil_lstrip. Qed.

Lemma starts_word_append (a : string) (c : ascii) (b : string) :
  Py.isspace c = true →
  Py.starts_word (a +:+ String c b) = Py.starts_word a.
Proof.
  intros Hc. destruct a as [|d a]; [|done].
  rewrite append_nil. simpl. by rewrite Hc.
Qed.

Lemma split_append (a : string) (c : ascii) (b : string) :
  Py.isspace c = true →
  Py.split (a +:+ String c b) = Py.split a ++ Py.split b.
Proof.
  intros Hc. induction a as [|d a IH].
  - rewrite append_nil, split_cons. by rewrite Hc.
  - rewrite append_cons, !split_cons, starts_word_append, IH by done.
    destruct (Py.isspace d); [done|].
    destruct (Py.starts_word a) eqn:Hs; [|done].
    apply starts_word_split in Hs. by destruct (Py.split a).
Qed.

(** A word: characters none of which is white space, at least one. *)
Lemma split_word (c : ascii) (s : string) :
  Forall (fun d => Py.isspace d = false) (c :: list_ascii_of_string s) →
  Py.split (String c s) = [String c s].
Proof.
  revert c. induction s as [|d s IH]; intros c Hw.
  - inversion_clear Hw as [|? ? Hc _]. simpl. by rewrite Hc.
  - inversion_clear Hw as [|? ? Hc Hrest].
    rewrite split_cons, Hc. rewrite (IH d Hrest).
    inversion_clear Hrest as [|? ? Hd _]. simpl. by rewrite Hd.
Qed.

(** X1: [count_words] is 0 exactly for a text that is blank, 1 for a word,
    a run of characters none of which is white space, and the count of two
    texts joined by a character of white space is the sum of their
    counts. *)
Theorem count_words_counts (a b : string) (c : ascii) :
  (count_words a = 0%Z ↔ Py.strip a = EmptyString)
  ∧ (Forall (fun d => Py.isspace d = false) (c :: list_ascii_of_string a) →
     count_words (String c a) = 1%Z)
  ∧ (Py.isspace c = true →
     count_words (a +:+ String c b) = (count_words a + count_words b)%Z).
Proof.
  unfold count_words. split; [|split].
  - rewrite <- split_nil_strip. destruct (Py.split a); simpl; [done|].
    split; [lia|done].
  - intros Hw. by rewrite split_word.
  - intros Hc. rewrite split_append by done. rewrite length_app. lia.
Qed.

Lemma count_words_counts_witness :
  Py.isspace " " = true
  ∧ count_words "hello" = 1%Z
  ∧ count_words ("hello world" +:+ String " " "again")
    = (count_words "hello world" + count_words "again")%Z.
Proof.
  split; [reflexivity|].
  destruct (count_words_counts "ello" EmptyString "h") as (_ & H1 & _).
  destruct (count_words_counts "hello world" "again" " ") as (_ & _ & H2).
  split; [apply H1; repeat constructor|apply H2; reflexivity].
Defined.

(** ** find_entry_by_id *)

(** X2: [find_entry_by_id] returns the first of the entries that carry the
    id, and nothing when no entry carries it. *)
Theorem find_entry_by_id_first (memories : list Entry) (eid : string) :
  find_entry_by_id memories eid
  = head (filter (fun m => entry_id m = Some eid) memories).
Proof.
  induction memories as [|m l IH]; [done|].
  simpl. rewrite filter_cons. by case_decide.
Qed.

(** ** filter_memories *)

Lemma elem_of_optional_filter {X} (o : option X) (P : X -> Entry -> Prop)
    `{∀ x m, Decision (P x m)} (l : list Entry) (m : Entry) :
  m ∈ match o with
      | Some x => filter (P x) l
      | None => l
      end
  ↔ m ∈ l ∧ ∀ x, o = Some x → P x m.
Proof.
  destruct o as [x|].
  - rewrite list_elem_of_filter. split.
    + intros [Hp Hm]. split; [done|]. by intros ? [= <-].
    + intros [Hm Hp]. split; [by apply Hp|done].
  - split; [by intros Hm|by intros [Hm _]].
Qed.

Lemma truthy_str_spec (a : option string) (x : string) :
  truthy_str a = Some x ↔ a = Some x ∧ x ≠ EmptyString.
Proof.
  destruct a as [[|c a]|]; simpl; split; try done.
  - by intros [[= <-] Hx].
  - by intros [= <-].
  - by intros [[= <-] _].
  - by intros [].
Qed.

Lemma truthy_list_spec {A} (t : option (list A)) (ts : list A) :
  truthy_list t = Some ts ↔ t = Some ts ∧ ts ≠ [].
Proof.
  destruct t as [[|y t]|]; simpl; split; try done.
  - by intros [[= <-] Hx].
  - by intros [= <-].
  - by intros [[= <-] _].
  - by intros [].
Qed.

Lemma elem_of_filter_memories (memories : list Entry)
    (a : option string) (t : option (list string)) (p : option Priority)
    (df dt : option string) (m : Entry) :
  m ∈ filter_memories memories a t p df dt ↔
  m ∈ memories
  ∧ (∀ x, a = Some x → x ≠ EmptyString → agent_name m = Some x)
  ∧ (∀ ts tag, t = Some ts → tag ∈ ts → tag ∈ default [] (tags m))
  ∧ (∀ q, p = Some q → priority m = Some (Priority_value q))
  ∧ (∀ d, df = Some d → d ≠ EmptyString →
       String.leb d (default EmptyString (timestamp m)) = true)
  ∧ (∀ d, dt = Some d → d ≠ EmptyString →
       String.leb (default EmptyString (timestamp m)) d = true).
Proof.
  unfold filter_memories. cbv zeta.
  rewrite (elem_of_optional_filter (truthy_str dt)
    (fun d m => String.leb (default EmptyString (timestamp m)) d)).
  rewrite (elem_of_optional_filter (truthy_str df)
    (fun d m => String.leb d (default EmptyString (timestamp m)))).
  rewrite (elem_of_optional_filter p
    (fun q m => priority m = Some (Priority_value q))).
  rewrite (elem_of_optional_filter (truthy_list t)
    (fun ts m => Forall (fun tag => tag ∈ default [] (tags m)) ts)).
  rewrite (elem_of_optional_filter (truthy_str a)
    (fun x m => agent_name m = Some x)).
  setoid_rewrite truthy_str_spec. setoid_rewrite truthy_list_spec.
  setoid_rewrite Forall_forall. setoid_rewrite Is_true_true.
  split.
  - intros [[[[[Hm Ha] Ht] Hp] Hf] Hto].
    repeat split; try done.
    + intros x Hx Hne. by apply Ha.
    + intros ts tag Hts Htag. apply (Ht ts); [|done].
      split; [done|]. intros ->. by apply elem_of_nil in Htag.
    + intros d Hd Hne. by apply Hf.
    + intros d Hd Hne. by apply Hto.
  - intros (Hm & Ha & Ht & Hp & Hf & Hto).
    repeat split; try done.
    + intros x [Hx Hne]. by apply Ha.
    + intros ts [Hts Hne] tag Htag. by apply (Ht ts).
    + intros d [Hd Hne]. by apply Hf.
    + intros d [Hd Hne]. by apply Hto.
Qed.

Lemma sublist_filter_memories (memories : list Entry)
    (a : option string) (t : option (list string)) (p : option Priority)
    (df dt : option string) :
  sublist (filter_memories memories a t p df dt) memories.
Proof.
  unfold filter_memories.
  repeat (match goal with |- context [match ?x with _ => _ end] =>
            destruct x end);
    repeat (etrans; [apply sublist_filter|]); done.
Qed.

(** X3: [filter_memories] returns, in their order, the entries that meet
    every criterion that is given; a criterion that is absent, the empty
    string or the empty list of tags, is not applied. *)
Theorem filter_memories_selects (memories : list Entry)
    (a : option string) (t : option (list string)) (p : option Priority)
    (df dt : option string) :
  sublist (filter_memories memories a t p df dt) memories
  ∧ ∀ m,
      m ∈ filter_memories memories a t p df dt ↔
      m ∈ memories
      ∧ (∀ x, a = Some x → x ≠ EmptyString → agent_name m = Some x)
      ∧ (∀ ts tag, t = Some ts → tag ∈ ts → tag ∈ default [] (tags m))
      ∧ (∀ q, p = Some q → priority m = Some (Priority_value q))
      ∧ (∀ d, df = Some d → d ≠ EmptyString →
           String.leb d (default EmptyString (timestamp m)) = true)
      ∧ (∀ d, dt = Some d → d ≠ EmptyString →
           String.leb (default EmptyString (timestamp m)) d = true).
Proof.
  split; [apply sublist_filter_memories|].
  intros m. apply elem_of_filter_memories.
Qed.

(** X4: an entry that has no [priority] key is returned by no priority
    filter, the filter on medium included, although [sort_memories] ranks
    it as medium. *)
Theorem filter_memories_absent_priority (memories : list Entry)
    (a : option string) (t : option (list string)) (q : Priority)
    (df dt : option string) (m : Entry) :
  priority m = None →
  (m ∉ filter_memories memories a t (Some q) df dt)
  ∧ priority_key m = priority_key (set_priority (Priority_value MEDIUM) m).
Proof.
  intros Hp. split; [|unfold priority_key; by rewrite Hp].
  intros (_ & _ & _ & Hq & _)%elem_of_filter_memories.
  specialize (Hq q eq_refl). congruence.
Qed.

Lemma filter_memories_absent_priority_witness :
  filter_memories [with_priority "1" "medium"; sample_message] None None
    (Some MEDIUM) None None
  = [with_priority "1" "medium"]
  ∧ (sample_message
     ∉ filter_memories [with_priority "1" "medium"; sample_message] None None
         (Some MEDIUM) None None).
Proof.
  split; [reflexivity|].
  apply (filter_memories_absent_priority
           [with_priority "1" "medium"; sample_message] None None MEDIUM None
           None sample_message).
  reflexivity.
Defined.

(** ** search_memories and the case of letters *)

Lemma lower_append (a b : string) :
  Py.lower (a +:+ b) = Py.lower a +:+ Py.lower b.
Proof.
  induction a as [|c a IH]; [done|].
  rewrite append_cons. simpl. by rewrite IH.
Qed.

Lemma substring_of_lower (p s : string) :
  substring_of p s → substring_of (Py.lower p) (Py.lower s).
Proof.
  intros (a & b & ->). exists (Py.lower a), (Py.lower b).
  by rewrite !lower_append.
Qed.

Lemma spec_matches_folded (query : string) (entry : Entry) :
  spec_matches query true entry = true → spec_matches query false entry = true.
Proof.
  rewrite !spec_matches_substring. simpl.
  intros [Hc|[Ha|(tag & Hin & Ht)]].
  - left. by apply substring_of_lower.
  - right. left. by apply substring_of_lower.
  - right. right. exists tag. split; [done|]. by apply substring_of_lower.
Qed.

Lemma sublist_filter_impl {A} (P Q : A -> Prop) `{∀ x, Decision (P x)}
    `{∀ x, Decision (Q x)} (l : list A) :
  (∀ x, P x → Q x) → sublist (filter P l) (filter Q l).
Proof.
  intros Hpq. induction l as [|x l IH]; [done|].
  rewrite !filter_cons. destruct (decide (P x)) as [Hp|Hp].
  - rewrite decide_True by auto. by constructor.
  - destruct (decide (Q x)); [by constructor|done].
Qed.

Lemma search_memories_filter (memories : list Entry) (query : string)
    (cs : bool) :
  query ≠ EmptyString →
  search_memories memories query cs
  = filter (fun e => spec_matches query cs e) memories.
Proof.
  intros Hq. unfold search_memories. rewrite decide_False by done.
  pose proof (search_loop_filter query cs [] memories) as E.
  unfold folded in E at 1. by rewrite E.
Qed.

(** X5: with strings of the Latin-1 range, the case-insensitive search
    returns every entry that the case-sensitive search for the same query
    returns, in the same order. *)
Theorem search_memories_case_insensitive_covers (memories : list Entry)
    (query : string) :
  sublist (search_memories memories query true)
    (search_memories memories query false).
Proof.
  destruct (decide (query = EmptyString)) as [->|Hq]; [done|].
  rewrite !search_memories_filter by done.
  apply sublist_filter_impl. intros e.
  rewrite !Is_true_true. apply spec_matches_folded.
Qed.

(** ** format_memories_as_markdown *)

Lemma substring_of_refl (s : string) : substring_of s s.
Proof.
  exists EmptyString, EmptyString. rewrite append_nil.
  induction s as [|c s IH]; [done|]. rewrite append_cons. by rewrite <- IH.
Qed.

Lemma append_assoc (a b c : string) : (a +:+ b) +:+ c = a +:+ (b +:+ c).
Proof.
  induction a as [|d a IH]; [done|]. rewrite !append_cons. by rewrite IH.
Qed.

Lemma append_empty (a : string) : a +:+ EmptyString = a.
Proof. induction a as [|d a IH]; [done|]. rewrite append_cons. by rewrite IH. Qed.

Lemma substring_of_append_r (p a b : string) :
  substring_of p b → substring_of p (a +:+ b).
Proof.
  intros (x & y & ->). exists (a +:+ x), y. by rewrite append_assoc.
Qed.

Lemma substring_of_append_l (p a b : string) :
  substring_of p a → substring_of p (a +:+ b).
Proof.
  intros (x & y & ->). exists x, (y +:+ b). by rewrite !append_assoc.
Qed.

Lemma substring_of_join (sep x : string) (l : list string) :
  x ∈ l → substring_of x (Py.join sep l).
Proof.
  induction l as [|y l IH]; [by intros ?%elem_of_nil|].
  intros [->|Hin]%elem_of_cons.
  - destruct l as [|z l]; simpl; [apply substring_of_refl|].
    apply substring_of_append_l, substring_of_refl.
  - destruct l as [|z l]; [by apply elem_of_nil in Hin|].
    change (Py.join sep (y :: z :: l))
      with (y +:+ sep +:+ Py.join sep (z :: l)).
    by apply substring_of_append_r, substring_of_append_r, IH.
Qed.

Lemma join_cons2 (sep x y : string) (l : list string) :
  Py.join sep (x :: y :: l) = x +:+ sep +:+ Py.join sep (y :: l).
Proof. reflexivity. Qed.

Lemma markdown_entry_lines (memories : list Entry) (i : nat) (e : Entry)
    (line : string) :
  memories !! i = Some e → line ∈ markdown_entry (S i) e →
  substring_of line (format_memories_as_markdown memories).
Proof.
  intros Hi Hline. unfold format_memories_as_markdown.
  destruct memories as [|m l] eqn:E; [done|]. rewrite <- E in *.
  apply substring_of_join. apply elem_of_app. right.
  apply list_elem_of_join. exists (markdown_entry (S i) e). split; [done|].
  apply elem_of_lookup_imap. by exists i, e.
Qed.

(** X6: the markdown listing of no entry is the sentence that says so; the
    listing of entries opens with the title and their number, and shows of
    each entry a heading with its position, counted from 1, and its author,
    then its id and its content. *)
Theorem format_memories_as_markdown_lists (memories : list Entry) :
  format_memories_as_markdown [] = "No memory entries found."
  ∧ (memories ≠ [] →
     String.prefix
       ("# Shared Memory" +:+ Py.nl +:+ Py.nl +:+ "Total entries: "
        +:+ Py.str_nat (length memories) +:+ Py.nl +:+ Py.nl)
       (format_memories_as_markdown memories) = true)
  ∧ ∀ i e, memories !! i = Some e →
      substring_of
        ("## Entry " +:+ Py.str_nat (S i) +:+ ": "
         +:+ default "unknown" (agent_name e))
        (format_memories_as_markdown memories)
      ∧ substring_of ("**ID**: `" +:+ default "unknown" (entry_id e) +:+ "`")
          (format_memories_as_markdown memories)
      ∧ substring_of
          (Py.nl +:+ default EmptyString (content e) +:+ Py.nl)
          (format_memories_as_markdown memories).
Proof.
  split; [done|]. split.
  - intros Hne. destruct memories as [|m l]; [done|].
    apply prefix_spec. unfold format_memories_as_markdown.
    set (n := length (m :: l)).
    assert (∃ x rest, mjoin (imap (fun i entry => markdown_entry (S i) entry)
                               (m :: l)) = x :: rest) as (x & rest & ->).
    { simpl. unfold markdown_entry at 1. simpl. by eexists _, _. }
    cbn [app]. rewrite !join_cons2. eexists.
    rewrite !append_assoc. reflexivity.
  - intros i e Hi.
    repeat split; apply (markdown_entry_lines memories i e _ Hi);
      unfold markdown_entry; set_solver.
Qed.

Lemma format_memories_as_markdown_lists_witness :
  substring_of "## Entry 2: BetaBot"
    (format_memories_as_markdown [sample_message; sample_other])
  ∧ String.prefix
      ("# Shared Memory" +:+ Py.nl +:+ Py.nl +:+ "Total entries: 2" +:+ Py.nl
       +:+ Py.nl)
      (format_memories_as_markdown [sample_message; sample_other]) = true.
Proof.
  destruct (format_memories_as_markdown_lists [sample_message; sample_other])
    as (_ & Hhead & Hentry).
  split.
  - destruct (Hentry 1 sample_other) as (H1 & _); [reflexivity|exact H1].
  - apply Hhead. discriminate.
Defined.

(** ** The normal form of tags *)

Lemma lower_char_isspace (c : ascii) :
  Py.isspace (Py.lower_char c) = Py.isspace c.
Proof. destruct c as [[] [] [] [] [] [] [] []]; reflexivity. Qed.

Lemma lower_char_lower_char (c : ascii) :
  Py.lower_char (Py.lower_char c) = Py.lower_char c.
Proof. destruct c as [[] [] [] [] [] [] [] []]; reflexivity. Qed.

Lemma lower_lower (s : string) : Py.lower (Py.lower s) = Py.lower s.
Proof.
  induction s as [|c s IH]; [done|]. simpl.
  by rewrite lower_char_lower_char, IH.
Qed.

Lemma lower_empty (s : string) : Py.lower s = EmptyString ↔ s = EmptyString.
Proof. by destruct s. Qed.

Lemma lstrip_lower (s : string) :
  Py.lstrip_with Py.isspace (Py.lower s)
  = Py.lower (Py.lstrip_with Py.isspace s).
Proof.
  induction s as [|c s IH]; [done|]. simpl.
  rewrite lower_char_isspace. by destruct (Py.isspace c).
Qed.

Lemma rstrip_lower (s : string) :
  Py.rstrip_with Py.isspace (Py.lower s)
  = Py.lower (Py.rstrip_with Py.isspace s).
Proof.
  induction s as [|c s IH]; [done|]. simpl. rewrite IH.
  destruct (Py.rstrip_with Py.isspace s) as [|d r]; simpl; [|done].
  rewrite lower_char_isspace. by destruct (Py.isspace c).
Qed.

Lemma strip_lower (s : string) : Py.strip (Py.lower s) = Py.lower (Py.strip s).
Proof. unfold Py.strip, Py.strip_with. by rewrite lstrip_lower, rstrip_lower. Qed.

Section StripTwice.
Context (sp : ascii -> bool).

Lemma lstrip_lstrip (s : string) :
  Py.lstrip_with sp (Py.lstrip_with sp s) = Py.lstrip_with sp s.
Proof.
  induction s as [|c s IH]; [done|]. simpl.
  destruct (sp c) eqn:Hc; [done|]. simpl. by rewrite Hc.
Qed.

Lemma rstrip_rstrip (s : string) :
  Py.rstrip_with sp (Py.rstrip_with sp s) = Py.rstrip_with sp s.
Proof.
  induction s as [|c s IH]; [done|]. simpl.
  destruct (Py.rstrip_with sp s) as [|d r] eqn:E.
  - destruct (sp c) eqn:Hc; [done|]. simpl. by rewrite Hc.
  - simpl in *. by rewrite IH.
Qed.

Lemma lstrip_rstrip (s : string) :
  Py.lstrip_with sp (Py.rstrip_with sp s)
  = Py.rstrip_with sp (Py.lstrip_with sp s).
Proof.
  induction s as [|c s IH]; [done|].
  destruct (sp c) eqn:Hc.
  - simpl. rewrite Hc.
    destruct (Py.rstrip_with sp s) as [|d r] eqn:E.
    + by rewrite <- IH.
    + simpl. rewrite Hc. by rewrite <- IH.
  - destruct (rstrip_keeps_head sp c s Hc) as [r Er].
    rewrite Er. simpl Py.lstrip_with. rewrite Hc. by rewrite Er.
Qed.

Lemma strip_strip (s : string) :
  Py.strip_with sp (Py.strip_with sp s) = Py.strip_with sp s.
Proof.
  unfold Py.strip_with.
  by rewrite lstrip_rstrip, lstrip_lstrip, rstrip_rstrip.
Qed.

End StripTwice.

Lemma normalize_tags_fixed (tag : string) :
  Py.strip tag ≠ EmptyString →
  let t := Py.lower (Py.strip tag) in
  t ≠ EmptyString ∧ Py.strip t = t ∧ Py.lower t = t.
Proof.
  intros Hne t. unfold t. split; [by rewrite lower_empty|].
  split; [|apply lower_lower].
  rewrite strip_lower. f_equal. apply strip_strip.
Qed.

Lemma normalize_tags_normal (v : list string) :
  Forall (fun t => t ≠ EmptyString ∧ Py.strip t = t ∧ Py.lower t = t)
    (normalize_tags v).
Proof.
  unfold normalize_tags. apply Forall_fmap, Forall_forall.
  intros tag [Hne _]%list_elem_of_filter. by apply normalize_tags_fixed.
Qed.

Lemma normalize_tags_of_normal (v : list string) :
  Forall (fun t => t ≠ EmptyString ∧ Py.strip t = t ∧ Py.lower t = t) v →
  normalize_tags v = v.
Proof.
  unfold normalize_tags. induction 1 as [|t l (Hne & Hs & Hl) _ IH]; [done|].
  rewrite filter_cons, decide_True by (by rewrite Hs).
  csimpl. rewrite IH. by rewrite Hs, Hl.
Qed.

(** X7: the normalisation of tags, which [add_memory] and [update_memory]
    apply, drops the blank tags and leaves of each other tag its lower-case
    form without surrounding white space; it keeps the order, never
    lengthens the list, and applied to its own result changes nothing. *)
Theorem normalize_tags_idempotent (v : list string) :
  normalize_tags (normalize_tags v) = normalize_tags v
  ∧ Forall (fun t => t ≠ EmptyString ∧ Py.strip t = t ∧ Py.lower t = t)
      (normalize_tags v)
  ∧ length (normalize_tags v) ≤ length v
  ∧ normalize_tags v
    = (fun tag => Py.lower (Py.strip tag))
      <$> filter (fun tag => Py.strip tag ≠ EmptyString) v.
Proof.
  split; [apply normalize_tags_of_normal, normalize_tags_normal|].
  split; [apply normalize_tags_normal|]. split; [|done].
  unfold normalize_tags. rewrite length_fmap. apply length_filter.
Qed.

(** ** Validation of the input of add_memory *)



(** ** The order of backup files *)

Section SortedTotal.
Context {A : Type} (le : A -> A -> bool).
Context (le_total : ∀ x y, le x y = true ∨ le y x = true).
Context (le_trans : ∀ x y z, le x y = true → le y z = true → le x z = true).

Lemma insert_sorted_permutation (x : A) (l : list A) :
  Py.insert_sorted le x l ≡ₚ x :: l.
Proof.
  induction l as [|y l IH]; simpl; [done|].
  destruct (le x y); [done|]. rewrite IH. apply Permutation_swap.
Qed.

Lemma sorted_permutation (l : list A) : Py.sorted le l ≡ₚ l.
Proof.
  induction l as [|x l IH]; [done|]. unfold Py.sorted in *. simpl.
  by rewrite insert_sorted_permutation, IH.
Qed.

Lemma insert_sorted_sorted (x : A) (l : list A) :
  StronglySorted (fun a b => le a b = true) l →
  StronglySorted (fun a b => le a b = true) (Py.insert_sorted le x l).
Proof.
  induction 1 as [|y l Hs IH Hall]; simpl.
  - repeat constructor.
  - destruct (le x y) eqn:Hle.
    + constructor; [by constructor|]. constructor; [done|].
      eapply Forall_impl; [exact Hall|]. simpl. eauto.
    + constructor; [done|]. rewrite insert_sorted_permutation.
      constructor; [|done]. destruct (le_total x y); congruence.
Qed.

Lemma sorted_sorted (l : list A) :
  StronglySorted (fun a b => le a b = true) (Py.sorted le l).
Proof.
  induction l as [|x l IH]; [constructor|]. by apply insert_sorted_sorted.
Qed.

End SortedTotal.

Lemma ascii_compare_lt (a b : ascii) :
  Ascii.compare a b = Lt ↔ (Py.code a < Py.code b)%N.
Proof. unfold Ascii.compare, Py.code. apply N.compare_lt_iff. Qed.

Lemma ascii_compare_gt (a b : ascii) :
  Ascii.compare a b = Gt ↔ (Py.code b < Py.code a)%N.
Proof. unfold Ascii.compare, Py.code. apply N.compare_gt_iff. Qed.

Lemma ascii_compare_eq (a b : ascii) :
  Ascii.compare a b = Eq ↔ a = b.
Proof.
  split; [apply Ascii.compare_eq_iff|]. intros ->.
  unfold Ascii.compare. apply N.compare_refl.
Qed.

Lemma string_leb_cons (a b : ascii) (s t : string) :
  String.leb (String a s) (String b t) = true
  ↔ (Py.code a < Py.code b)%N ∨ a = b ∧ String.leb s t = true.
Proof.
  unfold String.leb. simpl.
  destruct (Ascii.compare a b) eqn:E.
  - apply ascii_compare_eq in E as ->. split; [by right|].
    intros [Hlt|[_ Hs]]; [lia|done].
  - apply ascii_compare_lt in E. split; [by left|done].
  - apply ascii_compare_gt in E. split; [done|].
    intros [Hlt|[-> _]]; lia.
Qed.

Lemma string_leb_trans (s t u : string) :
  String.leb s t = true → String.leb t u = true → String.leb s u = true.
Proof.
  revert t u. induction s as [|a s IH]; intros t u.
  - by destruct u.
  - destruct t as [|b t]; [done|]. destruct u as [|c u]; [done|].
    rewrite !string_leb_cons.
    intros [H1|[-> H1]] [H2|[-> H2]]; [left; lia|by left|by left|].
    right. split; [done|]. by apply (IH t).
Qed.

Lemma string_leb_refl (s : string) : String.leb s s = true.
Proof. by destruct (String.leb_total s s). Qed.

Lemma path_le_total (p q : Path) : path_le p q = true ∨ path_le q p = true.
Proof.
  unfold path_le. rewrite (String.eqb_sym q.1 p.1).
  destruct (String.eqb p.1 q.1); apply String.leb_total.
Qed.

Lemma path_le_antisym (p q : Path) :
  path_le p q = true → path_le q p = true → p = q.
Proof.
  destruct p as [d1 n1], q as [d2 n2]. unfold path_le. simpl.
  rewrite (String.eqb_sym d2 d1).
  destruct (String.eqb_spec d1 d2) as [->|Hne].
  - intros H1 H2. f_equal. by apply String.leb_antisym.
  - intros H1 H2. destruct Hne. by apply String.leb_antisym.
Qed.

Lemma path_le_trans (p q r : Path) :
  path_le p q = true → path_le q r = true → path_le p r = true.
Proof.
  destruct p as [d1 n1], q as [d2 n2], r as [d3 n3]. unfold path_le. simpl.
  destruct (String.eqb_spec d1 d2) as [->|H12],
    (String.eqb_spec d2 d3) as [->|H23]; intros H1 H2.
  - rewrite ?String.eqb_refl. by apply (string_leb_trans _ n2).
  - by destruct (String.eqb_spec d2 d3).
  - by destruct (String.eqb_spec d1 d3).
  - destruct (String.eqb_spec d1 d3) as [->|H13].
    + destruct H12. by apply String.leb_antisym.
    + by apply (string_leb_trans _ d2).
Qed.

Lemma elem_of_sorted_backups (f : gmap Path string) (p : Path) :
  p ∈ sorted_backups f ↔ is_Some (f !! p) ∧ is_backup p.
Proof.
  unfold sorted_backups. rewrite sorted_permutation, list_elem_of_filter.
  rewrite list_elem_of_fmap. unfold is_backup. split.
  - intros [Hb ([q c] & -> & Hin%elem_of_map_to_list)]. simpl in *.
    split; [by exists c|done].
  - intros [[c Hc] Hb]. split; [done|]. exists (p, c).
    split; [done|]. by apply elem_of_map_to_list.
Qed.

Lemma NoDup_sorted_backups (f : gmap Path string) : NoDup (sorted_backups f).
Proof.
  unfold sorted_backups. rewrite sorted_permutation.
  apply NoDup_filter, NoDup_fst_map_to_list.
Qed.

Lemma sorted_backups_sorted (f : gmap Path string) :
  StronglySorted (fun p q => path_le p q = true) (sorted_backups f).
Proof. apply sorted_sorted; [apply path_le_total|apply path_le_trans]. Qed.

(** A sorted list of the backups of [f] is [sorted_backups f]. *)
Lemma sorted_backups_unique (f : gmap Path string) (l : list Path) :
  StronglySorted (fun p q => path_le p q = true) l → NoDup l →
  (∀ p, p ∈ l ↔ is_Some (f !! p) ∧ is_backup p) →
  sorted_backups f = l.
Proof.
  intros Hs Hd Hl. apply (StronglySorted_unique_strong
    (fun p q => path_le p q = true)).
  - intros p q _ _. apply path_le_antisym.
  - apply sorted_backups_sorted.
  - done.
  - apply NoDup_Permutation; [apply NoDup_sorted_backups|done|].
    intros p. by rewrite elem_of_sorted_backups, Hl.
Qed.

Lemma lookup_unlinked (l : list Path) (f : gmap Path string) (p : Path) :
  unlinked l f !! p = if decide (p ∈ l) then None else f !! p.
Proof.
  revert f. induction l as [|q l IH]; intros f.
  - rewrite decide_False; [done|]. apply not_elem_of_nil.
  - change (unlinked (q :: l) f) with (unlinked l (delete q f)).
    rewrite IH. destruct (decide (p ∈ l)) as [Hin|Hin].
    + rewrite decide_True; [done|]. by right.
    + destruct (decide (p = q)) as [->|Hne].
      * rewrite lookup_delete_eq. rewrite decide_True; [done|]. by left.
      * rewrite lookup_delete_ne by done. rewrite decide_False; [done|].
        by intros [?|?]%elem_of_cons.
Qed.

Lemma unlink_each_run (l : list Path) (w : World) :
  unlink_each l w
  = (Ok (), mkWorld (unlinked l (fs w))
              (log w ++ replicate (length l) (mkLog DEBUG "Removed old backup"))).
Proof.
  revert w. induction l as [|p l IH]; intros w.
  - destruct w. simpl. by rewrite app_nil_r.
  - simpl unlink_each. run. rewrite IH. simpl. by rewrite <- app_assoc.
Qed.

Lemma sorted_backups_unlinked (k : nat) (f : gmap Path string) :
  sorted_backups (unlinked (take k (sorted_backups f)) f)
  = drop k (sorted_backups f).
Proof.
  pose proof (NoDup_sorted_backups f) as Hd.
  pose proof (sorted_backups_sorted f) as Hs.
  rewrite <- (take_drop k (sorted_backups f)) in Hd, Hs.
  apply NoDup_app in Hd as (Hd1 & Hdis & Hd2).
  apply sorted_backups_unique; [by apply StronglySorted_app_1_r in Hs|done|].
  intros p. rewrite lookup_unlinked.
  destruct (decide (p ∈ take k (sorted_backups f))) as [Hin|Hin].
  - split; [intros Hp; by destruct (Hdis p)|]. by intros [[? [=]] _].
  - rewrite <- elem_of_sorted_backups.
    rewrite <- (take_drop k (sorted_backups f)) at 2.
    rewrite elem_of_app. tauto.
Qed.

(** ** cleanup_old_backups and create_backup *)

Lemma cleanup_old_backups_run (keep : nat) (w : World) :
  0 < keep →
  ∃ w',
    cleanup_old_backups keep w = (Ok (), w')
    ∧ fs w'
      = unlinked (take (length (sorted_backups (fs w)) - keep)
                    (sorted_backups (fs w))) (fs w)
    ∧ sorted_backups (fs w') = Py.last_slice keep (sorted_backups (fs w)).
Proof.
  intros Hk. unfold cleanup_old_backups. run.
  rewrite (last_slice_pos keep) by lia.
  destruct (Nat.ltb_spec keep (length (sorted_backups (fs w)))) as [Hn|Hn].
  - replace (Py.all_but_last keep (sorted_backups (fs w)))
      with (take (length (sorted_backups (fs w)) - keep)
              (sorted_backups (fs w)))
      by (destruct keep; [lia|done]).
    rewrite unlink_each_run. simpl.
    eexists. split; [reflexivity|]. simpl. split; [done|].
    apply sorted_backups_unlinked.
  - exists w. split; [done|].
    replace (length (sorted_backups (fs w)) - keep) with 0 by lia.
    by rewrite take_0, drop_0.
Qed.

Lemma sorted_by_name (l : list Path) :
  Forall is_backup l →
  StronglySorted (fun p q => path_le p q = true) l →
  StronglySorted (fun p q => String.leb p.2 q.2 = true) l.
Proof.
  intros Hall Hs. induction Hs as [|p l Hs IH Hp]; [constructor|].
  inversion_clear Hall as [|? ? [Hd _] Hl]. constructor; [by apply IH|].
  rewrite Forall_forall in Hp, Hl. apply Forall_forall. intros q Hq.
  specialize (Hp q Hq). destruct (Hl q Hq) as [Hdq _].
  unfold path_le in Hp. by rewrite Hd, Hdq, String.eqb_refl in Hp.
Qed.

(** X9: [cleanup_old_backups], asked to keep a positive number of backups,
    returns and leaves the backups that come last in the sorted order of
    their names, the newest by their stamps, at most as many as it is to
    keep; it unlinks the other backups and no other file. *)
Theorem cleanup_old_backups_keeps_newest (keep : nat) (w : World) :
  0 < keep →
  ∃ w' older,
    cleanup_old_backups keep w = (Ok (), w')
    ∧ sorted_backups (fs w) = older ++ sorted_backups (fs w')
    ∧ length (sorted_backups (fs w'))
      = Nat.min keep (length (sorted_backups (fs w)))
    ∧ StronglySorted (fun p q => String.leb p.2 q.2 = true)
        (sorted_backups (fs w))
    ∧ (∀ p, fs w' !! p = if decide (p ∈ older) then None else fs w !! p).
Proof.
  intros Hk. destruct (cleanup_old_backups_run keep w Hk) as (w' & E & Hfs & Hb).
  exists w', (take (length (sorted_backups (fs w)) - keep) (sorted_backups (fs w))).
  split; [done|]. rewrite Hb, (last_slice_pos keep) by lia.
  split; [by rewrite take_drop|]. split; [rewrite length_drop; lia|].
  split.
  - apply sorted_by_name; [|apply sorted_backups_sorted].
    apply Forall_forall. by intros p [_ Hp]%elem_of_sorted_backups.
  - intros p. rewrite Hfs. apply lookup_unlinked.
Qed.

Lemma cleanup_old_backups_keeps_newest_witness :
  ∃ w',
    cleanup_old_backups 1
      (mkWorld (list_to_map
         [((BACKUP_DIR, "memory_backup_20250101_000000.json"), "old");
          ((BACKUP_DIR, "memory_backup_20250102_000000.json"), "new");
          (MEMORY_FILE, "[]")]) []) = (Ok (), w')
    ∧ sorted_backups (fs w')
      = [(BACKUP_DIR, "memory_backup_20250102_000000.json")]
    ∧ fs w' !! MEMORY_FILE = Some "[]".
Proof.
  destruct (cleanup_old_backups_keeps_newest 1
    (mkWorld (list_to_map
         [((BACKUP_DIR, "memory_backup_20250101_000000.json"), "old");
          ((BACKUP_DIR, "memory_backup_20250102_000000.json"), "new");
          (MEMORY_FILE, "[]")]) [])) as (w' & older & E & Hs & Hn & _ & Hfs);
    [lia|].
  exists w'. split; [exact E|].
  apply (f_equal snd) in E. vm_compute in E. subst w'.
  split; vm_compute; reflexivity.
Defined.

Lemma endswith_append (a suffix : string) :
  Py.endswith suffix (a +:+ suffix) = true.
Proof.
  induction a as [|c a IH].
  - rewrite append_nil. destruct suffix; simpl; [done|].
    by rewrite Ascii.eqb_refl, String.eqb_refl.
  - rewrite append_cons. simpl. rewrite IH. apply orb_true_r.
Qed.

Lemma is_backup_backup_file (env : Env) : is_backup (backup_file env).
Proof.
  split; [done|]. unfold backup_file, fnmatch_backup. cbn [snd].
  apply Is_true_true, andb_true_iff. split.
  - apply prefix_spec. by eexists.
  - rewrite <- append_assoc. apply endswith_append.
Qed.

Lemma not_backup_storage (name : string) : ¬ is_backup (STORAGE_DIR, name).
Proof. by intros [[=] _]. Qed.

Lemma length_sorted_backups_insert (f : gmap Path string) (p : Path)
    (c : string) :
  length (sorted_backups (<[p := c]> f)) ≤ S (length (sorted_backups f)).
Proof.
  change (S (length (sorted_backups f))) with (length (p :: sorted_backups f)).
  apply submseteq_length, NoDup_submseteq; [apply NoDup_sorted_backups|].
  intros q [Hq Hb]%elem_of_sorted_backups.
  destruct (decide (q = p)) as [->|Hne]; [by left|]. right.
  rewrite lookup_insert_ne in Hq by done. by apply elem_of_sorted_backups.
Qed.

Section BackupFacts.
Context `{Library}.

(** What [create_backup] does to the files. *)
Lemma create_backup_run (env : Env) (w : World) :
  ∃ w',
    create_backup env w = (Ok (), w')
    ∧ match fs w !! MEMORY_FILE with
      | None => w' = w
      | Some c =>
          if decide (c = EmptyString) then w' = w
          else if backup_fault env then fs w' = fs w
          else
            let f1 := <[backup_file env := c]> (fs w) in
            fs w'
            = unlinked (take (length (sorted_backups f1) - 10)
                          (sorted_backups f1)) f1
            ∧ sorted_backups (fs w') = Py.last_slice 10 (sorted_backups f1)
      end.
Proof.
  unfold create_backup. run.
  destruct (fs w !! MEMORY_FILE) as [c|] eqn:Ec; [|by exists w].
  destruct c as [|c0 c]; [by exists w|]. run.
  change (Py.len (String c0 c) =? 0)%nat with false.
  run. rewrite Ec. run.
  destruct (backup_fault env); run; [by eexists|].
  match goal with |- context [cleanup_old_backups 10 ?w0] =>
    destruct (cleanup_old_backups_run 10 w0) as (w' & E & Hfs & Hb); [lia|] end.
  rewrite E. exists w'. split; [done|]. by split.
Qed.

Lemma create_backup_other_files (env : Env) (w w' : World) (p : Path) :
  create_backup env w = (Ok (), w') → ¬ is_backup p →
  fs w' !! p = fs w !! p.
Proof.
  intros E Hp. destruct (create_backup_run env w) as (w1 & E1 & Hrun).
  assert (w1 = w') as -> by congruence.
  destruct (fs w !! MEMORY_FILE) as [c|]; [|by subst].
  case_decide; [by subst|].
  destruct (backup_fault env); [by rewrite Hrun|].
  destruct Hrun as [-> _]. rewrite lookup_unlinked.
  rewrite decide_False.
  - apply lookup_insert_ne. intros <-. apply Hp, is_backup_backup_file.
  - intros Hin%subseteq_take%elem_of_sorted_backups. by destruct Hin.
Qed.

Lemma create_backup_under_ten (env : Env) (w w' : World) (c : string) :
  create_backup env w = (Ok (), w') →
  fs w !! MEMORY_FILE = Some c → c ≠ EmptyString → backup_fault env = false →
  length (sorted_backups (fs w)) < 10 →
  fs w' = <[backup_file env := c]> (fs w).
Proof.
  intros E Hc Hne Hf Hn. destruct (create_backup_run env w) as (w1 & E1 & Hrun).
  assert (w1 = w') as -> by congruence.
  rewrite Hc, decide_False, Hf in Hrun by done. destruct Hrun as [-> _].
  pose proof (length_sorted_backups_insert (fs w) (backup_file env) c).
  replace (length _ - 10) with 0 by lia. by rewrite take_0.
Qed.

(** X10: [create_backup] never raises and touches no file that is not a
    backup.  When the memory file is absent or empty it does nothing.
    Otherwise, unless the copy fails, it copies the content of the memory
    file to the backup named by the stamp; afterwards at most 10 backups are
    left, the last in the sorted order of their names, and with fewer than
    10 backups before the call no file is removed. *)
Theorem create_backup_copies (env : Env) (w : World) :
  ∃ w',
    create_backup env w = (Ok (), w')
    ∧ (∀ p, ¬ is_backup p → fs w' !! p = fs w !! p)
    ∧ (fs w !! MEMORY_FILE = None ∨ fs w !! MEMORY_FILE = Some EmptyString →
       w' = w)
    ∧ (∀ c, fs w !! MEMORY_FILE = Some c → c ≠ EmptyString →
       backup_fault env = false →
       sorted_backups (fs w')
       = Py.last_slice 10 (sorted_backups (<[backup_file env := c]> (fs w)))
       ∧ length (sorted_backups (fs w')) ≤ 10
       ∧ (backup_file env ∈ sorted_backups (fs w') →
          fs w' !! backup_file env = Some c)
       ∧ (length (sorted_backups (fs w)) < 10 →
          fs w' = <[backup_file env := c]> (fs w))).
Proof.
  destruct (create_backup_run env w) as (w' & E & Hrun).
  exists w'. split; [done|]. split; [|split].
  - intros p Hp. by apply (create_backup_other_files env w).
  - intros [Hc|Hc]; rewrite Hc in Hrun; [done|]. by rewrite decide_True in Hrun.
  - intros c Hc Hne Hf. rewrite Hc, decide_False, Hf in Hrun by done.
    destruct Hrun as [Hfs Hb]. split; [done|]. split; [|split].
    + rewrite Hb, (last_slice_pos 10) by lia. rewrite length_drop. lia.
    + intros Hleft. rewrite Hb, (last_slice_pos 10) in Hleft by lia.
      rewrite Hfs, lookup_unlinked.
      destruct (decide (backup_file env ∈ _)) as [Hin|Hin];
        [|apply lookup_insert_eq].
      pose proof (NoDup_sorted_backups (<[backup_file env := c]> (fs w))) as Hd.
      rewrite <- (take_drop (length (sorted_backups
        (<[backup_file env := c]> (fs w))) - 10)) in Hd.
      apply NoDup_app in Hd as (_ & Hdis & _).
      by destruct (Hdis _ Hin).
    + intros Hn. by apply (create_backup_under_ten env w w' c).
Qed.

(** ** ensure_storage_structure *)

Lemma atomic_write_fails (fault : WriteFault) (file_path : Path)
    (content : string) (w : World) :
  ∃ w',
    atomic_write (Some fault) file_path content w = (Raise OSError, w')
    ∧ fs w' !! temp_path file_path = None
    ∧ (∀ p, p ≠ temp_path file_path → fs w' !! p = fs w !! p)
    ∧ log w' = log w.
Proof.
  unfold atomic_write.
  destruct fault; simpl; eexists; (split; [reflexivity|]); simpl.
  all: settle_clean_up; repeat split; try done.
  all: intros p Hp; settle_clean_up; try done.
  all: rewrite ?lookup_delete_ne, ?lookup_insert_ne by done; done.
Qed.

Lemma atomic_write_writes (file_path : Path) (content : string) (w : World) :
  ∃ w',
    atomic_write None file_path content w = (Ok (), w')
    ∧ fs w' !! file_path = Some content
    ∧ fs w' !! temp_path file_path = None
    ∧ (∀ p, p ≠ file_path → p ≠ temp_path file_path → fs w' !! p = fs w !! p)
    ∧ log w' = log w.
Proof.
  pose proof (temp_path_fresh file_path) as Hne.
  unfold atomic_write. simpl. eexists. split; [done|]. simpl.
  split; [apply lookup_insert_eq|]. split.
  - rewrite lookup_insert_ne by (by apply not_eq_sym). apply lookup_delete_eq.
  - split; [|done]. intros p H1 H2.
    rewrite lookup_insert_ne, lookup_delete_ne, !lookup_insert_ne by done. done.
Qed.

Lemma ensure_storage_structure_missing_fails (env : Env) (w : World) :
  fs w !! MEMORY_FILE = None → ∀ fault, init_fault env = Some fault →
  ∃ w', ensure_storage_structure env w = (Raise OSError, w').
Proof.
  intros Hc fault Ei. unfold ensure_storage_structure.
  rewrite (bind_ok _ _ w w (fs w)) by done.
  rewrite decide_True by done. rewrite Ei.
  match goal with |- context [atomic_write (Some fault) MEMORY_FILE ?c] =>
    destruct (atomic_write_fails fault MEMORY_FILE c w) as (w1 & E1 & _) end.
  rewrite (bind_raise _ _ _ _ _ E1). by exists w1.
Qed.

(** X11: [ensure_storage_structure] leaves the world as it is when the
    memory file exists.  When the file is missing it writes the empty
    container of the current version, stamped with the time, and logs it;
    and when that write fails it raises [OSError] and leaves neither the
    file nor the temporary file behind.  No other file is touched. *)
Theorem ensure_storage_structure_outcomes (env : Env) (w : World) :
  (fs w !! MEMORY_FILE ≠ None → ensure_storage_structure env w = (Ok (), w))
  ∧ (fs w !! MEMORY_FILE = None → init_fault env = None →
     ∃ w',
       ensure_storage_structure env w = (Ok (), w')
       ∧ fs w' !! MEMORY_FILE
         = Some (json_dumps_storage
                   (mkStorage STORAGE_VERSION [] (Py.VStr (now env 0))
                      (now env 1)))
       ∧ log w' = log w ++ [mkLog INFO "Initialized new memory storage"]
       ∧ fs w' !! temp_path MEMORY_FILE = None
       ∧ ∀ p, p ≠ MEMORY_FILE → p ≠ temp_path MEMORY_FILE →
           fs w' !! p = fs w !! p)
  ∧ (fs w !! MEMORY_FILE = None → init_fault env ≠ None →
     ∃ w',
       ensure_storage_structure env w = (Raise OSError, w')
       ∧ fs w' !! MEMORY_FILE = None
       ∧ log w' = log w
       ∧ fs w' !! temp_path MEMORY_FILE = None
       ∧ ∀ p, p ≠ temp_path MEMORY_FILE → fs w' !! p = fs w !! p).
Proof.
  split; [apply ensure_existing|]. split.
  - intros Hc Hi. unfold ensure_storage_structure.
    rewrite (bind_ok _ _ w w (fs w)) by done.
    rewrite decide_True by done. rewrite Hi.
    match goal with |- context [atomic_write None MEMORY_FILE ?c] =>
      destruct (atomic_write_writes MEMORY_FILE c w)
        as (w1 & E1 & Hf & Ht & Ho & Hl) end.
    rewrite (bind_ok _ _ _ _ _ E1). eexists. split; [reflexivity|].
    simpl. by rewrite Hl.
  - intros Hc Hi. destruct (init_fault env) as [fault|] eqn:Ei; [|done].
    unfold ensure_storage_structure.
    rewrite (bind_ok _ _ w w (fs w)) by done.
    rewrite decide_True by done. rewrite Ei.
    match goal with |- context [atomic_write (Some fault) MEMORY_FILE ?c] =>
      destruct (atomic_write_fails fault MEMORY_FILE c w)
        as (w1 & E1 & Ht & Ho & Hl) end.
    rewrite (bind_raise _ _ _ _ _ E1). exists w1. split; [done|].
    split; [|done]. rewrite Ho; [done|]. apply not_eq_sym, temp_path_fresh.
Qed.

(** ** load_memories: the lock and the errors *)

Lemma load_memories_existing (env : Env) (w : World) (c : string) :
  fs w !! MEMORY_FILE = Some c →
  match load_lock env with
  | Acquired =>
      ∃ w', load_memories env w = (Ok (loaded (fs w) c), w') ∧ fs w' = fs w
  | TimedOut =>
      load_memories env w
      = (Raise FileLockTimeout,
         mkWorld (fs w) (log w ++ [mkLog ERROR "File lock timeout"]))
  | LockFailed =>
      load_memories env w
      = (Ok [],
         mkWorld (fs w)
           (log w ++ [mkLog ERROR "Unexpected error loading memories"]))
  end.
Proof.
  intros Hc. destruct (load_lock env) eqn:Hl.
  - destruct (load_memories_acquired env w c Hl Hc) as (w' & ? & E & Hfs & _).
    by exists w'.
  - unfold load_memories, ensure_storage_structure, file_lock.
    rewrite Hl. run. rewrite Hc. run.
    rewrite decide_False by done. run. rewrite Hc. run.
    by rewrite decide_False by done.
  - unfold load_memories, ensure_storage_structure, file_lock.
    rewrite Hl. run. rewrite Hc. run.
    by rewrite decide_False by done.
Qed.

(** X12: over an existing memory file, a lock that times out makes
    [load_memories] raise [FileLockTimeout], after an error is logged;
    a lock that fails in another way makes it return the empty list,
    whatever the file holds, with an error logged.  The files are left as
    they are. *)
Theorem load_memories_lock_failures (env : Env) (w : World) (c : string) :
  fs w !! MEMORY_FILE = Some c →
  (load_lock env = TimedOut →
   load_memories env w
   = (Raise FileLockTimeout,
      mkWorld (fs w) (log w ++ [mkLog ERROR "File lock timeout"])))
  ∧ (load_lock env = LockFailed →
     load_memories env w
     = (Ok [],
        mkWorld (fs w)
          (log w ++ [mkLog ERROR "Unexpected error loading memories"]))).
Proof.
  intros Hc. pose proof (load_memories_existing env w c Hc) as Hl.
  split; intros E; by rewrite E in Hl.
Qed.

(** X13: [load_memories] changes no file when the memory file exists, and
    it raises in two cases only: [FileLockTimeout] when the lock times out,
    and [OSError] when the memory file is missing and the write that is to
    create it fails. *)
Theorem load_memories_raises_only (env : Env) (w : World) :
  (fs w !! MEMORY_FILE ≠ None → fs (load_memories env w).2 = fs w)
  ∧ ∀ e w',
      load_memories env w = (Raise e, w') →
      e = FileLockTimeout ∧ load_lock env = TimedOut
      ∨ e = OSError ∧ fs w !! MEMORY_FILE = None ∧ init_fault env ≠ None.
Proof.
  assert (∀ w0 c, fs w0 !! MEMORY_FILE = Some c →
            fs (load_memories env w0).2 = fs w0
            ∧ ∀ e w', load_memories env w0 = (Raise e, w') →
                e = FileLockTimeout ∧ load_lock env = TimedOut) as Hex.
  { intros w0 c Hc. pose proof (load_memories_existing env w0 c Hc) as Hl.
    destruct (load_lock env).
    - destruct Hl as (w1 & -> & Hfs). split; [done|]. by intros e w' [=].
    - rewrite Hl. split; [done|]. by intros e w' [= <- _].
    - rewrite Hl. split; [done|]. by intros e w' [=]. }
  split.
  - intros Hc. destruct (fs w !! MEMORY_FILE) as [c|] eqn:Ec; [|done].
    by apply (Hex w c).
  - intros e w' E. destruct (fs w !! MEMORY_FILE) as [c|] eqn:Ec.
    { left. destruct (Hex w c Ec) as [_ Hr]. by apply (Hr e w'). }
    destruct (init_fault env) as [fault|] eqn:Ei.
    + right.
      destruct (ensure_storage_structure_missing_fails env w Ec fault Ei)
        as (w1 & E1).
      unfold load_memories in E. rewrite (bind_raise _ _ _ _ _ E1) in E.
      by injection E as <- _.
    + destruct (ensure_ok env w Ei) as (w1 & E1 & Hex1).
      rewrite (load_after_ensure env w w1 E1 Hex1) in E.
      destruct (fs w1 !! MEMORY_FILE) as [c|] eqn:Ec1; [|done].
      left. destruct (Hex w1 c Ec1) as [_ Hr]. by apply (Hr e w').
Qed.

(** ** save_memories: the lock and the errors *)

(** [save_memories] over an existing file, up to its write. *)
Lemma save_memories_run (env : Env) (memories : list Entry) (w : World)
    (c : string) :
  fs w !! MEMORY_FILE = Some c →
  ∃ w3 w4,
    fs w3 = fs w ∧ create_backup env w3 = (Ok (), w4)
    ∧ save_memories env memories w
      = match atomic_write (write_fault env) MEMORY_FILE
                (json_dumps_storage
                   (mkStorage STORAGE_VERSION (kept memories)
                      (preserved_created_at env c) (now env 2))) w4 with
        | (Ok _, w5) =>
            (Ok (),
             mkWorld (fs w5)
               (log w5 ++ [mkLog DEBUG "Memories saved successfully"]))
        | (Raise e, w5) =>
            (Raise e,
             mkWorld (fs w5)
               (log w5
                ++ [mkLog ERROR
                      match e with
                      | FileLockTimeout => "File lock timeout"
                      | _ => "Failed to save memories"
                      end]))
        end.
Proof.
  intros Hc. unfold save_memories.
  rewrite (bind_ok _ _ w w ()) by (apply ensure_existing; congruence).
  match goal with |- context [try_except (?r ≫= ?k) _] =>
    assert (∃ w2, r w = (Ok (kept memories), w2) ∧ fs w2 = fs w)
      as (w2 & E2 & F2)
  end.
  { unfold kept. destruct (MAX_ENTRIES <? length memories)%nat; by eexists. }
  rewrite <- F2 in Hc.
  match goal with |- context [try_except (?r ≫= ?k) ?h] =>
    unfold try_except at 1; rewrite (bind_ok _ _ _ _ _ E2)
  end.
  match goal with |- context [(?m0 ≫= ?k) w2] =>
    assert (∃ w3 existing, m0 w2 = (Ok existing, w3)
            ∧ fs w3 = fs w2
            ∧ match existing with
              | Py.VNone => Py.VStr (now env 3)
              | other => other
              end = preserved_created_at env c)
      as (w3 & existing & E3 & F3 & Ec)
  end.
  { unfold preserved_created_at, file_lock, existing_created_at.
    destruct (save_lock env); run; rewrite ?Hc; run.
    2,3: by eexists _, _.
    rewrite decide_False by done. run. rewrite Hc. run.
    case_decide; run; [by eexists _, _|].
    destruct (json_loads c) as [[?|? [v|]|?]|]; run; by eexists _, _. }
  rewrite (bind_ok _ _ _ _ _ E3). rewrite Ec.
  destruct (returns_create_backup env w3) as ([] & w4 & E4).
  rewrite (bind_ok _ _ _ _ _ E4).
  exists w3, w4. split; [congruence|]. split; [done|].
  unfold mbind, M_bind.
  destruct (atomic_write _ _ _ w4) as [[[]|e] w5]; [done|].
  by destruct e.
Qed.

(** X14: [save_memories] raises nothing but [OSError], whatever the lock
    does: a lock that is not acquired is passed over.  When the write over
    an existing memory file fails, [save_memories] raises [OSError] after
    logging the failure, and the memory file holds what it held, with no
    temporary file left. *)
Theorem save_memories_fails_safely (env : Env) (memories : list Entry)
    (w : World) :
  (∀ e w', save_memories env memories w = (Raise e, w') → e = OSError)
  ∧ ∀ c fault,
      fs w !! MEMORY_FILE = Some c → write_fault env = Some fault →
      ∃ w',
        save_memories env memories w = (Raise OSError, w')
        ∧ fs w' !! MEMORY_FILE = Some c
        ∧ fs w' !! temp_path MEMORY_FILE = None
        ∧ mkLog ERROR "Failed to save memories" ∈ log w'.
Proof.
  assert (∀ w0 c, fs w0 !! MEMORY_FILE = Some c →
            ∀ e w', save_memories env memories w0 = (Raise e, w') →
                    e = OSError) as Hex.
  { intros w0 c Hc e w' E.
    destruct (save_memories_run env memories w0 c Hc)
      as (w3 & w4 & _ & _ & Es).
    rewrite Es in E. clear Es.
    destruct (write_fault env) as [fault|].
    - match type of E with context [atomic_write (Some fault) MEMORY_FILE ?s] =>
        destruct (atomic_write_fails fault MEMORY_FILE s w4) as (w5 & E5 & _) end.
      rewrite E5 in E. by injection E as <- _.
    - match type of E with context [atomic_write None MEMORY_FILE ?s] =>
        destruct (atomic_write_writes MEMORY_FILE s w4) as (w5 & E5 & _) end.
      rewrite E5 in E. done. }
  split.
  - intros e w' E. destruct (fs w !! MEMORY_FILE) as [c|] eqn:Ec.
    { by apply (Hex w c Ec e w'). }
    destruct (init_fault env) as [fault|] eqn:Ei.
    + destruct (ensure_storage_structure_missing_fails env w Ec fault Ei)
        as (w1 & E1).
      unfold save_memories in E. rewrite (bind_raise _ _ _ _ _ E1) in E.
      by injection E as <- _.
    + destruct (ensure_ok env w Ei) as (w1 & E1 & Hex1).
      destruct (fs w1 !! MEMORY_FILE) as [c|] eqn:Ec1; [|done].
      apply (Hex w1 c Ec1 e w'). rewrite <- E. unfold save_memories.
      rewrite (bind_ok _ _ _ _ _ E1).
      by rewrite (bind_ok _ _ w1 w1 ()) by (apply ensure_existing; congruence).
  - intros c fault Hc Hf.
    destruct (save_memories_run env memories w c Hc)
      as (w3 & w4 & F3 & E4 & Es).
    rewrite Es, Hf. clear Es.
    assert (∀ p, ¬ is_backup p → fs w4 !! p = fs w !! p) as Hkeep.
    { intros p Hp. rewrite <- F3. by apply (create_backup_other_files env). }
    match goal with |- context [atomic_write (Some fault) MEMORY_FILE ?s] =>
      destruct (atomic_write_fails fault MEMORY_FILE s w4)
        as (w5 & E5 & Ht & Ho & _) end.
    rewrite E5. eexists. split; [reflexivity|]. simpl.
    split; [|split; [done|set_solver]].
    rewrite Ho by apply not_eq_sym, temp_path_fresh.
    rewrite Hkeep; [done|]. apply not_backup_storage.
Qed.

(** X15: when its write succeeds over an existing memory file,
    [save_memories] keeps the [created_at] of a file that parses to a
    dictionary with that key, if the value is not [null] and provided that
    it holds the lock; it stamps the container with the time of the call
    when the lock is not acquired, and when the file is blank, is a bare
    list, or does not parse. *)
Theorem save_memories_created_at (env : Env) (memories : list Entry)
    (w : World) (c : string) :
  fs w !! MEMORY_FILE = Some c → write_fault env = None →
  ∃ w' created,
    save_memories env memories w = (Ok (), w')
    ∧ fs w' !! MEMORY_FILE
      = Some (json_dumps_storage
                (mkStorage STORAGE_VERSION (kept memories) created (now env 2)))
    ∧ (save_lock env ≠ Acquired → created = Py.VStr (now env 3))
    ∧ (Py.strip c = EmptyString → created = Py.VStr (now env 3))
    ∧ (json_loads c = None → created = Py.VStr (now env 3))
    ∧ (∀ l, json_loads c = Some (DocList l) → created = Py.VStr (now env 3))
    ∧ (∀ es v, save_lock env = Acquired → Py.strip c ≠ EmptyString →
         json_loads c = Some (DocDict es (Some v)) → v ≠ Py.VNone →
         created = v).
Proof.
  intros Hc Hw.
  destruct (save_memories_overwrites env memories w c Hc Hw) as (w' & E & Hfs).
  exists w', (preserved_created_at env c). split; [done|]. split; [done|].
  unfold preserved_created_at. repeat split.
  - intros Hl. by destruct (save_lock env).
  - intros Hb. destruct (save_lock env); [|done..]. by rewrite decide_True.
  - intros Hj. destruct (save_lock env); [|done..]. case_decide; [done|].
    by rewrite Hj.
  - intros l Hj. destruct (save_lock env); [|done..]. case_decide; [done|].
    by rewrite Hj.
  - intros es v Hl Hb Hj Hv. rewrite Hl, decide_False, Hj by done.
    by destruct v.
Qed.

(** ** add_memory and get_memory *)

Lemma find_entry_snoc (earlier : list Entry) (entry : Entry) (eid : string) :
  Forall (fun m => entry_id m ≠ Some eid) earlier →
  entry_id entry = Some eid →
  find_entry_by_id (earlier ++ [entry]) eid = Some entry.
Proof.
  intros Hall He. induction Hall as [|m l Hm _ IH]; simpl.
  - by rewrite decide_True.
  - by rewrite decide_False.
Qed.

(** X16: over an existing memory file, with the lock and a write that
    succeeds, [add_memory] appends one entry to the entries it loaded and
    persists the list, rotated to the capacity, with the new entry last;
    the entry carries the id drawn, the time, the author, content, tags,
    priority and metadata of the input, the word count of the content, and
    no update time; the number reported is the number loaded plus one.  Once
    the file is read back, [get_memory] with the id returns that entry, if
    the id is a UUID that no loaded entry carried. *)
Theorem add_memory_then_get_memory (env env' : Env) (params : AddMemoryInput)
    (w : World) (c : string) :
  let memories := loaded (fs w) c in
  let entry :=
    mkEntry (Some (uuid4 env)) (Some (now env 4)) (Some (add_agent_name params))
      (Some (add_content params)) (Some (count_words (add_content params)))
      (Some (add_tags params)) (Some (Priority_value (add_priority params)))
      (Some (add_metadata params)) (Some None) in
  let sd :=
    mkStorage STORAGE_VERSION (kept (memories ++ [entry]))
      (preserved_created_at env c) (now env 2) in
  load_lock env = Acquired → fs w !! MEMORY_FILE = Some c →
  write_fault env = None →
  ∃ w1 earlier,
    add_memory env params w
    = (Ok (Added (uuid4 env) (length memories + 1) (now env 4)
             (add_agent_name params) (count_words (add_content params))
             (add_tags params) (Priority_value (add_priority params))), w1)
    ∧ fs w1 !! MEMORY_FILE = Some (json_dumps_storage sd)
    ∧ storage_entries sd = earlier ++ [entry]
    ∧ sublist earlier memories
    ∧ (reads_back sd → load_lock env' = Acquired →
       validate_entry_id (uuid4 env) = true →
       Forall (fun m => entry_id m ≠ Some (uuid4 env)) memories →
       ∃ w2, get_memory env' (uuid4 env) JSON w1 = (Ok (Found entry), w2)).
Proof.
  intros memories entry sd Hl Hc Hw.
  destruct (load_memories_acquired env w c Hl Hc) as (w0 & ? & El & Hfs0 & _).
  fold memories in El.
  rewrite <- Hfs0 in Hc.
  destruct (save_memories_overwrites env (memories ++ [entry]) w0 c Hc Hw)
    as (w1 & Es & Hfs).
  assert (∃ earlier, kept (memories ++ [entry]) = earlier ++ [entry]
                     ∧ sublist earlier memories) as (earlier & Ek & Hsub).
  { destruct (decide (MAX_ENTRIES < length (memories ++ [entry]))) as [Hn|Hn].
    - rewrite (kept_over _ Hn). rewrite length_app in *. simpl in *.
      exists (drop (length memories + 1 - MAX_ENTRIES) memories).
      split; [|apply sublist_drop].
      apply drop_app_le. unfold MAX_ENTRIES in *. lia.
    - rewrite kept_within by lia. by exists memories. }
  eexists _, earlier. split.
  { unfold add_memory. erewrite try_ok; [reflexivity|].
    rewrite (bind_ok _ _ _ _ _ El). fold entry.
    rewrite (bind_ok _ _ _ _ _ Es). rewrite length_app. reflexivity. }
  split; [exact Hfs|]. split; [exact Ek|]. split; [done|].
  intros Hrb Hl' Hv Hfresh. simpl in Hfs.
  match type of Hfs with ?f !! _ = _ =>
    destruct (load_reads_back env' (mkWorld f
      (log w1 ++ [mkLog INFO "Memory entry added"])) _ Hl' Hfs Hrb)
      as (w2 & E2 & _) end.
  unfold get_memory. eexists. erewrite try_ok; [reflexivity|].
  rewrite Hv. cbn [negb]. rewrite (bind_ok _ _ _ _ _ E2).
  cbn [storage_entries sd]. rewrite Ek.
  rewrite find_entry_snoc; [reflexivity| |done].
  eapply Forall_forall. intros m Hm.
  rewrite Forall_forall in Hfresh. apply Hfresh.
  by apply (elem_of_sublist earlier).
Qed.

(** ** update_memory *)

(** X17: the assignments of [update_memory] never change the id, the
    creation time or the author of the entry; they set the content and,
    with it, its word count, the tags in their normal form, the priority
    and the metadata, each only when it is given, stamp [updated_at], and
    report the fields given, in that order. *)
Theorem apply_update_fields (env : Env) (params : UpdateMemoryInput)
    (entry : Entry) :
  let entry' := (apply_update env params entry).1 in
  entry_id entry' = entry_id entry
  ∧ timestamp entry' = timestamp entry
  ∧ agent_name entry' = agent_name entry
  ∧ content entry'
    = from_option Some (content entry) (upd_content params)
  ∧ word_count entry'
    = from_option (fun v => Some (count_words v)) (word_count entry)
        (upd_content params)
  ∧ tags entry'
    = from_option (fun v => Some (normalize_tags v)) (tags entry)
        (upd_tags params)
  ∧ priority entry'
    = from_option (fun p => Some (Priority_value p)) (priority entry)
        (upd_priority params)
  ∧ metadata entry' = from_option Some (metadata entry) (upd_metadata params)
  ∧ updated_at entry' = Some (Some (now env 5))
  ∧ (apply_update env params entry).2
    = from_option (fun _ => ["content"]) [] (upd_content params)
      ++ from_option (fun _ => ["tags"]) [] (upd_tags params)
      ++ from_option (fun _ => ["priority"]) [] (upd_priority params)
      ++ from_option (fun _ => ["metadata"]) [] (upd_metadata params).
Proof.
  destruct params as [eid [text|] [tgs|] [prio|] [meta|]]; by cbv zeta.
Qed.

(** X18: over an existing memory file that holds an entry with the given
    valid id, with the lock and a write that succeeds, [update_memory]
    replaces the first entry that carries the id by the entry with the
    assignments applied, leaves every other entry as it is and in its
    place, persists the list, rotated to the capacity, and reports the
    fields it was given. *)
Theorem update_memory_replaces_entry (env : Env) (params : UpdateMemoryInput)
    (w : World) (c : string) (entry : Entry) :
  let memories := loaded (fs w) c in
  load_lock env = Acquired → fs w !! MEMORY_FILE = Some c →
  validate_entry_id (upd_entry_id params) = true →
  find_entry_by_id memories (upd_entry_id params) = Some entry →
  write_fault env = None →
  ∃ before after w1,
    memories = before ++ entry :: after
    ∧ Forall (fun m => entry_id m ≠ Some (upd_entry_id params)) before
    ∧ update_memory env params w
      = (Ok (Updated (upd_entry_id params) (apply_update env params entry).2
               (now env 5)), w1)
    ∧ fs w1 !! MEMORY_FILE
      = Some (json_dumps_storage
                (mkStorage STORAGE_VERSION
                   (kept (before ++ (apply_update env params entry).1 :: after))
                   (preserved_created_at env c) (now env 2))).
Proof.
  intros memories Hl Hc Hv Hf Hw.
  destruct (load_memories_acquired env w c Hl Hc) as (w0 & ? & El & Hfs0 & _).
  fold memories in El.
  destruct (find_entry_split _ _ _ Hf) as (before & after & Hs & He & Hb).
  rewrite <- Hfs0 in Hc.
  destruct (save_memories_overwrites env
              (before ++ (apply_update env params entry).1 :: after) w0 c Hc Hw)
    as (w1 & Es & Hfs).
  exists before, after. eexists. split; [done|]. split; [done|].
  split.
  { unfold update_memory. erewrite try_ok; [reflexivity|].
    rewrite Hv. cbn [negb]. rewrite (bind_ok _ _ _ _ _ El). rewrite Hf.
    destruct (apply_update env params entry) as [entry' fields] eqn:Ea.
    rewrite Hs, (assign_found_split _ _ _ _ _ Hb He).
    simpl in Es. rewrite (bind_ok _ _ _ _ _ Es). reflexivity. }
  exact Hfs.
Qed.


(** X20: [update_memory], [delete_memory] and [get_memory], given an id
    that is not a UUID, answer that the id is invalid and leave the world
    as it is: they do not load the store. *)
Theorem invalid_entry_id_leaves_world (env : Env) (params : UpdateMemoryInput)
    (eid : string) (fmt : ResponseFormat) (w : World) :
  (validate_entry_id (upd_entry_id params) = false →
   update_memory env params w = (Ok (InvalidEntryId (upd_entry_id params)), w))
  ∧ (validate_entry_id eid = false →
     delete_memory env eid w = (Ok (InvalidEntryId eid), w)
     ∧ get_memory env eid fmt w = (Ok (InvalidEntryId eid), w)).
Proof.
  split; [|intros Hv; split]; [intros Hv|..].
  - unfold update_memory. by rewrite Hv.
  - unfold delete_memory. by rewrite Hv.
  - unfold get_memory. by rewrite Hv.
Qed.

(** X21: over an existing memory file, with the lock, [update_memory],
    [delete_memory] and [get_memory], given a valid id that no entry
    carries, answer that the entry is not found and change no file. *)
Theorem entry_not_found_leaves_files (env : Env) (params : UpdateMemoryInput)
    (eid : string) (fmt : ResponseFormat) (w : World) (c : string) :
  load_lock env = Acquired → fs w !! MEMORY_FILE = Some c →
  (validate_entry_id (upd_entry_id params) = true →
   find_entry_by_id (loaded (fs w) c) (upd_entry_id params) = None →
   ∃ w', update_memory env params w
         = (Ok (EntryNotFound (upd_entry_id params)), w')
         ∧ fs w' = fs w)
  ∧ (validate_entry_id eid = true →
     find_entry_by_id (loaded (fs w) c) eid = None →
     (∃ w', delete_memory env eid w = (Ok (EntryNotFound eid), w')
            ∧ fs w' = fs w)
     ∧ (∃ w', get_memory env eid fmt w = (Ok (EntryNotFound eid), w')
              ∧ fs w' = fs w)).
Proof.
  intros Hl Hc.
  destruct (load_memories_acquired env w c Hl Hc) as (w0 & ? & El & Hfs0 & _).
  split; [|intros Hv Hf; split]; [intros Hv Hf|..].
  - exists w0. split; [|done]. unfold update_memory.
    erewrite try_ok; [reflexivity|].
    rewrite Hv. cbn [negb]. rewrite (bind_ok _ _ _ _ _ El). by rewrite Hf.
  - exists w0. split; [|done]. unfold delete_memory.
    erewrite try_ok; [reflexivity|].
    rewrite Hv. cbn [negb]. rewrite (bind_ok _ _ _ _ _ El). by rewrite Hf.
  - exists w0. split; [|done]. unfold get_memory.
    erewrite try_ok; [reflexivity|].
    rewrite Hv. cbn [negb]. rewrite (bind_ok _ _ _ _ _ El). by rewrite Hf.
Qed.

(** ** search_memory *)

(** X22: over an existing memory file, with the lock, [search_memory]
    changes no file and returns the entries that [search_memories] finds
    among those loaded, cut to the first ones when a positive limit is
    given; in JSON it reports their number, the number after the cut, and
    in markdown it puts the query in a title over the listing, unless
    nothing was found. *)
Theorem search_memory_returns (env : Env) (params : SearchMemoryInput)
    (w : World) (c : string) :
  let matches :=
    search_memories (loaded (fs w) c) (search_query params)
      (search_case_sensitive params) in
  load_lock env = Acquired → fs w !! MEMORY_FILE = Some c →
  ∃ w' results r,
    search_memory env params w = (Ok r, w')
    ∧ fs w' = fs w
    ∧ (∀ k, search_limit params = Some k → 0 < k →
         results = take k matches ∧ length results ≤ k)
    ∧ (search_limit params = None ∨ search_limit params = Some 0 →
       results = matches)
    ∧ match search_response_format params with
      | JSON => r = SearchResults (search_query params) (length results) results
      | MARKDOWN =>
          (results = [] → r = SearchText "No memory entries found.")
          ∧ (results ≠ [] →
             r = SearchText
                   ("# Search Results for: " +:+ quotation_mark
                    +:+ search_query params +:+ quotation_mark
                    +:+ Py.nl +:+ Py.nl +:+ format_memories_as_markdown results))
      end.
Proof.
  intros matches Hl Hc.
  destruct (load_memories_acquired env w c Hl Hc) as (w0 & ? & El & Hfs0 & _).
  set (results :=
    match search_limit params with
    | Some limit =>
        if negb (limit =? 0)%nat && (limit <? length matches)%nat
        then Py.first_slice limit matches
        else matches
    | None => matches
    end).
  eexists _, results, _. split.
  { unfold search_memory. erewrite try_ok; [reflexivity|].
    rewrite (bind_ok _ _ _ _ _ El). fold matches. fold results.
    unfold mbind, M_bind, logger, mret, M_ret. reflexivity. }
  split; [exact Hfs0|]. split; [|split].
  - intros k Hk Hpos. unfold results. rewrite Hk.
    destruct (Nat.eqb_spec k 0); [lia|]. simpl.
    destruct (Nat.ltb_spec k (length matches)).
    + split; [done|]. unfold Py.first_slice. rewrite length_take. lia.
    + split; [by rewrite take_ge|lia].
  - unfold results. by intros [->| ->].
  - destruct (search_response_format params); [|done].
    split.
    + intros ->. reflexivity.
    + intros Hne. by destruct results.
Qed.

(** X23: [SearchMemoryInput] accepts the arguments exactly when the query,
    stripped, has 1 to 200 characters and the limit, if given, lies between
    1 and 1000; so the tool never searches for the empty query.  Called
    with arguments that are not accepted, [search_memory] leaves the world
    as it is. *)
Theorem SearchMemoryInput_validate_accepts (env : Env)
    (a : SearchMemoryArguments) (w : World) :
  let accepted :=
    1 ≤ Py.len (str_strip_whitespace (sarg_query a)) ≤ 200
    ∧ ∀ z, sarg_limit a = Some z → (1 ≤ z ≤ 1000)%Z in
  match SearchMemoryInput_validate a with
  | inr params =>
      accepted
      ∧ search_query params = str_strip_whitespace (sarg_query a)
      ∧ search_query params ≠ EmptyString
      ∧ search_case_sensitive params = sarg_case_sensitive a
      ∧ search_response_format params = sarg_response_format a
      ∧ Z.of_nat <$> search_limit params = sarg_limit a
  | inl errors =>
      ¬ accepted ∧ errors ≠ []
      ∧ call_search_memory env a w = (Ok (SearchRejected errors), w)
  end.
Proof.
  intros accepted. subst accepted. unfold call_search_memory.
  unfold SearchMemoryInput_validate.
  destruct (Nat.ltb_spec (Py.len (str_strip_whitespace (sarg_query a))) 1)
    as [H1|H1].
  { simpl. split; [|done]. intros [Hq _]. lia. }
  destruct (Nat.ltb_spec 200 (Py.len (str_strip_whitespace (sarg_query a))))
    as [H2|H2].
  { simpl. split; [|done]. intros [Hq _]. lia. }
  assert (str_strip_whitespace (sarg_query a) ≠ EmptyString) as Hne.
  { intros E. rewrite E in H1. simpl in H1. lia. }
  destruct (sarg_limit a) as [z|]; simpl.
  - destruct (Z.ltb_spec z 1) as [H3|H3].
    { simpl. split; [|done]. intros [_ Hz]. specialize (Hz z eq_refl). lia. }
    destruct (Z.ltb_spec 1000 z) as [H4|H4].
    { simpl. split; [|done]. intros [_ Hz]. specialize (Hz z eq_refl). lia. }
    simpl. split; [split; [lia|]|].
    + intros ? [= <-]. lia.
    + repeat split; try done. by rewrite Z2Nat.id by lia.
  - split; [split; [lia|done]|done].
Qed.

(** ** clear_memory *)

(** X24: [clear_memory] without the confirmation answers that it is
    required and leaves the world as it is.  With it, over an existing
    memory file, with the lock and a write that succeeds, it reports the
    number of entries it loaded and persists a container with no entry that
    keeps the [created_at] of the file; read back, the store is empty.
    When the file is not empty, fewer than 9 backups exist and the copies
    do not fail, the content that was cleared is afterwards in the backups
    named by the stamps of the two copies, the one of the tool and the one
    of [save_memories]. *)
Theorem clear_memory_clears (env backup_env env' : Env) (w : World)
    (c : string) :
  let sd :=
    mkStorage STORAGE_VERSION [] (preserved_created_at env c) (now env 2) in
  clear_memory env backup_env false w = (Ok ConfirmationRequired, w)
  ∧ (load_lock env = Acquired → fs w !! MEMORY_FILE = Some c →
     write_fault env = None →
     ∃ w1,
       clear_memory env backup_env true w
       = (Ok (Cleared (length (loaded (fs w) c)) (now env 7)), w1)
       ∧ fs w1 !! MEMORY_FILE = Some (json_dumps_storage sd)
       ∧ (reads_back sd → load_lock env' = Acquired →
          ∃ w2, load_memories env' w1 = (Ok [], w2))
       ∧ (c ≠ EmptyString → backup_fault backup_env = false →
          backup_fault env = false →
          length (sorted_backups (fs w)) < 9 →
          fs w1 !! backup_file backup_env = Some c
          ∧ fs w1 !! backup_file env = Some c)).
Proof.
  intros sd. split; [done|]. intros Hl Hc Hw.
  destruct (load_memories_acquired env w c Hl Hc) as (w0 & ? & El & Hfs0 & _).
  destruct (returns_create_backup backup_env w0) as ([] & wb & Eb).
  assert (fs wb !! MEMORY_FILE = Some c) as Hcb.
  { rewrite (create_backup_other_files backup_env w0 wb _ Eb);
      [by rewrite Hfs0|apply not_backup_storage]. }
  destruct (save_memories_run env [] wb c Hcb) as (w3 & w4 & F3 & E4 & Es).
  rewrite Hw in Es.
  match type of Es with context [atomic_write None MEMORY_FILE ?s] =>
    destruct (atomic_write_writes MEMORY_FILE s w4)
      as (w5 & E5 & Hf5 & _ & Ho5 & _) end.
  rewrite E5 in Es.
  rewrite kept_within in Hf5 by (simpl; unfold MAX_ENTRIES; lia).
  eexists. split.
  { unfold clear_memory. erewrite try_ok; [reflexivity|]. cbn [negb].
    rewrite (bind_ok _ _ _ _ _ El). rewrite (bind_ok _ _ _ _ _ Eb).
    rewrite (bind_ok _ _ _ _ _ Es). reflexivity. }
  simpl. split; [exact Hf5|]. split.
  - intros Hrb Hl'.
    match goal with |- context [load_memories env' ?w1] =>
      destruct (load_reads_back env' w1 sd Hl' Hf5 Hrb) as (w2 & E2 & _) end.
    by exists w2.
  - intros Hne Hfb Hfe Hn.
    assert (fs wb = <[backup_file backup_env := c]> (fs w)) as Hwb.
    { rewrite <- Hfs0.
      apply (create_backup_under_ten backup_env w0 wb c Eb);
        [by rewrite Hfs0|done|done|rewrite Hfs0; lia]. }
    assert (fs w4 = <[backup_file env := c]> (fs wb)) as Hw4.
    { rewrite <- F3.
      apply (create_backup_under_ten env w3 w4 c E4);
        [by rewrite F3|done|done|].
      rewrite F3, Hwb.
      pose proof (length_sorted_backups_insert (fs w)
                    (backup_file backup_env) c). lia. }
    assert (∀ e, backup_file e ≠ MEMORY_FILE
                 ∧ backup_file e ≠ temp_path MEMORY_FILE) as Hdiff.
    { intros e. split; intros [=]. }
    rewrite !Ho5 by apply Hdiff. rewrite Hw4, Hwb.
    split; [|apply lookup_insert_eq].
    destruct (decide (backup_file env = backup_file backup_env)) as [->|Hd].
    + apply lookup_insert_eq.
    + rewrite lookup_insert_ne by done. apply lookup_insert_eq.
Qed.

End BackupFacts.

(** ** The statistics *)

Lemma get_count_increment (k key : string) (counts : list (string * nat)) :
  get_count k (increment key counts)
  = get_count k counts + (if decide (k = key) then 1 else 0).
Proof.
  destruct (decide (k = key)) as [->|Hne].
  - induction counts as [|[k0 n] counts IH]; simpl.
    + by rewrite String.eqb_refl.
    + destruct (String.eqb_spec k0 key) as [->|Hk]; simpl.
      * rewrite String.eqb_refl. lia.
      * by destruct (String.eqb_spec k0 key).
  - induction counts as [|[k0 n] counts IH]; simpl.
    + by destruct (String.eqb_spec key k) as [->|].
    + destruct (String.eqb_spec k0 key) as [->|Hk]; simpl.
      * destruct (String.eqb_spec key k) as [->|]; [done|lia].
      * destruct (String.eqb_spec k0 k); [lia|done].
Qed.

Lemma sum_counts_increment (key : string) (counts : list (string * nat)) :
  sum_counts (increment key counts) = S (sum_counts counts).
Proof.
  induction counts as [|[k0 n] counts IH]; simpl; [done|].
  destruct (String.eqb k0 key); simpl; [done|]. rewrite IH. lia.
Qed.

Lemma keys_increment (key : string) (counts : list (string * nat)) :
  (increment key counts).*1
  = if decide (key ∈ counts.*1) then counts.*1 else counts.*1 ++ [key].
Proof.
  induction counts as [|[k0 n] counts IH].
  - destruct (decide (key ∈ ([] : list (string * nat)).*1)) as [Hin|Hin];
      [by apply elem_of_nil in Hin|done].
  - cbn [increment]. destruct (String.eqb_spec k0 key) as [->|Hne].
    + destruct (decide (key ∈ ((key, n) :: counts).*1)) as [Hin|Hin]; [done|].
      destruct Hin. csimpl. by left.
    + change (((k0, n) :: increment key counts).*1)
        with (k0 :: (increment key counts).*1).
      rewrite IH.
      change (((k0, n) :: counts).*1) with (k0 :: counts.*1).
      destruct (decide (key ∈ counts.*1)) as [Hin|Hin].
      * rewrite decide_True; [done|]. by right.
      * rewrite decide_False; [done|]. by intros [?|?]%elem_of_cons.
Qed.

Lemma NoDup_keys_increment (key : string) (counts : list (string * nat)) :
  NoDup counts.*1 → NoDup (increment key counts).*1.
Proof.
  intros Hd. rewrite keys_increment. case_decide; [done|].
  apply NoDup_app. split; [done|]. split; [|apply NoDup_singleton].
  intros k Hk ->%list_elem_of_singleton. done.
Qed.

Lemma elem_of_counts (k : string) (n : nat) (counts : list (string * nat)) :
  NoDup counts.*1 →
  (k, n) ∈ counts ↔ k ∈ counts.*1 ∧ get_count k counts = n.
Proof.
  induction counts as [|[k0 n0] counts IH]; csimpl; intros Hd.
  - split; [by intros ?%elem_of_nil|]. by intros [?%elem_of_nil _].
  - apply NoDup_cons in Hd as [Hk0 Hd]. specialize (IH Hd).
    rewrite !elem_of_cons, IH.
    destruct (String.eqb_spec k0 k) as [->|Hne].
    + split.
      * intros [[= ->]|[Hin _]]; [by split; [left|]|done].
      * intros [_ ->]. by left.
    + split.
      * intros [[= ? ?]|[Hin Hc]]; [congruence|]. split; [by right|done].
      * intros [[?|Hin] Hc]; [congruence|]. by right.
Qed.

Section Counting.
Context {A : Type} (key : A -> string).

Lemma count_by_get (k : string) (init : list (string * nat)) (l : list A) :
  get_count k (foldl (fun counts x => increment (key x) counts) init l)
  = get_count k init + occurrences key k l.
Proof.
  revert init. induction l as [|x l IH]; intros init; simpl.
  - unfold occurrences. simpl. lia.
  - rewrite IH, get_count_increment. unfold occurrences.
    rewrite filter_cons. destruct (decide (key x = k)) as [Hk|Hk].
    + rewrite decide_True by done. simpl. lia.
    + rewrite decide_False by congruence. lia.
Qed.

Lemma count_by_sum (init : list (string * nat)) (l : list A) :
  sum_counts (foldl (fun counts x => increment (key x) counts) init l)
  = sum_counts init + length l.
Proof.
  revert init. induction l as [|x l IH]; intros init; simpl; [lia|].
  rewrite IH, sum_counts_increment. lia.
Qed.

Lemma count_by_NoDup (init : list (string * nat)) (l : list A) :
  NoDup init.*1 →
  NoDup (foldl (fun counts x => increment (key x) counts) init l).*1.
Proof.
  revert init. induction l as [|x l IH]; intros init Hd; simpl; [done|].
  by apply IH, NoDup_keys_increment.
Qed.

Lemma count_by_keys (k : string) (init : list (string * nat)) (l : list A) :
  k ∈ (foldl (fun counts x => increment (key x) counts) init l).*1
  ↔ k ∈ init.*1 ∨ k ∈ key <$> l.
Proof.
  revert init. induction l as [|x l IH]; intros init; simpl.
  - split; [by left|]. by intros [?|?%elem_of_nil].
  - rewrite IH, keys_increment. csimpl. rewrite elem_of_cons.
    case_decide as Hin; [|rewrite elem_of_app, list_elem_of_singleton].
    + split; [tauto|]. intros [?|[->|?]]; tauto.
    + tauto.
Qed.

Lemma count_by_prefix (init : list (string * nat)) (l : list A) :
  ∃ others,
    (foldl (fun counts x => increment (key x) counts) init l).*1
    = init.*1 ++ others.
Proof.
  revert init. induction l as [|x l IH]; intros init; simpl.
  - exists []. by rewrite app_nil_r.
  - destruct (IH (increment (key x) init)) as [others ->].
    rewrite keys_increment. case_decide; [by exists others|].
    rewrite <- app_assoc. by eexists.
Qed.

Lemma occurrences_pos (k : string) (l : list A) :
  0 < occurrences key k l ↔ k ∈ key <$> l.
Proof.
  unfold occurrences. rewrite list_elem_of_fmap. split.
  - intros Hn. destruct (filter _ l) as [|x l'] eqn:E; [simpl in Hn; lia|].
    assert (x ∈ filter (fun x => key x = k) l) as Hx by (rewrite E; left).
    apply list_elem_of_filter in Hx as [Hk Hx]. by exists x.
  - intros (x & -> & Hx).
    assert (x ∈ filter (fun y => key y = key x) l) as Hin
      by by apply list_elem_of_filter.
    destruct (filter _ l); [by apply elem_of_nil in Hin|simpl; lia].
Qed.

End Counting.

(** X25: the agent activity of the statistics lists each author of at
    least one entry once, with the number of the entries of that author,
    the entries without author under the name unknown; the counts add up to
    the number of entries. *)
Theorem statistics_agent_activity (memories : list Entry) :
  let author := fun m => default "unknown" (agent_name m) in
  let activity := agent_activity (statistics memories) in
  total_entries (statistics memories) = length memories
  ∧ sum_counts activity = length memories
  ∧ NoDup activity.*1
  ∧ ∀ k n, (k, n) ∈ activity ↔ n = occurrences author k memories ∧ 0 < n.
Proof.
  intros author activity. subst activity.
  change (agent_activity (statistics memories))
    with (foldl (fun counts x => increment (author x) counts) [] memories).
  split; [done|]. split; [by rewrite (count_by_sum author)|].
  assert (NoDup (foldl (fun counts x => increment (author x) counts) [] memories).*1)
    as Hd by (apply count_by_NoDup; constructor).
  split; [exact Hd|]. intros k n.
  rewrite (elem_of_counts _ _ _ Hd), (count_by_keys author), (count_by_get author).
  simpl. rewrite <- (occurrences_pos author). split.
  - intros [[?%elem_of_nil|Hpos] <-]; [done|]. by split.
  - intros [-> Hpos]. split; [by right|done].
Qed.

(** X26: the priority distribution of the statistics opens with the keys
    low, medium and high, each with the number of the entries of that
    priority, the entries without priority counted as medium; a priority
    that is none of the three has a key of its own after them; the counts
    add up to the number of entries. *)
Theorem statistics_priority_distribution (memories : list Entry) :
  let rank := fun m => default "medium" (priority m) in
  let distribution := priority_distribution (statistics memories) in
  sum_counts distribution = length memories
  ∧ NoDup distribution.*1
  ∧ (∃ others, distribution.*1 = ["low"; "medium"; "high"] ++ others)
  ∧ (∀ k, get_count k distribution = occurrences rank k memories)
  ∧ ∀ k n, (k, n) ∈ distribution ↔
      n = occurrences rank k memories
      ∧ (k ∈ ["low"; "medium"; "high"] ∨ 0 < n).
Proof.
  intros rank distribution. subst distribution.
  set (init := [("low", 0); ("medium", 0); ("high", 0)]).
  change (priority_distribution (statistics memories))
    with (foldl (fun counts x => increment (rank x) counts) init memories).
  assert (NoDup init.*1) as Hi.
  { simpl. repeat (apply NoDup_cons; split); try apply NoDup_nil_2.
    all: intros Hin;
      repeat (apply elem_of_cons in Hin as [Hin|Hin]; [discriminate Hin|]);
      by apply elem_of_nil in Hin. }
  assert (NoDup (foldl (fun counts x => increment (rank x) counts) init memories).*1)
    as Hd by by apply count_by_NoDup.
  split; [by rewrite (count_by_sum rank)|]. split; [exact Hd|].
  split; [apply (count_by_prefix rank init memories)|].
  assert (∀ k, get_count k init = 0) as H0.
  { intros k. unfold init. cbn [get_count].
    by repeat destruct (String.eqb _ k). }
  split.
  - intros k. rewrite (count_by_get rank), H0. done.
  - intros k n.
    rewrite (elem_of_counts _ _ _ Hd), (count_by_keys rank), (count_by_get rank).
    rewrite H0, <- (occurrences_pos rank). simpl. split.
    + intros [Hk <-]. by split.
    + intros [-> Hk]. by split.
Qed.

(** ** The top lists and the date range of the statistics *)

Lemma strongly_sorted_impl {A} (R S : A -> A -> Prop) (l : list A) :
  (∀ x y, R x y → S x y) → StronglySorted R l → StronglySorted S l.
Proof.
  intros HRS. induction 1 as [|x l _ IH Hall]; constructor; [done|].
  eapply Forall_impl; [exact Hall|]. intros y. apply HRS.
Qed.

Lemma insert_sorted_descending_filter (n : nat) (x : string * nat)
    (l : list (string * nat)) :
  filter (fun y => y.2 = n)
    (Py.insert_sorted (fun x y => (y.2 <=? x.2)%nat) x l)
  = filter (fun y => y.2 = n) (x :: l).
Proof.
  induction l as [|y l IH]; [done|]. simpl.
  destruct (Nat.leb_spec y.2 x.2) as [Hle|Hlt]; [done|].
  rewrite (filter_cons _ y), IH, !filter_cons.
  repeat case_decide; try done; lia.
Qed.

Lemma sorted_descending_filter (n : nat) (counts : list (string * nat)) :
  filter (fun y => y.2 = n) (Py.sorted (fun x y => (y.2 <=? x.2)%nat) counts)
  = filter (fun y => y.2 = n) counts.
Proof.
  induction counts as [|x l IH]; [done|]. unfold Py.sorted in *. simpl.
  by rewrite insert_sorted_descending_filter, !filter_cons, IH.
Qed.

Lemma top_leading (k : nat) (counts : list (string * nat)) :
  leading k counts (top k counts).
Proof.
  unfold leading, top, Py.first_slice.
  set (le := fun x y : string * nat => (y.2 <=? x.2)%nat).
  pose proof (sorted_permutation le counts) as Hp.
  assert (StronglySorted (fun x y => y.2 ≤ x.2) (Py.sorted le counts)) as Hs.
  { apply (strongly_sorted_impl (fun a b => le a b = true)).
    - intros x y Hxy. by apply Nat.leb_le.
    - apply sorted_sorted.
      + intros x y. unfold le. rewrite !Nat.leb_le. lia.
      + intros x y z. unfold le. rewrite !Nat.leb_le. lia. }
  rewrite <- (take_drop k (Py.sorted le counts)) in Hs, Hp.
  split; [|split; [|split]].
  - rewrite length_take.
    by rewrite <- (Permutation_length (sorted_permutation le counts)).
  - by apply StronglySorted_app_1_l in Hs.
  - intros n. rewrite <- (sorted_descending_filter n counts). fold le.
    rewrite <- (take_drop k (Py.sorted le counts)) at 2.
    rewrite filter_app. by eexists.
  - exists (drop k (Py.sorted le counts)). split; [done|].
    intros x y Hx Hy.
    apply (StronglySorted_app_1_elem_of _ _ _ _ _ Hs Hx Hy).
Qed.

(** X27: the list [top_agents] of the statistics holds the five leading
    items of the agent activity, and [top_tags] the ten leading items of the
    tag usage: fewer when there are fewer, in the descending order of their
    counts, items of equal counts in the order of the dictionary, and no
    item left out counts more than an item listed. *)
Theorem statistics_top_lists (memories : list Entry) :
  let stats := statistics memories in
  leading 5 (agent_activity stats) (top_agents stats)
  ∧ leading 10 (tag_usage stats) (top_tags stats).
Proof. split; apply top_leading. Qed.

Lemma string_ltb_leb (a b : string) :
  String.ltb a b = true → String.leb a b = true.
Proof. unfold String.ltb, String.leb. by destruct (String.compare a b). Qed.

Lemma string_ltb_false (a b : string) :
  String.ltb a b = false → String.leb b a = true.
Proof.
  unfold String.ltb, String.leb. rewrite (String.compare_antisym a b).
  by destruct (String.compare b a).
Qed.

Lemma foldl_min (x : string) (l : list string) :
  let r := foldl (fun a b => if String.ltb b a then b else a) x l in
  r ∈ x :: l ∧ ∀ t, t ∈ x :: l → String.leb r t = true.
Proof.
  revert x. induction l as [|b l IH]; intros x; simpl.
  - split; [by left|]. intros t ->%list_elem_of_singleton.
    apply string_leb_refl.
  - destruct (IH (if String.ltb b x then b else x)) as [Hin Hle].
    split.
    + apply elem_of_cons in Hin as [->|Hin].
      * destruct (String.ltb b x); [right; by left|by left].
      * by do 2 right.
    + intros t Ht.
      assert (String.leb (if String.ltb b x then b else x) t = true
              ∨ t ∈ l) as [Hfirst|Hrest].
      { apply elem_of_cons in Ht as [->|Ht].
        - left. destruct (String.ltb b x) eqn:E;
            [by apply string_ltb_leb|apply string_leb_refl].
        - apply elem_of_cons in Ht as [->|Ht]; [|by right].
          left. destruct (String.ltb b x) eqn:E;
            [apply string_leb_refl|by apply string_ltb_false]. }
      * eapply string_leb_trans; [|exact Hfirst]. apply Hle. by left.
      * apply Hle. by right.
Qed.

Lemma foldl_max (x : string) (l : list string) :
  let r := foldl (fun a b => if String.ltb a b then b else a) x l in
  r ∈ x :: l ∧ ∀ t, t ∈ x :: l → String.leb t r = true.
Proof.
  revert x. induction l as [|b l IH]; intros x; simpl.
  - split; [by left|]. intros t ->%list_elem_of_singleton.
    apply string_leb_refl.
  - destruct (IH (if String.ltb x b then b else x)) as [Hin Hle].
    split.
    + apply elem_of_cons in Hin as [->|Hin].
      * destruct (String.ltb x b); [right; by left|by left].
      * by do 2 right.
    + intros t Ht.
      assert (String.leb t (if String.ltb x b then b else x) = true
              ∨ t ∈ l) as [Hfirst|Hrest].
      { apply elem_of_cons in Ht as [->|Ht].
        - left. destruct (String.ltb x b) eqn:E;
            [by apply string_ltb_leb|apply string_leb_refl].
        - apply elem_of_cons in Ht as [->|Ht]; [|by right].
          left. destruct (String.ltb x b) eqn:E;
            [apply string_leb_refl|by apply string_ltb_false]. }
      * eapply string_leb_trans; [exact Hfirst|]. apply Hle. by left.
      * apply Hle. by right.
Qed.

(** X28: the date range of the statistics is taken over the time stamps of
    the entries that are not empty.  Without such a stamp both ends are
    absent; otherwise [earliest] and [latest] are stamps of entries, and
    every stamp lies between them in the order of strings. *)
Theorem statistics_date_range (memories : list Entry) :
  let stamps := timestamps memories in
  (∀ t, t ∈ stamps
        ↔ t ≠ EmptyString ∧ ∃ m, m ∈ memories ∧ timestamp m = Some t)
  ∧ (stamps = [] → date_range (statistics memories) = (None, None))
  ∧ (stamps ≠ [] →
     ∃ earliest latest,
       date_range (statistics memories) = (Some earliest, Some latest)
       ∧ earliest ∈ stamps ∧ latest ∈ stamps
       ∧ ∀ t, t ∈ stamps →
           String.leb earliest t = true ∧ String.leb t latest = true).
Proof.
  intros stamps. split; [|split].
  - intros t. unfold stamps, timestamps. rewrite list_elem_of_omap.
    setoid_rewrite truthy_str_spec. split.
    + intros (m & Hm & Ht & Hne). split; [done|]. by exists m.
    + intros (Hne & m & Hm & Ht). by exists m.
  - intros E. change (date_range (statistics memories))
      with (min_or_none stamps, max_or_none stamps). by rewrite E.
  - intros Hne. change (date_range (statistics memories))
      with (min_or_none stamps, max_or_none stamps).
    destruct stamps as [|x l]; [done|]. simpl.
    destruct (foldl_min x l) as [Hmin Hlo].
    destruct (foldl_max x l) as [Hmax Hhi].
    eexists _, _. split; [reflexivity|]. split; [exact Hmin|].
    split; [exact Hmax|]. intros t Ht. split; [by apply Hlo|by apply Hhi].
Qed.

Section ToolFacts.
Context `{Library}.

(** ** get_memory_stats *)

(** X29: over an existing memory file [get_memory_stats] changes no file.
    With the lock it answers that there is no entry when it loaded none,
    and otherwise gives the statistics of the entries it loaded, in which
    the number of entries and the number of entries until the rotation add
    up to the capacity, unless the capacity is exceeded.  A lock that times
    out makes it report the failure, and a lock that fails in another way
    makes it answer that there is no entry, whatever the file holds. *)
Theorem get_memory_stats_reports (env : Env) (w : World) (c : string) :
  fs w !! MEMORY_FILE = Some c →
  ∃ w' r,
    get_memory_stats env w = (Ok r, w')
    ∧ fs w' = fs w
    ∧ match load_lock env with
      | Acquired =>
          (loaded (fs w) c = [] → r = NoEntries)
          ∧ (loaded (fs w) c ≠ [] →
             ∃ stats,
               r = Stats stats
               ∧ stats = statistics (loaded (fs w) c)
               ∧ total_entries stats = length (loaded (fs w) c)
               ∧ (total_entries stats ≤ MAX_ENTRIES →
                  total_entries stats + entries_until_rotation stats
                  = max_entries stats)
               ∧ (MAX_ENTRIES ≤ total_entries stats →
                  entries_until_rotation stats = 0))
      | TimedOut => r = StatsFailed FileLockTimeout
      | LockFailed => r = NoEntries
      end.
Proof.
  intros Hc. pose proof (load_memories_existing env w c Hc) as Hl.
  unfold get_memory_stats. destruct (load_lock env).
  - destruct Hl as (w0 & El & Hfs).
    destruct (loaded (fs w) c) as [|m l] eqn:Em.
    + eexists _, _. split.
      { erewrite try_ok; [reflexivity|]. by rewrite (bind_ok _ _ _ _ _ El). }
      split; [exact Hfs|]. by split.
    + eexists _, _. split.
      { erewrite try_ok; [reflexivity|]. rewrite (bind_ok _ _ _ _ _ El).
        unfold mbind, M_bind, logger, mret, M_ret. reflexivity. }
      split; [exact Hfs|]. split; [done|]. intros _.
      eexists. split; [reflexivity|]. split; [reflexivity|].
      split; [reflexivity|].
      cbn [total_entries entries_until_rotation max_entries statistics].
      split; intros Hn.
      * destruct (Nat.ltb_spec (length (m :: l)) MAX_ENTRIES); lia.
      * destruct (Nat.ltb_spec (length (m :: l)) MAX_ENTRIES); lia.
  - eexists _, _. split.
    { erewrite try_raise; [|by rewrite (bind_raise _ _ _ _ _ Hl)].
      unfold mbind, M_bind, logger, mret, M_ret. reflexivity. }
    by split.
  - eexists _, _. split.
    { erewrite try_ok; [reflexivity|]. by rewrite (bind_ok _ _ _ _ _ Hl). }
    by split.
Qed.

(** ** health_check *)

Lemma attempt_ok {A} (m : M A) (w w' : World) (a : A) :
  m w = (Ok a, w') → attempt m w = (Ok (Ok a), w').
Proof.
  intros E. unfold attempt. erewrite try_ok; [reflexivity|].
  by rewrite (bind_ok _ _ _ _ _ E).
Qed.

Lemma attempt_raise {A} (m : M A) (w w' : World) (e : Exn) :
  m w = (Raise e, w') → attempt m w = (Ok (Raise e), w').
Proof.
  intros E. unfold attempt. erewrite try_raise; [reflexivity|].
  by rewrite (bind_raise _ _ _ _ _ E).
Qed.

Lemma attempt_returns {A} (m : M A) (w : World) :
  ∃ r w', attempt m w = (Ok r, w').
Proof.
  destruct (m w) as [[a|e] w'] eqn:E.
  - exists (Ok a), w'. by apply attempt_ok.
  - exists (Raise e), w'. by apply attempt_raise.
Qed.

Lemma file_lock_existing (outcome : LockOutcome) (w : World) (c : string) :
  fs w !! MEMORY_FILE = Some c →
  file_lock outcome MEMORY_FILE (mret ()) w
  = (match outcome with
     | Acquired => Ok ()
     | TimedOut => Raise FileLockTimeout
     | LockFailed => Raise FileLockError
     end, w).
Proof.
  intros Hc. unfold file_lock. destruct outcome; run; rewrite ?Hc; run.
  - by rewrite decide_False by done.
  - by rewrite decide_False by done.
  - done.
Qed.

(** X30: [health_check] always gives a report, never the failure of the
    check itself, and the report says that all is well exactly when its
    first three checks succeeded.  Over an existing memory file, whose
    content is text that [json.loads] parses to a value of the storage
    schema or rejects with [JSONDecodeError], it changes no file; the check
    of the storage file succeeds; the check of the lock fails exactly when
    the lock is not acquired; and the check of the JSON reports the number
    of entries that [load_memories] returns, unless the lock of
    [load_memories] times out.  So the check of the JSON succeeds also over
    a text that is not JSON, with the number of the entries recovered from
    the snapshots, and when the lock of [load_memories] fails without
    timing out, with no entry. *)
Theorem health_check_reports (env : Env) (health_lock : LockOutcome)
    (w : World) :
  (∃ status w',
     health_check env health_lock w = (Ok (Health status), w')
     ∧ health_timestamp status = now env 8
     ∧ health_success status
       = succeeded (check_storage_file status)
         && succeeded (check_file_locking status)
         && succeeded (check_json_parsing status)
     ∧ health_message status
       = if health_success status then "All systems operational"
         else "Some checks failed - see details")
  ∧ ∀ c,
      fs w !! MEMORY_FILE = Some c →
      ∃ status w',
        health_check env health_lock w = (Ok (Health status), w')
        ∧ fs w' = fs w
        ∧ check_storage_file status = Ok true
        ∧ check_file_locking status
          = match health_lock with
            | Acquired => Ok ()
            | TimedOut => Raise FileLockTimeout
            | LockFailed => Raise FileLockError
            end
        ∧ check_json_parsing status
          = match load_lock env with
            | Acquired => Ok (length (loaded (fs w) c))
            | TimedOut => Raise FileLockTimeout
            | LockFailed => Ok 0
            end
        ∧ check_backup_system status = length (sorted_backups (fs w)).
Proof.
  split.
  - unfold health_check.
    match goal with |- context [attempt ?m ≫= _] =>
      destruct (attempt_returns m w) as (r1 & w1 & E1) end.
    destruct (attempt_returns (file_lock health_lock MEMORY_FILE (mret ())) w1)
      as (r2 & w2 & E2).
    destruct (attempt_returns
                (memories ← load_memories env; mret (length memories)) w2)
      as (r3 & w3 & E3).
    eexists _, _. split.
    { erewrite try_ok; [reflexivity|]. cbv zeta.
      rewrite (bind_ok _ _ _ _ _ E1), (bind_ok _ _ _ _ _ E2),
        (bind_ok _ _ _ _ _ E3).
      unfold mbind, M_bind, get_fs, logger, mret, M_ret. reflexivity. }
    by cbn.
  - intros c Hc. unfold health_check.
    assert (attempt
              (ensure_storage_structure env;;
               f ← get_fs; mret (bool_decide (f !! MEMORY_FILE ≠ None))) w
            = (Ok (Ok true), w)) as E1.
    { apply attempt_ok.
      rewrite (bind_ok _ _ _ _ _ (ensure_existing env w ltac:(by rewrite Hc))).
      run. by rewrite bool_decide_true by (by rewrite Hc). }
    pose proof (file_lock_existing health_lock w c Hc) as E2.
    assert (∃ r2, attempt (file_lock health_lock MEMORY_FILE (mret ())) w
                  = (Ok r2, w)
                  ∧ r2 = match health_lock with
                         | Acquired => Ok ()
                         | TimedOut => Raise FileLockTimeout
                         | LockFailed => Raise FileLockError
                         end) as (r2 & E2' & Hr2).
    { destruct health_lock; eexists; (split; [|reflexivity]);
        [by apply attempt_ok|by apply attempt_raise|by apply attempt_raise]. }
    pose proof (load_memories_existing env w c Hc) as Hl.
    assert (∃ r3 w3,
              attempt (memories ← load_memories env; mret (length memories)) w
              = (Ok r3, w3)
              ∧ fs w3 = fs w
              ∧ r3 = match load_lock env with
                     | Acquired => Ok (length (loaded (fs w) c))
                     | TimedOut => Raise FileLockTimeout
                     | LockFailed => Ok 0
                     end) as (r3 & w3 & E3 & Hfs3 & Hr3).
    { destruct (load_lock env).
      - destruct Hl as (w0 & El & Hfs). eexists _, w0. split.
        { apply attempt_ok. by rewrite (bind_ok _ _ _ _ _ El). }
        by split.
      - eexists _, _. split.
        { apply attempt_raise. by rewrite (bind_raise _ _ _ _ _ Hl). }
        by split.
      - eexists _, _. split.
        { apply attempt_ok. by rewrite (bind_ok _ _ _ _ _ Hl). }
        by split. }
    eexists _, _. split.
    { erewrite try_ok; [reflexivity|]. cbv zeta.
      rewrite (bind_ok _ _ _ _ _ E1), (bind_ok _ _ _ _ _ E2'),
        (bind_ok _ _ _ _ _ E3).
      unfold mbind, M_bind, get_fs, logger, mret, M_ret. reflexivity. }
    cbn. split; [exact Hfs3|]. split; [done|]. split; [exact Hr2|].
    split; [exact Hr3|]. rewrite Hfs3. unfold sorted_backups.
    symmetry. apply Permutation_length, sorted_permutation.
Qed.

End ToolFacts.
(** * The further properties at work on files *)

Section MoreRuns.
Import Sample Faulty.

Ltac computed :=
  first [ vm_compute; reflexivity | vm_compute; lia | vm_compute; discriminate ].

(** Asked to keep no backup, [cleanup_old_backups] removes none:
    [backups[:-0]] is the empty list. *)
Example cleanup_old_backups_keep_zero :
  sorted_backups
    (fs (cleanup_old_backups 0
           (world [(snapshot "20250101_000000", "old");
                   (snapshot "20250102_000000", "new")])).2)
  = [snapshot "20250101_000000"; snapshot "20250102_000000"].
Proof. computed. Qed.

Lemma create_backup_copies_witness :
  ∃ w',
    create_backup env (store_of (numbered 1)) = (Ok (), w')
    ∧ fs w' !! backup_file env = Some (file_of (numbered 1))
    ∧ fs w' !! MEMORY_FILE = Some (file_of (numbered 1)).
Proof.
  destruct (create_backup_copies env (store_of (numbered 1)))
    as (w' & E & Hother & _ & Hcopy).
  exists w'. split; [exact E|].
  destruct (Hcopy (file_of (numbered 1))) as (_ & _ & _ & Hfs);
    [computed|computed|reflexivity|].
  split.
  - rewrite Hfs by computed. apply lookup_insert_eq.
  - rewrite Hother by apply not_backup_storage. computed.
Defined.

Lemma ensure_storage_structure_outcomes_witness :
  (∃ w',
     ensure_storage_structure env (world []) = (Ok (), w')
     ∧ fs w' !! MEMORY_FILE
       = Some (json_dumps_storage
                 (mkStorage STORAGE_VERSION [] (Py.VStr (now env 0))
                    (now env 1))))
  ∧ ∃ w',
      ensure_storage_structure init_failing (world []) = (Raise OSError, w')
      ∧ fs w' !! MEMORY_FILE = None.
Proof.
  split.
  - destruct (ensure_storage_structure_outcomes env (world []))
      as (_ & Hnew & _).
    destruct Hnew as (w' & E & Hfs & _); [computed|reflexivity|].
    exists w'. split; [exact E|exact Hfs].
  - destruct (ensure_storage_structure_outcomes init_failing (world []))
      as (_ & _ & Hfail).
    destruct Hfail as (w' & E & Hfs & _); [computed|discriminate|].
    exists w'. split; [exact E|exact Hfs].
Defined.

Lemma load_memories_lock_failures_witness :
  load_memories timed_out (store_of (numbered 1))
  = (Raise FileLockTimeout,
     mkWorld (fs (store_of (numbered 1))) [mkLog ERROR "File lock timeout"])
  ∧ load_memories lock_failed (store_of (numbered 1))
    = (Ok [],
       mkWorld (fs (store_of (numbered 1)))
         [mkLog ERROR "Unexpected error loading memories"]).
Proof.
  split.
  - destruct (load_memories_lock_failures timed_out (store_of (numbered 1))
                (file_of (numbered 1))) as [H1 _]; [computed|].
    exact (H1 eq_refl).
  - destruct (load_memories_lock_failures lock_failed (store_of (numbered 1))
                (file_of (numbered 1))) as [_ H2]; [computed|].
    exact (H2 eq_refl).
Defined.

Lemma load_memories_raises_only_witness :
  fs (load_memories env (store_of (numbered 1))).2 = fs (store_of (numbered 1))
  ∧ ∀ e w',
      load_memories init_failing (world []) = (Raise e, w') → e = OSError.
Proof.
  split.
  - destruct (load_memories_raises_only env (store_of (numbered 1)))
      as [Hfs _].
    apply Hfs. computed.
  - intros e w' E.
    destruct (load_memories_raises_only init_failing (world [])) as [_ Hr].
    destruct (Hr e w' E) as [[_ Hl]|[He _]]; [discriminate Hl|exact He].
Defined.

Lemma save_memories_fails_safely_witness :
  ∃ w',
    save_memories write_failing [sample_message] (store_of (numbered 1))
    = (Raise OSError, w')
    ∧ fs w' !! MEMORY_FILE = Some (file_of (numbered 1)).
Proof.
  destruct (save_memories_fails_safely write_failing [sample_message]
              (store_of (numbered 1))) as [_ Hfail].
  destruct (Hfail (file_of (numbered 1)) (FailWrite 3))
    as (w' & E & Hfs & _); [computed|reflexivity|].
  exists w'. split; [exact E|exact Hfs].
Defined.

Lemma save_memories_created_at_witness :
  ∃ w',
    save_memories env [sample_message] (store_of (numbered 1)) = (Ok (), w')
    ∧ fs w' !! MEMORY_FILE
      = Some (json_dumps_storage
                (mkStorage STORAGE_VERSION (kept [sample_message])
                   (Py.VStr "2025-01-01") (now env 2))).
Proof.
  destruct (save_memories_created_at env [sample_message]
              (store_of (numbered 1)) (file_of (numbered 1)))
    as (w' & created & E & Hfs & _ & _ & _ & _ & Hkeep);
    [computed|reflexivity|].
  exists w'. split; [exact E|].
  rewrite Hfs.
  rewrite (Hkeep (Some (numbered 1)) (Py.VStr "2025-01-01"));
    [reflexivity|reflexivity|computed|computed|discriminate].
Defined.

Lemma add_memory_then_get_memory_witness :
  (add_memory env (mkAddInput "agent" "hello world" ["note"] HIGH [])
     (store_of (numbered 1))).1
  = Ok (Added (uuid4 env) 2 (now env 4) "agent" 2 ["note"] "high")
  ∧ ∃ entry w2,
      get_memory env (uuid4 env) JSON
        (add_memory env (mkAddInput "agent" "hello world" ["note"] HIGH [])
           (store_of (numbered 1))).2
      = (Ok (Found entry), w2)
      ∧ entry_id entry = Some (uuid4 env)
      ∧ content entry = Some "hello world".
Proof.
  split; [computed|].
  destruct (add_memory_then_get_memory env env
              (mkAddInput "agent" "hello world" ["note"] HIGH [])
              (store_of (numbered 1)) (file_of (numbered 1)))
    as (w1 & earlier & E & _ & _ & _ & Hget); [reflexivity|computed|reflexivity|].
  destruct Hget as (w2 & E2).
  - split; computed.
  - reflexivity.
  - computed.
  - apply (bool_decide_unpack _). vm_compute. exact I.
  - rewrite E. eexists _, w2. split; [exact E2|]. split; reflexivity.
Defined.

Lemma update_memory_replaces_entry_witness :
  ∃ w1,
    update_memory env
      (mkUpdateInput (numbered_id 1) (Some "new text") (Some ["B"; "a "])
         None None)
      (store_of (numbered 3))
    = (Ok (Updated (numbered_id 1) ["content"; "tags"] (now env 5)), w1).
Proof.
  destruct (update_memory_replaces_entry env
              (mkUpdateInput (numbered_id 1) (Some "new text")
                 (Some ["B"; "a "]) None None)
              (store_of (numbered 3)) (file_of (numbered 3))
              (with_id (numbered_id 1)))
    as (before & after & w1 & _ & _ & E & _);
    [reflexivity|computed|computed|computed|reflexivity|].
  exists w1. exact E.
Defined.

Lemma invalid_entry_id_leaves_world_witness :
  update_memory env (mkUpdateInput "nope" None None None None)
    (store_of (numbered 1))
  = (Ok (InvalidEntryId "nope"), store_of (numbered 1))
  ∧ delete_memory env "nope" (store_of (numbered 1))
    = (Ok (InvalidEntryId "nope"), store_of (numbered 1))
  ∧ get_memory env "nope" JSON (store_of (numbered 1))
    = (Ok (InvalidEntryId "nope"), store_of (numbered 1)).
Proof.
  destruct (invalid_entry_id_leaves_world env
              (mkUpdateInput "nope" None None None None) "nope" JSON
              (store_of (numbered 1))) as [H1 H2].
  split; [apply H1; computed|apply H2; computed].
Defined.

Lemma entry_not_found_leaves_files_witness :
  (∃ w',
     update_memory env (mkUpdateInput (numbered_id 7) None None None None)
       (store_of (numbered 3))
     = (Ok (EntryNotFound (numbered_id 7)), w')
     ∧ fs w' = fs (store_of (numbered 3)))
  ∧ (∃ w',
       delete_memory env (numbered_id 7) (store_of (numbered 3))
       = (Ok (EntryNotFound (numbered_id 7)), w')
       ∧ fs w' = fs (store_of (numbered 3)))
  ∧ ∃ w',
      get_memory env (numbered_id 7) JSON (store_of (numbered 3))
      = (Ok (EntryNotFound (numbered_id 7)), w')
      ∧ fs w' = fs (store_of (numbered 3)).
Proof.
  destruct (entry_not_found_leaves_files env
              (mkUpdateInput (numbered_id 7) None None None None)
              (numbered_id 7) JSON (store_of (numbered 3))
              (file_of (numbered 3))) as [H1 H2]; [reflexivity|computed|].
  split; [apply H1; computed|apply H2; computed].
Defined.

Lemma search_memory_returns_witness :
  (search_memory env (mkSearchInput "test" false JSON (Some 1))
     (store_of talk)).1
  = Ok (SearchResults "test" 1
          [written 0 "AlphaBot" "This is a TEST message" ["important"] "high"])
  ∧ ∃ w' r,
      search_memory env (mkSearchInput "test" false JSON (Some 1))
        (store_of talk) = (Ok r, w')
      ∧ fs w' = fs (store_of talk).
Proof.
  split; [computed|].
  destruct (search_memory_returns env (mkSearchInput "test" false JSON (Some 1))
              (store_of talk) (file_of talk))
    as (w' & results & r & E & Hfs & _); [reflexivity|computed|].
  exists w', r. split; [exact E|exact Hfs].
Defined.

Lemma clear_memory_clears_witness :
  (clear_memory env later true (store_of (numbered 2))).1
  = Ok (Cleared 2 (now env 7))
  ∧ ∃ w2,
      load_memories env (clear_memory env later true (store_of (numbered 2))).2
      = (Ok [], w2)
      ∧ fs (clear_memory env later true (store_of (numbered 2))).2
        !! backup_file later = Some (file_of (numbered 2))
      ∧ fs (clear_memory env later true (store_of (numbered 2))).2
        !! backup_file env = Some (file_of (numbered 2)).
Proof.
  split; [computed|].
  destruct (clear_memory_clears env later env (store_of (numbered 2))
              (file_of (numbered 2))) as [_ Hc].
  destruct Hc as (w1 & E & _ & Hload & Hb); [reflexivity|computed|reflexivity|].
  destruct Hload as (w2 & E2); [split; computed|reflexivity|].
  destruct Hb as [Hb1 Hb2]; [computed|reflexivity|reflexivity|computed|].
  rewrite E. exists w2. split; [exact E2|]. split; [exact Hb1|exact Hb2].
Defined.

Lemma statistics_date_range_witness :
  ∃ earliest latest,
    date_range (statistics talk) = (Some earliest, Some latest)
    ∧ String.leb earliest latest = true.
Proof.
  destruct (statistics_date_range talk) as (_ & _ & Hrange).
  destruct Hrange as (earliest & latest & E & _ & Hin & Hall); [computed|].
  exists earliest, latest. split; [exact E|].
  exact (proj1 (Hall latest Hin)).
Defined.

Lemma get_memory_stats_reports_witness :
  (∃ w' stats,
     get_memory_stats env (store_of talk) = (Ok (Stats stats), w')
     ∧ total_entries stats = 3
     ∧ agent_activity stats = [("AlphaBot", 2); ("BetaBot", 1)])
  ∧ ∃ w',
      get_memory_stats timed_out (store_of talk)
      = (Ok (StatsFailed FileLockTimeout), w')
      ∧ fs w' = fs (store_of talk).
Proof.
  split.
  - destruct (get_memory_stats_reports env (store_of talk) (file_of talk))
      as (w' & r & E & _ & _ & Hr); [computed|].
    destruct Hr as (stats & -> & -> & _); [computed|].
    exists w'. eexists. split; [exact E|]. split; computed.
  - destruct (get_memory_stats_reports timed_out (store_of talk)
                (file_of talk)) as (w' & r & E & Hfs & Hr); [computed|].
    simpl in Hr. subst r. exists w'. split; [exact E|exact Hfs].
Defined.

(** A memory file that does not parse passes the check of the JSON: the
    entry counted is the one recovered from the older backup. *)
Lemma health_check_reports_witness :
  ∃ status w',
    health_check env Acquired corrupt_world = (Ok (Health status), w')
    ∧ check_json_parsing status = Ok 1
    ∧ check_backup_system status = 2
    ∧ fs w' = fs corrupt_world.
Proof.
  destruct (health_check_reports env Acquired corrupt_world) as [_ Hfile].
  destruct (Hfile "{broken") as (status & w' & E & Hfs & _ & _ & Hj & Hb);
    [computed|].
  exists status, w'. split; [exact E|].
  split; [rewrite Hj; computed|]. split; [rewrite Hb; computed|exact Hfs].
Defined.

End MoreRuns.
